(** * SPH fluid simulation (flbase-dist/SPH/SPH.cpp)

    A shallow embedding of the simulation engine of [SPH.cpp]: the three
    smoothing kernels, the density solver, the force solver, the
    semi-implicit Euler integrator with its collision-response loop, the
    re-bucketing of particles in the regular grid, the implicit
    surface evaluator, the seeding of the constructor with the inflated
    bounding box of the container, and [resetVelocities].

    Numbers.  The C++ code computes with [float] and [double].  The
    embedding idealises both as real numbers ([R]): rounding, overflow and
    NaN are not modelled, [M_PI] is [PI] and [::sqrt] is [sqrt].  Division
    is the total division of [R]; statements that depend on a divisor
    being non-zero say so.  Where the code divides by a sum that can be
    zero, the two solvers also come in a checked form
    ([computeDensityChecked], [computeForceChecked]) that has no result
    when a divisor is zero: there the code computes an infinity or NaN,
    and what the total division gives says nothing about it.

    Parallelism.  The two [#pragma omp parallel for] loops are embedded as
    the sequential loops they decorate (iteration [0], then [1], ...),
    which is what the code means when compiled without OpenMP.  The
    iterations of the force solver read no field that another iteration
    writes.  Those of the density solver do: they read the density of
    their neighbours, which the iterations of the neighbours write.
    [computeDensitiesScheduled] runs that loop under an arbitrary
    interleaving of its iterations.

    Collaborators.  [Particle], [Grid], [Geometry] and the base class
    [AbstractObject] are declared outside [SPH.cpp]; [QVector3D] is Qt's.
    Rendering ([render], [changeRenderMode], [changeMaterial], the
    marching tetrahedra) is left out. *)

From Stdlib Require Import Reals List Permutation Arith Bool Lia Lra Psatz.
Import ListNotations.

Open Scope R_scope.

(** ** Arrays indexed by [int] / [unsigned int] *)

(** [v[i] = a] on a [QVector]: the slot [i] is overwritten.  Qt asserts
    that [i] is in range; out of range the embedding leaves the list as it
    is. *)
Fixpoint update {A : Type} (l : list A) (i : nat) (a : A) : list A :=
  match l, i with
  | [], _ => []
  | _ :: t, O => a :: t
  | h :: t, S j => h :: update t j a
  end.

(** Sum of a list of reals, the [Σ] of the specification. *)
Fixpoint Rsum (l : list R) : R :=
  match l with
  | [] => 0
  | a :: t => a + Rsum t
  end.

(** ** QVector3D (Qt) *)

Module QVector3D.

Record t : Type := make { x : R; y : R; z : R }.

(** [QVector3D()], the null vector. *)
Definition null : t := make 0 0 0.

Definition add (u v : t) : t := make (x u + x v) (y u + y v) (z u + z v).
Definition sub (u v : t) : t := make (x u - x v) (y u - y v) (z u - z v).
Definition neg (u : t) : t := make (- x u) (- y u) (- z u).

(** [vector * factor] and [factor * vector]. *)
Definition scale (u : t) (k : R) : t := make (x u * k) (y u * k) (z u * k).

(** [vector / divisor]. *)
Definition divide (u : t) (k : R) : t := make (x u / k) (y u / k) (z u / k).

Definition dotProduct (u v : t) : R := x u * x v + y u * y v + z u * z v.

Definition lengthSquared (u : t) : R := x u * x u + y u * y u + z u * z u.

Definition length (u : t) : R := sqrt (lengthSquared u).

(** [qFuzzyIsNull(double d)]: [qAbs(d) <= 0.000000000001]. *)
Definition qFuzzyIsNull (d : R) : bool :=
  if Rle_dec (Rabs d) 0.000000000001 then true else false.

(** [normalized()]: the vector itself when its length is very close to
    1, the null vector when it is (fuzzily) null, the vector divided by
    its length otherwise. *)
Definition normalized (u : t) : t :=
  let len := lengthSquared u in
  if qFuzzyIsNull (len - 1) then u
  else if negb (qFuzzyIsNull len) then divide u (sqrt len)
  else null.

(** [normalize()], in place: nothing happens when the vector is
    (fuzzily) null or its length is very close to 1. *)
Definition normalize (u : t) : t :=
  let len := lengthSquared u in
  if qFuzzyIsNull (len - 1) || qFuzzyIsNull len then u
  else divide u (sqrt len).

(** Sum of a list of vectors. *)
Fixpoint sum (l : list t) : t :=
  match l with
  | [] => null
  | a :: r => add a (sum r)
  end.

End QVector3D.

Definition vec : Type := QVector3D.t.
Notation "u [+] v" := (QVector3D.add u v) (at level 50, left associativity).
Notation "u [-] v" := (QVector3D.sub u v) (at level 50, left associativity).
Notation "u [*] k" := (QVector3D.scale u k) (at level 40, left associativity).
Notation "u [/] k" := (QVector3D.divide u k) (at level 40, left associativity).

(** ** Particle *)

(** Modelled from the spec: the [Particle] class ([Particle.h] is not among
    the sources); §3 lists its attributes, and [SPH.cpp] uses one getter
    and one setter per attribute. *)
Module Particle.

Record t : Type := make {
  position : vec;
  velocity : vec;
  acceleration : vec;
  mass : R;
  density : R;
  volume : R;
  pressure : R;
  cellIndex : nat
}.

(** The particle that [QVector<Particle>( nbParticles )] is filled with,
    and the value read at an index that is out of range. *)
Definition default : t :=
  make QVector3D.null QVector3D.null QVector3D.null 0 0 0 0 0.

Definition setPosition (p : t) (v : vec) : t :=
  make v (velocity p) (acceleration p) (mass p) (density p) (volume p)
       (pressure p) (cellIndex p).
Definition setVelocity (p : t) (v : vec) : t :=
  make (position p) v (acceleration p) (mass p) (density p) (volume p)
       (pressure p) (cellIndex p).
Definition setAcceleration (p : t) (v : vec) : t :=
  make (position p) (velocity p) v (mass p) (density p) (volume p)
       (pressure p) (cellIndex p).
Definition setMass (p : t) (m : R) : t :=
  make (position p) (velocity p) (acceleration p) m (density p) (volume p)
       (pressure p) (cellIndex p).
Definition setDensity (p : t) (d : R) : t :=
  make (position p) (velocity p) (acceleration p) (mass p) d (volume p)
       (pressure p) (cellIndex p).
Definition setVolume (p : t) (v : R) : t :=
  make (position p) (velocity p) (acceleration p) (mass p) (density p) v
       (pressure p) (cellIndex p).
Definition setPressure (p : t) (pr : R) : t :=
  make (position p) (velocity p) (acceleration p) (mass p) (density p)
       (volume p) pr (cellIndex p).
Definition setCellIndex (p : t) (c : nat) : t :=
  make (position p) (velocity p) (acceleration p) (mass p) (density p)
       (volume p) (pressure p) c.

End Particle.

(** ** Grid *)

(** Modelled from the spec: the [Grid] class ([Grid.h] and [Grid.cpp] are
    not among the sources).  §4.2: [cellIndex] maps a point to its cell,
    [neighborhood] lists the cell and its existing neighbours,
    [cellParticles] is the bucket of a cell, [addParticle] inserts into a
    bucket and [removeParticle] erases from it by value.  The geometry of
    the lattice ([cellIndex], [neighborhood]) is left to the instance; the
    buckets are the mutable part. *)
Module Grid.

Record t : Type := make {
  cellIndex : vec -> nat;
  neighborhood : nat -> list nat;
  cellParticles : nat -> list nat
}.

(** Erase the first occurrence of a value. *)
Fixpoint removeOne (i : nat) (l : list nat) : list nat :=
  match l with
  | [] => []
  | k :: r => if Nat.eqb k i then r else k :: removeOne i r
  end.

Definition addParticle (g : t) (cell i : nat) : t :=
  make (cellIndex g) (neighborhood g)
       (fun c => if Nat.eqb c cell then cellParticles g c ++ [i]
                 else cellParticles g c).

Definition removeParticle (g : t) (cell i : nat) : t :=
  make (cellIndex g) (neighborhood g)
       (fun c => if Nat.eqb c cell then removeOne i (cellParticles g c)
                 else cellParticles g c).

End Grid.

(** ** Geometry, Ray, Intersection *)

(** The container is an abstract [Geometry]; the integrator uses its
    [intersect( ray, intersection )], which answers whether the ray hits
    the surface and, if so, fills the intersection record, and the
    constructor uses [randomInteriorPoint()], here the point returned by
    the [k]-th call. *)
Module Geometry.

Record Ray : Type := mkRay { origin : vec; direction : vec }.

Record Intersection : Type := mkIntersection {
  position : vec;
  normal : vec;
  rayParameterT : R
}.

Record t : Type := make {
  intersect : Ray -> option Intersection;
  randomInteriorPoint : nat -> vec
}.

End Geometry.

(** ** BoundingBox *)

(** Modelled from the spec: the axis-aligned [BoundingBox] class (not among
    the sources), as [SPH.cpp] uses it: built from two corners, which
    [minimum()] and [maximum()] return. *)
Module BoundingBox.

Record t : Type := make { minimum : vec; maximum : vec }.

End BoundingBox.

(** ** SPH *)

Module SPH.

Record t : Type := make {
  _container : Geometry.t;
  _coeffPoly6 : R;
  _coeffSpiky : R;
  _coeffVisc : R;
  _restDensity : R;
  _smoothingRadius : R;
  _smoothingRadius2 : R;
  _viscosity : R;
  _pressure : R;
  _surfaceTension : R;
  _maxDeltaTime : R;
  _gravity : vec;
  _particles : list Particle.t;
  _grid : Grid.t;
  (** [localTransformation().inverted().mapVector], of the base class
      [AbstractObject]. *)
  localInverted : vec -> vec
}.

Definition M_PI : R := PI.

Definition setParticles (s : t) (ps : list Particle.t) : t :=
  make (_container s) (_coeffPoly6 s) (_coeffSpiky s) (_coeffVisc s)
       (_restDensity s) (_smoothingRadius s) (_smoothingRadius2 s)
       (_viscosity s) (_pressure s) (_surfaceTension s) (_maxDeltaTime s)
       (_gravity s) ps (_grid s) (localInverted s).

Definition setGrid (s : t) (g : Grid.t) : t :=
  make (_container s) (_coeffPoly6 s) (_coeffSpiky s) (_coeffVisc s)
       (_restDensity s) (_smoothingRadius s) (_smoothingRadius2 s)
       (_viscosity s) (_pressure s) (_surfaceTension s) (_maxDeltaTime s)
       (_gravity s) (_particles s) g (localInverted s).

(** [_particles[i]], read. *)
Definition particle (s : t) (i : nat) : Particle.t :=
  nth i (_particles s) Particle.default.

(** [_particles[i]], written. *)
Definition setParticle (s : t) (i : nat) (p : Particle.t) : t :=
  setParticles s (update (_particles s) i p).

(** *** initializeCoefficients *)

Definition initializeCoefficients (s : t) : t :=
  let h6 := _smoothingRadius2 s * _smoothingRadius2 s * _smoothingRadius2 s in
  let h9 := h6 * _smoothingRadius2 s * _smoothingRadius s in
  make (_container s)
       (315.0 / (64.0 * M_PI * h9))
       (3.0 * 15.0 / (M_PI * h6))
       (45.0 / (M_PI * h6))
       (_restDensity s) (_smoothingRadius s) (_smoothingRadius2 s)
       (_viscosity s) (_pressure s) (_surfaceTension s) (_maxDeltaTime s)
       (_gravity s) (_particles s) (_grid s) (localInverted s).

(** *** initializeParticles *)

Definition initializeParticle (mass : R) (s : t) (i : nat) : t :=
  let p := particle s i in
  let p := Particle.setMass p mass in
  let p := Particle.setDensity p (_restDensity s) in
  let p := Particle.setVolume p (mass / _restDensity s) in
  let p := Particle.setPosition p
             (Geometry.randomInteriorPoint (_container s) i) in
  let p := Particle.setCellIndex p
             (Grid.cellIndex (_grid s) (Particle.position p)) in
  let s := setParticle s i p in
  setGrid s (Grid.addParticle (_grid s) (Particle.cellIndex (particle s i)) i).

Definition initializeParticles (s : t) (totalVolume : R) : t :=
  let totalMass := totalVolume * _restDensity s in
  let mass := totalMass / INR (length (_particles s)) in
  fold_left (initializeParticle mass) (seq 0 (length (_particles s))) s.

(** *** The constructor

    [grid] is the [Grid] built from the inflated bounding box of the
    container and the cell counts. *)
Definition construct (container : Geometry.t)
    (smoothingRadius viscosity pressure surfaceTension : R)
    (grid : Grid.t) (nbParticles : nat)
    (restDensity totalVolume maxDTime : R) (gravity : vec)
    (localInv : vec -> vec) : t :=
  let s := make container 0 0 0 restDensity smoothingRadius
                (smoothingRadius * smoothingRadius)
                viscosity pressure surfaceTension maxDTime gravity
                (repeat Particle.default nbParticles) grid localInv in
  initializeParticles (initializeCoefficients s) totalVolume.

(** *** Kernels *)

Definition densityKernel (s : t) (r2 : R) : R :=
  let diff := _smoothingRadius2 s - r2 in
  _coeffPoly6 s * diff * diff * diff.

Definition densitykernelGradient (s : t) (r2 : R) : R :=
  let diff := _smoothingRadius2 s - r2 in
  -3 * _coeffPoly6 s * diff * diff.

Definition pressureKernel (s : t) (r : R) : R :=
  if Req_dec_T r 0 then 0
  else
    let diff := _smoothingRadius s - r in
    _coeffSpiky s * diff * diff / r.

Definition viscosityKernel (s : t) (r : R) : R :=
  _coeffVisc s * (_smoothingRadius s - r).

Definition pressure (s : t) (density : R) : R :=
  density / _restDensity s - 1.

(** *** computeDensities *)

(** The body of the loop over [k]: the contribution of the particle of
    index [neighbors[k] = n] to the running sums [density] and
    [correction] of [particle]. *)
Definition densityContribution (s : t) (particle : Particle.t)
    (acc : R * R) (n : nat) : R * R :=
  let '(density, correction) := acc in
  let neighbor := SPH.particle s n in
  let difference := Particle.position particle [-] Particle.position neighbor in
  let r2 := QVector3D.lengthSquared difference in
  if Rlt_dec r2 (_smoothingRadius2 s) then
    let kernelMass := densityKernel s r2 * Particle.mass neighbor in
    (density + kernelMass, correction + kernelMass / Particle.density neighbor)
  else acc.

(** The two nested loops, over the cells of the neighbourhood and over
    the particles of each cell. *)
Definition densitySums (s : t) (i : nat) : R * R :=
  let particle := SPH.particle s i in
  let neighborhood :=
    Grid.neighborhood (_grid s) (Particle.cellIndex particle) in
  fold_left
    (fun acc cell =>
       fold_left (densityContribution s particle)
                 (Grid.cellParticles (_grid s) cell) acc)
    neighborhood (0, 0).

(** One iteration of the loop over [i]. *)
Definition computeDensity (s : t) (i : nat) : t :=
  let particle := SPH.particle s i in
  let '(density, correction) := densitySums s i in
  let particle := Particle.setDensity particle (density / correction) in
  let particle :=
    Particle.setVolume particle
      (Particle.mass particle / Particle.density particle) in
  let particle := Particle.setPressure particle (pressure s density) in
  setParticle s i particle.

Definition computeDensities (s : t) : t :=
  fold_left computeDensity (seq 0 (length (_particles s))) s.

(** *** computeForces *)

(** The running values of the inner loops: [pressureForce],
    [viscosityForce], [tensionForce] and [correction]. *)
Record Forces : Type := mkForces {
  pressureForce : vec;
  viscosityForce : vec;
  tensionForce : vec;
  correction : R
}.

Definition forceContribution (s : t) (particle : Particle.t)
    (acc : Forces) (n : nat) : Forces :=
  let neighbor := SPH.particle s n in
  let difference := Particle.position particle [-] Particle.position neighbor in
  let r2 := QVector3D.lengthSquared difference in
  if Rlt_dec r2 (_smoothingRadius2 s) then
    let r := sqrt r2 in
    let volume := Particle.volume neighbor in
    let meanPressure :=
      (Particle.pressure neighbor + Particle.pressure particle) * 0.5 in
    let pressureForce :=
      pressureForce acc
      [-] difference [*] (pressureKernel s r * meanPressure * volume) in
    let viscosityForce :=
      viscosityForce acc
      [+] (Particle.velocity neighbor [-] Particle.velocity particle)
          [*] (viscosityKernel s r * volume) in
    let kernelRR := densityKernel s r2 in
    let tensionForce := tensionForce acc [+] difference [*] kernelRR in
    let correction := correction acc + kernelRR * volume in
    mkForces pressureForce viscosityForce tensionForce correction
  else acc.

Definition forceSums (s : t) (i : nat) : Forces :=
  let particle := SPH.particle s i in
  let neighborhood :=
    Grid.neighborhood (_grid s) (Particle.cellIndex particle) in
  fold_left
    (fun acc cell =>
       fold_left (forceContribution s particle)
                 (Grid.cellParticles (_grid s) cell) acc)
    neighborhood
    (mkForces QVector3D.null QVector3D.null QVector3D.null 0).

(** One iteration of the loop over [i]; [gravity] is the gravity vector
    in the local frame, computed once before the loop. *)
Definition computeForce (gravity : vec) (s : t) (i : nat) : t :=
  let particle := SPH.particle s i in
  let f := forceSums s i in
  let pressureForce := pressureForce f [*] (_pressure s / correction f) in
  let viscosityForce := viscosityForce f [*] (_viscosity s / correction f) in
  let tensionForce := tensionForce f [*] (_surfaceTension s / correction f) in
  setParticle s i
    (Particle.setAcceleration particle
       ((viscosityForce [-] pressureForce [-] tensionForce)
          [/] Particle.density particle [+] gravity)).

Definition computeForces (s : t) : t :=
  let gravity := localInverted s (_gravity s) in
  fold_left (computeForce gravity) (seq 0 (length (_particles s))) s.

(** *** computeDensities under [#pragma omp parallel for]

    The iterations of the loop run concurrently.  An iteration reads the
    position, the mass and the density of one neighbour at a time, and
    at its end writes the density, the volume and the pressure of its own
    particle, of which other iterations read the density only.  An
    iteration is therefore a sequence of atomic actions, one per
    neighbour visited and one for its writes; a run of the loop is an
    interleaving of the actions of its iterations.  (A read or a write of
    a [float] is taken to be atomic.) *)







(** *** The divisions of the two solvers, checked

    [quotient a b] is [a / b] where the code divides numbers; it has no
    value when the divisor is zero, where the [float] division gives an
    infinity or NaN. *)
Definition quotient (a b : R) : option R :=
  if Req_dec_T b 0 then None else Some (a / b).

(** One iteration of the density solver, with its two final divisions
    checked: [density / correction] and [mass / density]. *)
Definition computeDensityChecked (s : t) (i : nat) : option t :=
  let particle := SPH.particle s i in
  let '(density, correction) := densitySums s i in
  match quotient density correction with
  | None => None
  | Some corrected =>
    let particle := Particle.setDensity particle corrected in
    match quotient (Particle.mass particle) (Particle.density particle) with
    | None => None
    | Some volume =>
      let particle := Particle.setVolume particle volume in
      let particle := Particle.setPressure particle (pressure s density) in
      Some (setParticle s i particle)
    end
  end.

Definition computeDensitiesChecked (s : t) : option t :=
  fold_left
    (fun (os : option t) (i : nat) =>
       match os with
       | Some s => computeDensityChecked s i
       | None => None
       end)
    (seq 0 (length (_particles s))) (Some s).

(** One iteration of the force solver, with its final divisions checked:
    the three by [correction] and the one by the density. *)
Definition computeForceChecked (gravity : vec) (s : t) (i : nat) : option t :=
  let particle := SPH.particle s i in
  let f := forceSums s i in
  match quotient (_pressure s) (correction f),
        quotient (_viscosity s) (correction f),
        quotient (_surfaceTension s) (correction f) with
  | Some pressureScale, Some viscosityScale, Some tensionScale =>
    let pressureForce := pressureForce f [*] pressureScale in
    let viscosityForce := viscosityForce f [*] viscosityScale in
    let tensionForce := tensionForce f [*] tensionScale in
    if Req_dec_T (Particle.density particle) 0 then None
    else
      Some (setParticle s i
              (Particle.setAcceleration particle
                 ((viscosityForce [-] pressureForce [-] tensionForce)
                    [/] Particle.density particle [+] gravity)))
  | _, _, _ => None
  end.

Definition computeForcesChecked (s : t) : option t :=
  let gravity := localInverted s (_gravity s) in
  fold_left
    (fun (os : option t) (i : nat) =>
       match os with
       | Some s => computeForceChecked gravity s i
       | None => None
       end)
    (seq 0 (length (_particles s))) (Some s).

(** *** moveParticles *)

Definition bias : R := 0.0005.

(** The [while (true)] loop of one particle.  The source has no bound on
    the number of iterations: [fuel] is the number of iterations the
    embedding is allowed to run, and [None] means that they did not
    suffice to reach the [break].  On exit the result is the committed
    position and velocity. *)
Fixpoint collisionLoop (container : Geometry.t) (fuel : nat)
    (position newPosition movement movementLeft velocity : vec)
    : option (vec * vec) :=
  match fuel with
  | O => None
  | S fuel' =>
    let direction := QVector3D.normalized movement in
    let ray := Geometry.mkRay position direction in
    match Geometry.intersect container ray with
    | Some intersection =>
      if Rlt_dec
           (QVector3D.length
              (direction [*] Geometry.rayParameterT intersection))
           (QVector3D.length movementLeft)
      then
        let normal := Geometry.normal intersection in
        let position := Geometry.position intersection in
        let movementLeft := newPosition [-] position in
        let movement :=
          movementLeft
          [-] normal [*] QVector3D.dotProduct movementLeft normal in
        let position := position [-] normal [*] bias in
        let newPosition := position [+] movement in
        let velocity :=
          velocity [-] normal [*] QVector3D.dotProduct velocity normal in
        collisionLoop container fuel' position newPosition movement
                      movementLeft velocity
      else Some (position [+] movement, velocity)
    | None => Some (position [+] movement, velocity)
    end
  end.

(** One iteration of the loop over [i]. *)
Definition moveParticle (fuel : nat) (deltaTime : R) (s : t) (i : nat)
    : option t :=
  let velocity :=
    Particle.velocity (particle s i)
    [+] Particle.acceleration (particle s i) [*] deltaTime in
  let position := Particle.position (particle s i) in
  let newPosition :=
    Particle.position (particle s i) [+] velocity [*] deltaTime in
  let movement := newPosition [-] position in
  let movementLeft := movement in
  match collisionLoop (_container s) fuel position newPosition movement
                      movementLeft velocity with
  | None => None
  | Some (position, velocity) =>
    let s :=
      setParticle s i
        (Particle.setVelocity
           (Particle.setPosition (particle s i) position) velocity) in
    let oldCellIndex := Particle.cellIndex (particle s i) in
    let newCellIndex := Grid.cellIndex (_grid s) position in
    if Nat.eqb oldCellIndex newCellIndex then Some s
    else
      let s :=
        setParticle s i (Particle.setCellIndex (particle s i) newCellIndex) in
      let s := setGrid s (Grid.removeParticle (_grid s) oldCellIndex i) in
      Some (setGrid s (Grid.addParticle (_grid s) newCellIndex i))
  end.

Definition moveParticles (fuel : nat) (deltaTime : R) (s : t) : option t :=
  fold_left
    (fun (os : option t) (i : nat) =>
       match os with
       | Some s => moveParticle fuel deltaTime s i
       | None => None
       end)
    (seq 0 (length (_particles s))) (Some s).

(** *** animate

    [timeDelta] is [timeState.deltaTime()]. *)
Definition animate (fuel : nat) (s : t) (timeDelta : R) : option t :=
  let deltaTime :=
    if Rgt_dec timeDelta (_maxDeltaTime s) then _maxDeltaTime s
    else timeDelta in
  let s := computeDensities s in
  let s := computeForces s in
  moveParticles fuel deltaTime s.

(** *** surfaceInfo *)

(** The running values of the inner loops: [density] and the three
    components of the gradient. *)
Record Surface : Type := mkSurface {
  surfaceDensity : R;
  densityKernelGradientX : R;
  densityKernelGradientY : R;
  densityKernelGradientZ : R
}.

Definition surfaceContribution (s : t) (position : vec)
    (acc : Surface) (n : nat) : Surface :=
  let neighbor := SPH.particle s n in
  let difference := position [-] Particle.position neighbor in
  let r2 := QVector3D.lengthSquared difference in
  if Rlt_dec r2 (_smoothingRadius2 s) then
    mkSurface
      (surfaceDensity acc + densityKernel s r2 * Particle.mass neighbor)
      (densityKernelGradientX acc
       + (2 * (QVector3D.x position - QVector3D.x (Particle.position neighbor)))
         * densitykernelGradient s r2 * Particle.mass neighbor)
      (densityKernelGradientY acc
       + (2 * (QVector3D.y position - QVector3D.y (Particle.position neighbor)))
         * densitykernelGradient s r2 * Particle.mass neighbor)
      (densityKernelGradientZ acc
       + (2 * (QVector3D.z position - QVector3D.z (Particle.position neighbor)))
         * densitykernelGradient s r2 * Particle.mass neighbor)
  else acc.

Definition surfaceSums (s : t) (position : vec) : Surface :=
  let neighborhood :=
    Grid.neighborhood (_grid s) (Grid.cellIndex (_grid s) position) in
  fold_left
    (fun acc cell =>
       fold_left (surfaceContribution s position)
                 (Grid.cellParticles (_grid s) cell) acc)
    neighborhood (mkSurface 0 0 0 0).

(** The two results are the out-parameters [value] and [normal]. *)
Definition surfaceInfo (s : t) (position : vec) : R * vec :=
  let f := surfaceSums s position in
  let normal :=
    QVector3D.make (densityKernelGradientX f / _restDensity s)
                   (densityKernelGradientY f / _restDensity s)
                   (densityKernelGradientZ f / _restDensity s) in
  let normal := QVector3D.normalize normal in
  let normal := QVector3D.neg normal in
  let a := 0.3 in
  let value := surfaceDensity f / _restDensity s - (1 - a) in
  (value, normal).

(** *** resetVelocities *)

Definition resetVelocities (s : t) : t :=
  fold_left
    (fun s i =>
       setParticle s i (Particle.setVelocity (particle s i) QVector3D.null))
    (seq 0 (length (_particles s))) s.

(** *** inflatedContainerBoundingBox

    [boundingBox] is [_container.boundingBox()]. *)
Definition inflatedContainerBoundingBox (boundingBox : BoundingBox.t)
    : BoundingBox.t :=
  let center :=
    (BoundingBox.minimum boundingBox [+] BoundingBox.maximum boundingBox)
    [*] 0.5 in
  BoundingBox.make
    ((BoundingBox.minimum boundingBox [-] center) [*] 1.2 [+] center)
    ((BoundingBox.maximum boundingBox [-] center) [*] 1.2 [+] center).

End SPH.

(** ** The sums of the specification

    The specification speaks of sums over "the neighbours within
    [r² < h²]".  These definitions follow its words; the theorems below
    compare them with the loops of [SPH.cpp]. *)

Module Spec.

(** [r²] between a point and the particle of index [n]. *)
Definition distance2 (s : SPH.t) (position : vec) (n : nat) : R :=
  QVector3D.lengthSquared
    (position [-] Particle.position (SPH.particle s n)).

(** The test [r2 < _smoothingRadius2]. *)
Definition near (s : SPH.t) (position : vec) (n : nat) : bool :=
  if Rlt_dec (distance2 s position n) (SPH._smoothingRadius2 s)
  then true else false.

(** The particles bucketed in the cells of the neighbourhood of [cell], in
    the order in which the two nested loops visit them. *)
Definition candidates (s : SPH.t) (cell : nat) : list nat :=
  flat_map (Grid.cellParticles (SPH._grid s))
           (Grid.neighborhood (SPH._grid s) cell).

(** The neighbours of a point that lies in [cell]: the candidates within
    the smoothing radius. *)
Definition neighbors (s : SPH.t) (position : vec) (cell : nat) : list nat :=
  filter (near s position) (candidates s cell).

(** The neighbours of the particle [i]. *)
Definition neighborsOf (s : SPH.t) (i : nat) : list nat :=
  neighbors s (Particle.position (SPH.particle s i))
            (Particle.cellIndex (SPH.particle s i)).

(** All the particles within the smoothing radius of a point. *)
Definition withinRadius (s : SPH.t) (position : vec) : list nat :=
  filter (near s position) (seq 0 (length (SPH._particles s))).

(** [r²] between the particles [i] and [n]. *)
Definition r2 (s : SPH.t) (i n : nat) : R :=
  distance2 s (Particle.position (SPH.particle s i)) n.

(** [particle.position() - neighbor.position()]. *)
Definition difference (s : SPH.t) (i n : nat) : vec :=
  Particle.position (SPH.particle s i) [-] Particle.position (SPH.particle s n).

(** Density solver: [rawSum = Σ W(r²)·mass_j]. *)
Definition rawSum (s : SPH.t) (i : nat) : R :=
  Rsum (map (fun n => SPH.densityKernel s (r2 s i n)
                      * Particle.mass (SPH.particle s n))
            (neighborsOf s i)).

(** Density solver: [correctionSum = Σ W(r²)·mass_j/density_j], with the
    densities stored in [s]. *)
Definition correctionSum (s : SPH.t) (i : nat) : R :=
  Rsum (map (fun n => SPH.densityKernel s (r2 s i n)
                      * Particle.mass (SPH.particle s n)
                      / Particle.density (SPH.particle s n))
            (neighborsOf s i)).

(** The state of the density solver when its loop reaches the particle
    [i]: the particles [0 .. i-1] have been processed. *)
Definition stateBefore (s : SPH.t) (i : nat) : SPH.t :=
  fold_left SPH.computeDensity (seq 0 i) s.



(** Force solver: [Σ difference·(pressureKernel(r)·meanPressure·neighborVolume)]. *)
Definition pressureSum (s : SPH.t) (i : nat) : vec :=
  QVector3D.sum
    (map (fun n =>
            difference s i n
            [*] (SPH.pressureKernel s (sqrt (r2 s i n))
                 * ((Particle.pressure (SPH.particle s n)
                     + Particle.pressure (SPH.particle s i)) * 0.5)
                 * Particle.volume (SPH.particle s n)))
         (neighborsOf s i)).

(** Force solver:
    [Σ (neighborVelocity − ownVelocity)·(viscosityKernel(r)·neighborVolume)]. *)
Definition viscositySum (s : SPH.t) (i : nat) : vec :=
  QVector3D.sum
    (map (fun n =>
            (Particle.velocity (SPH.particle s n)
             [-] Particle.velocity (SPH.particle s i))
            [*] (SPH.viscosityKernel s (sqrt (r2 s i n))
                 * Particle.volume (SPH.particle s n)))
         (neighborsOf s i)).

(** Force solver: [Σ difference·densityKernel(r²)]. *)
Definition tensionSum (s : SPH.t) (i : nat) : vec :=
  QVector3D.sum
    (map (fun n => difference s i n [*] SPH.densityKernel s (r2 s i n))
         (neighborsOf s i)).

(** Force solver: the correction sum [Σ densityKernel(r²)·neighborVolume]. *)
Definition forceCorrection (s : SPH.t) (i : nat) : R :=
  Rsum (map (fun n => SPH.densityKernel s (r2 s i n)
                      * Particle.volume (SPH.particle s n))
            (neighborsOf s i)).

(** Integrator: the velocity of the particle [i] after its update from the
    acceleration, [velocity' = velocity + Δt·acceleration]. *)
Definition newVelocity (s : SPH.t) (i : nat) (deltaTime : R) : vec :=
  Particle.velocity (SPH.particle s i)
  [+] Particle.acceleration (SPH.particle s i) [*] deltaTime.

(** Integrator: the tentative new position, [position + Δt·velocity']. *)
Definition newPosition (s : SPH.t) (i : nat) (deltaTime : R) : vec :=
  Particle.position (SPH.particle s i) [+] newVelocity s i deltaTime [*] deltaTime.

(** Integrator: the tentative displacement, with which [movement] and
    [movementLeft] enter the collision loop. *)
Definition displacement (s : SPH.t) (i : nat) (deltaTime : R) : vec :=
  newPosition s i deltaTime [-] Particle.position (SPH.particle s i).

(** Integrator: the collision loop of the particle [i]. *)
Definition particleLoop (fuel : nat) (deltaTime : R) (s : SPH.t) (i : nat)
    : option (vec * vec) :=
  SPH.collisionLoop (SPH._container s) fuel
    (Particle.position (SPH.particle s i)) (newPosition s i deltaTime)
    (displacement s i deltaTime) (displacement s i deltaTime)
    (newVelocity s i deltaTime).

(** Surface evaluator: the kernel-weighted mass sum at a query point. *)
Definition fieldDensity (s : SPH.t) (position : vec) : R :=
  Rsum (map (fun n => SPH.densityKernel s (distance2 s position n)
                      * Particle.mass (SPH.particle s n))
            (neighbors s position (Grid.cellIndex (SPH._grid s) position))).

(** Surface evaluator: the gradient, per axis the sum of
    [2·(position − neighborPosition)·densityKernelGradient(r²)·mass]. *)
Definition fieldGradient (s : SPH.t) (position : vec) : vec :=
  QVector3D.sum
    (map (fun n =>
            (position [-] Particle.position (SPH.particle s n))
            [*] (2 * SPH.densitykernelGradient s (distance2 s position n)
                 * Particle.mass (SPH.particle s n)))
         (neighbors s position (Grid.cellIndex (SPH._grid s) position))).

(** Surface evaluator: the normalization of a vector as §4.6 has it, the
    vector scaled to the length 1, with the zero vector as the fallback
    for a vector without length. *)
Definition normalization (v : vec) : vec :=
  if Req_dec_T (QVector3D.lengthSquared v) 0 then QVector3D.null
  else v [/] QVector3D.length v.

(** The mass of the fluid: the sum of the masses of the particles. *)
Definition totalMass (s : SPH.t) : R :=
  Rsum (map Particle.mass (SPH._particles s)).

End Spec.

(** ** Frame conditions and invariants *)

Module Inv.

(** [s'] has the configuration of [s]: the two differ in the particles and
    in the grid at most. *)
Definition sameConfiguration (s s' : SPH.t) : Prop :=
  SPH.setGrid (SPH.setParticles s' (SPH._particles s)) (SPH._grid s) = s.

(** [s'] has the configuration and the grid of [s], and its particles have
    the positions, masses, cells, velocities and accelerations of those of
    [s]: what the density solver leaves untouched. *)
Definition sameGeometry (s s' : SPH.t) : Prop :=
  SPH.setParticles s' (SPH._particles s) = s
  /\ length (SPH._particles s') = length (SPH._particles s)
  /\ forall n,
      Particle.position (SPH.particle s' n) = Particle.position (SPH.particle s n)
      /\ Particle.mass (SPH.particle s' n) = Particle.mass (SPH.particle s n)
      /\ Particle.cellIndex (SPH.particle s' n)
         = Particle.cellIndex (SPH.particle s n)
      /\ Particle.velocity (SPH.particle s' n)
         = Particle.velocity (SPH.particle s n)
      /\ Particle.acceleration (SPH.particle s' n)
         = Particle.acceleration (SPH.particle s n).

(** The state with every acceleration reset: all that the force solver
    reads. *)
Definition eraseAcceleration (s : SPH.t) : SPH.t :=
  SPH.setParticles s
    (map (fun p => Particle.setAcceleration p QVector3D.null)
         (SPH._particles s)).

(** The states on which the divisions of the two solvers are not
    degenerate: a positive squared smoothing radius and kernel coefficient,
    positive masses and stored densities, buckets that hold indices of
    particles, and every particle bucketed in its own neighbourhood. *)
Definition wellFormed (s : SPH.t) : Prop :=
  0 < SPH._smoothingRadius2 s
  /\ 0 < SPH._coeffPoly6 s
  /\ (forall n, (n < length (SPH._particles s))%nat ->
        0 < Particle.mass (SPH.particle s n)
        /\ 0 < Particle.density (SPH.particle s n))
  /\ (forall i n, (i < length (SPH._particles s))%nat ->
        In n (Spec.candidates s (Particle.cellIndex (SPH.particle s i))) ->
        (n < length (SPH._particles s))%nat)
  /\ (forall i, (i < length (SPH._particles s))%nat ->
        In i (Spec.candidates s (Particle.cellIndex (SPH.particle s i)))).

(** The container reports no hit nearer than the remaining displacement
    [movementLeft] for the ray cast from [position] along [movement]: the
    condition under which the collision loop takes its [else] branch. *)
Definition noNearHit (container : Geometry.t)
    (position movement movementLeft : vec) : Prop :=
  match Geometry.intersect container
          (Geometry.mkRay position (QVector3D.normalized movement)) with
  | None => True
  | Some intersection =>
    ~ QVector3D.length
        (QVector3D.normalized movement [*] Geometry.rayParameterT intersection)
      < QVector3D.length movementLeft
  end.

(** Grid consistency: the stored cell index of every particle is the cell
    of its position, its index occurs once in the bucket of that cell and
    in no other bucket. *)
Definition gridConsistent (s : SPH.t) : Prop :=
  forall i, (i < length (SPH._particles s))%nat ->
    Particle.cellIndex (SPH.particle s i)
    = Grid.cellIndex (SPH._grid s) (Particle.position (SPH.particle s i))
    /\ forall cell,
        count_occ Nat.eq_dec (Grid.cellParticles (SPH._grid s) cell) i
        = if Nat.eqb cell (Particle.cellIndex (SPH.particle s i))
          then 1%nat else 0%nat.

(** The buckets hold indices of particles. *)
Definition bucketsValid (s : SPH.t) : Prop :=
  forall cell n,
    In n (Grid.cellParticles (SPH._grid s) cell) ->
    (n < length (SPH._particles s))%nat.

(** The neighbourhood of the cell of a point lists distinct cells, among
    them the cell of every particle within the smoothing radius of the
    point: what the grid gives when its cells are at least as wide as the
    radius (§4.2). *)
Definition adequate (s : SPH.t) : Prop :=
  (forall cell, NoDup (Grid.neighborhood (SPH._grid s) cell))
  /\ forall position n,
      (n < length (SPH._particles s))%nat ->
      Spec.near s position n = true ->
      In (Grid.cellIndex (SPH._grid s) (Particle.position (SPH.particle s n)))
         (Grid.neighborhood (SPH._grid s)
            (Grid.cellIndex (SPH._grid s) position)).

(** The states of a simulation: the constructed system and what the
    completed calls of [animate] make of it. *)
Inductive reachable (s0 : SPH.t) : SPH.t -> Prop :=
| reachable_constructed : reachable s0 s0
| reachable_animate (s s' : SPH.t) (fuel : nat) (timeDelta : R) :
    reachable s0 s -> SPH.animate fuel s timeDelta = Some s' ->
    reachable s0 s'.

(** Every stored density is [rho]. *)
Definition uniformDensity (s : SPH.t) (rho : R) : Prop :=
  forall n, (n < length (SPH._particles s))%nat ->
    Particle.density (SPH.particle s n) = rho.

(** The container reports no hit, whatever the ray. *)
Definition noSurface (container : Geometry.t) : Prop :=
  forall ray, Geometry.intersect container ray = None.

(** The normals that the container reports are unit vectors. *)
Definition unitNormals (container : Geometry.t) : Prop :=
  forall ray hit,
    Geometry.intersect container ray = Some hit ->
    QVector3D.dotProduct (Geometry.normal hit) (Geometry.normal hit) = 1.


(** The same fluid seen from a frame that moves with the velocity [- u]:
    every particle has the velocity [u] added. *)
Definition boost (s : SPH.t) (u : vec) : SPH.t :=
  SPH.setParticles s
    (map (fun p => Particle.setVelocity p (Particle.velocity p [+] u))
         (SPH._particles s)).

(** The weight with which the particle [n] pushes the surface normal at
    [position] away from itself. *)
Definition normalWeight (s : SPH.t) (position : vec) (n : nat) : R :=
  6 * SPH._coeffPoly6 s
  * (SPH._smoothingRadius2 s - Spec.distance2 s position n)
  * (SPH._smoothingRadius2 s - Spec.distance2 s position n)
  * Particle.mass (SPH.particle s n) / SPH._restDensity s.

(** The cell of a point is listed in its own neighbourhood. *)
Definition ownCellListed (g : Grid.t) : Prop :=
  forall position,
    In (Grid.cellIndex g position)
       (Grid.neighborhood g (Grid.cellIndex g position)).

(** The states of a fluid that was seeded at its rest density: a consistent
    grid whose buckets hold particles, positive parameters and masses, and
    the rest density stored for every particle. *)
Definition atRest (s : SPH.t) : Prop :=
  gridConsistent s /\ bucketsValid s /\ ownCellListed (SPH._grid s)
  /\ 0 < SPH._smoothingRadius2 s /\ 0 < SPH._coeffPoly6 s
  /\ 0 < SPH._restDensity s
  /\ (forall n, (n < length (SPH._particles s))%nat ->
        0 < Particle.mass (SPH.particle s n))
  /\ uniformDensity s (SPH._restDensity s).

End Inv.

(** ** Example systems *)

Module Example.

(** A grid of one cell, with empty buckets. *)
Definition oneCell : Grid.t :=
  Grid.make (fun _ => 0%nat) (fun _ => [0%nat]) (fun _ => []).

(** A grid of two cells stacked along [y], with empty buckets: cell [1]
    below [y = -0.0005], cell [0] above. *)
Definition twoCells : Grid.t :=
  Grid.make
    (fun p => if Rlt_dec (QVector3D.y p) (-0.0005) then 1%nat else 0%nat)
    (fun _ => [0%nat; 1%nat]) (fun _ => []).

(** A container whose surface no ray meets; its random interior point is
    the origin. *)
Definition openContainer : Geometry.t :=
  Geometry.make (fun _ => None) (fun _ => QVector3D.null).

Definition gravity : vec := QVector3D.make 0 (-9.8) 0.

(** One particle at rest at the origin: smoothing radius 1, rest density 1,
    total volume 1, [maxDTime] 1, no transformation. *)
Definition single : SPH.t :=
  SPH.construct openContainer 1 1 1 1 twoCells 1 1 1 1 gravity (fun v => v).

(** The same system with a smoothing radius of 0 and a rest density of
    1000. *)
Definition isolated : SPH.t :=
  SPH.construct openContainer 0 1 1 1 oneCell 1 1000 1 1 gravity (fun v => v).

(** A system without particles. *)
Definition emptyFluid : SPH.t :=
  SPH.construct openContainer 1 1 1 1 oneCell 0 1000 1 1 gravity (fun v => v).

(** Two particles of mass 1 in one cell, at distance 0.5, with stored
    densities 1 and 2; smoothing radius 1. *)
Definition pair : SPH.t :=
  SPH.initializeCoefficients
    (SPH.make openContainer 0 0 0 1 1 (1 * 1) 1 1 1 1 gravity
       [Particle.make QVector3D.null QVector3D.null QVector3D.null 1 1 1 0 0;
        Particle.make (QVector3D.make 0.5 0 0) QVector3D.null QVector3D.null
                      1 2 0.5 0 0]
       (Grid.addParticle (Grid.addParticle oneCell 0 0) 0 1) (fun v => v)).

(** A container that answers every ray with a grazing hit at the origin of
    the ray: parameter 0, normal [(0, 1, 0)]. *)
Definition grazing : Geometry.t :=
  Geometry.make
    (fun ray =>
       Some (Geometry.mkIntersection (Geometry.origin ray)
                                     (QVector3D.make 0 1 0) 0))
    (fun _ => QVector3D.null).

(** One particle at the origin that moves along [x] in [grazing]. *)
Definition slider : SPH.t :=
  SPH.make grazing 0 0 0 1 1 1 1 1 1 1 QVector3D.null
    [Particle.make QVector3D.null (QVector3D.make 1 0 0) QVector3D.null
                   1 1 1 0 0]
    (Grid.addParticle oneCell 0 0) (fun v => v).

(** A half-space container [n·x < d], bounded by the plane [n·x = d] of
    outward normal [n]: a ray misses the plane when it is parallel to it
    (or has no direction) and when the plane is behind its origin. *)
Definition halfSpace (n : vec) (d : R) : Geometry.t :=
  Geometry.make
    (fun ray =>
       let denominator := QVector3D.dotProduct n (Geometry.direction ray) in
       if Req_dec_T denominator 0 then None
       else
         let t := (d - QVector3D.dotProduct n (Geometry.origin ray))
                  / denominator in
         if Rlt_dec t 0 then None
         else Some (Geometry.mkIntersection
                      (Geometry.origin ray [+] Geometry.direction ray [*] t)
                      n t))
    (fun _ => QVector3D.null).

(** One particle at the origin that falls on the floor [y = -0.5]. *)
Definition faller : SPH.t :=
  SPH.make (halfSpace (QVector3D.make 0 (-1) 0) 0.5) 0 0 0 1 1 1 1 1 1 1
    QVector3D.null
    [Particle.make QVector3D.null (QVector3D.make 0 (-1) 0) QVector3D.null
                   1 1 1 0 0]
    (Grid.addParticle oneCell 0 0) (fun v => v).



End Example.

Import Inv.

(** * Lists and loops *)

Lemma update_length {A : Type} (l : list A) (i : nat) (a : A) :
  length (update l i a) = length l.
Proof.
  revert i; induction l as [|h t IH]; intros [|j]; simpl; auto.
Qed.

Lemma nth_update_eq {A : Type} (l : list A) (i : nat) (a d : A) :
  (i < length l)%nat -> nth i (update l i a) d = a.
Proof.
  revert i; induction l as [|h t IH]; intros [|j] Hi; simpl in *; try lia; auto.
  apply IH; lia.
Qed.

Lemma nth_update_neq {A : Type} (l : list A) (i j : nat) (a d : A) :
  i <> j -> nth j (update l i a) d = nth j l d.
Proof.
  revert i j; induction l as [|h t IH]; intros [|i] [|j] Hij; simpl; auto; try lia.
Qed.

Lemma update_update {A : Type} (l : list A) (i : nat) (a b : A) :
  update (update l i a) i b = update l i b.
Proof.
  revert i; induction l as [|h t IH]; intros [|j]; simpl; auto.
  now rewrite IH.
Qed.

Lemma map_update {A B : Type} (g : A -> B) (l : list A) (i : nat) (a d : A) :
  g a = g (nth i l d) -> map g (update l i a) = map g l.
Proof.
  revert i; induction l as [|h t IH]; intros [|j] H; simpl in *; auto.
  - now rewrite H.
  - f_equal. now apply IH.
Qed.

Lemma fold_left_seq_S {A : Type} (f : A -> nat -> A) (k : nat) (a : A) :
  fold_left f (seq 0 (S k)) a = f (fold_left f (seq 0 k) a) k.
Proof.
  rewrite seq_S, fold_left_app; reflexivity.
Qed.

(** Two nested loops are one loop over the concatenation. *)
Lemma fold_left_flat_map {A B C : Type} (f : A -> C -> A) (g : B -> list C)
    (l : list B) (a : A) :
  fold_left (fun acc b => fold_left f (g b) acc) l a
  = fold_left f (flat_map g l) a.
Proof.
  revert a; induction l as [|b l IH]; intros a; simpl; auto.
  rewrite fold_left_app; apply IH.
Qed.

(** A loop that adds [g n] to a component of its accumulator for the
    elements that pass a test computes the sum over the filtered list. *)
Lemma fold_left_Rsum {Acc : Type} (step : Acc -> nat -> Acc) (proj : Acc -> R)
    (test : nat -> bool) (g : nat -> R) :
  (forall acc n,
      proj (step acc n) = if test n then proj acc + g n else proj acc) ->
  forall l acc,
    proj (fold_left step l acc) = proj acc + Rsum (map g (filter test l)).
Proof.
  intros Hstep; induction l as [|n l IH]; intros acc; simpl.
  - ring.
  - rewrite IH, Hstep. destruct (test n); simpl; ring.
Qed.

Lemma Rsum_pos {A : Type} (f : A -> R) (l : list A) :
  l <> [] -> (forall a, In a l -> 0 < f a) -> 0 < Rsum (map f l).
Proof.
  induction l as [|a l IH]; intros Hne Hpos; [congruence|].
  simpl. assert (0 < f a) by (apply Hpos; now left).
  destruct l as [|b l]; [simpl; lra|].
  assert (0 < Rsum (map f (b :: l))).
  { apply IH; [discriminate|]. intros c Hc. apply Hpos. now right. }
  lra.
Qed.

Lemma count_occ_add (l : list nat) (k i : nat) :
  count_occ Nat.eq_dec (l ++ [k]) i
  = (count_occ Nat.eq_dec l i + if Nat.eqb k i then 1 else 0)%nat.
Proof.
  rewrite count_occ_app. simpl.
  destruct (Nat.eq_dec k i), (Nat.eqb_spec k i); congruence || lia.
Qed.

Lemma count_occ_removeOne (l : list nat) (k i : nat) :
  count_occ Nat.eq_dec (Grid.removeOne k l) i
  = (count_occ Nat.eq_dec l i - if Nat.eqb k i then 1 else 0)%nat.
Proof.
  induction l as [|a l IH]; simpl; [reflexivity|].
  destruct (Nat.eqb_spec a k) as [->|Hak].
  - destruct (Nat.eq_dec k i), (Nat.eqb_spec k i); try congruence; lia.
  - simpl. rewrite IH.
    destruct (Nat.eq_dec a i), (Nat.eqb_spec k i); try congruence; try lia.
Qed.

(** * Vectors *)

Lemma vec_eq (u v : vec) :
  QVector3D.x u = QVector3D.x v -> QVector3D.y u = QVector3D.y v ->
  QVector3D.z u = QVector3D.z v -> u = v.
Proof.
  destruct u, v; simpl; intros; subst; reflexivity.
Qed.

Ltac vec_simpl :=
  unfold QVector3D.add, QVector3D.sub, QVector3D.neg, QVector3D.scale,
         QVector3D.divide, QVector3D.dotProduct, QVector3D.lengthSquared,
         QVector3D.null in *; simpl in *.

Ltac vec_ring := apply vec_eq; vec_simpl; try ring.

(** [field] on goals with decimal constants. *)
Ltac real_field :=
  cbv [Q2R QArith_base.Qnum QArith_base.Qden] in *; field.

Lemma PI_neq_0 : PI <> 0.
Proof. pose proof PI_RGT_0; lra. Qed.

Lemma vadd_null_l (v : vec) : QVector3D.null [+] v = v.
Proof. vec_ring. Qed.

Lemma vadd_null_r (u : vec) : u [+] QVector3D.null = u.
Proof. vec_ring. Qed.

Lemma fold_left_vsum {Acc : Type} (step : Acc -> nat -> Acc) (proj : Acc -> vec)
    (test : nat -> bool) (g : nat -> vec) :
  (forall acc n,
      proj (step acc n) = if test n then proj acc [+] g n else proj acc) ->
  forall l acc,
    proj (fold_left step l acc)
    = proj acc [+] QVector3D.sum (map g (filter test l)).
Proof.
  intros Hstep; induction l as [|n l IH]; intros acc; simpl.
  - vec_ring.
  - rewrite IH, Hstep. destruct (test n); simpl; vec_ring.
Qed.

Lemma fold_left_vsub {Acc : Type} (step : Acc -> nat -> Acc) (proj : Acc -> vec)
    (test : nat -> bool) (g : nat -> vec) :
  (forall acc n,
      proj (step acc n) = if test n then proj acc [-] g n else proj acc) ->
  forall l acc,
    proj (fold_left step l acc)
    = proj acc [-] QVector3D.sum (map g (filter test l)).
Proof.
  intros Hstep; induction l as [|n l IH]; intros acc; simpl.
  - vec_ring.
  - rewrite IH, Hstep. destruct (test n); simpl; vec_ring.
Qed.

Lemma sum_x (l : list vec) :
  QVector3D.x (QVector3D.sum l) = Rsum (map QVector3D.x l).
Proof. induction l as [|a l IH]; simpl; [reflexivity|now rewrite IH]. Qed.

Lemma sum_y (l : list vec) :
  QVector3D.y (QVector3D.sum l) = Rsum (map QVector3D.y l).
Proof. induction l as [|a l IH]; simpl; [reflexivity|now rewrite IH]. Qed.

Lemma sum_z (l : list vec) :
  QVector3D.z (QVector3D.sum l) = Rsum (map QVector3D.z l).
Proof. induction l as [|a l IH]; simpl; [reflexivity|now rewrite IH]. Qed.

Lemma vsum_single_null (u : vec) (k : R) :
  QVector3D.sum [(u [-] u) [*] k] = QVector3D.null.
Proof. simpl. vec_ring. Qed.

Lemma length_nonneg (u : vec) : 0 <= QVector3D.length u.
Proof. apply sqrt_pos. Qed.

Lemma lengthSquared_neg (u : vec) :
  QVector3D.lengthSquared (QVector3D.neg u) = QVector3D.lengthSquared u.
Proof. vec_simpl. ring. Qed.

Lemma qFuzzyIsNull_0 : QVector3D.qFuzzyIsNull 0 = true.
Proof.
  unfold QVector3D.qFuzzyIsNull. rewrite Rabs_R0.
  destruct (Rle_dec _ _) as [_|H]; [reflexivity|]. exfalso; apply H; lra.
Qed.

(** [normalize] commutes with the change of sign. *)
Lemma normalize_neg (u : vec) :
  QVector3D.neg (QVector3D.normalize u) = QVector3D.normalize (QVector3D.neg u).
Proof.
  unfold QVector3D.normalize. rewrite lengthSquared_neg.
  destruct (_ || _); [reflexivity|].
  apply vec_eq; unfold QVector3D.neg, QVector3D.divide; simpl;
    unfold Rdiv; ring.
Qed.

Lemma normalize_null : QVector3D.normalize QVector3D.null = QVector3D.null.
Proof.
  unfold QVector3D.normalize.
  replace (QVector3D.lengthSquared QVector3D.null) with 0 by (vec_simpl; ring).
  now rewrite qFuzzyIsNull_0, orb_true_r.
Qed.

Lemma normalized_null : QVector3D.normalized QVector3D.null = QVector3D.null.
Proof.
  unfold QVector3D.normalized.
  replace (QVector3D.lengthSquared QVector3D.null) with 0 by (vec_simpl; ring).
  rewrite qFuzzyIsNull_0. unfold QVector3D.qFuzzyIsNull.
  destruct (Rle_dec _ _) as [H|_]; [|reflexivity].
  rewrite Rabs_left in H by lra. lra.
Qed.

Lemma normalized_unit (u : vec) :
  QVector3D.lengthSquared u = 1 -> QVector3D.normalized u = u.
Proof.
  intros H. unfold QVector3D.normalized. rewrite H.
  replace (1 - 1) with 0 by ring. now rewrite qFuzzyIsNull_0.
Qed.

(** The normalized form of a multiple of [n] is a multiple of [n]. *)
Lemma normalized_parallel (n : vec) (k : R) :
  exists c, QVector3D.normalized (n [*] k) = n [*] c.
Proof.
  unfold QVector3D.normalized.
  destruct (QVector3D.qFuzzyIsNull (_ - 1)); [now exists k|].
  destruct (negb _).
  - exists (k / sqrt (QVector3D.lengthSquared (n [*] k))).
    apply vec_eq; unfold QVector3D.divide, QVector3D.scale; simpl;
      unfold Rdiv; ring.
  - exists 0. apply vec_eq; vec_simpl; ring.
Qed.

(** * The particle array *)

Lemma particle_setParticle_eq (s : SPH.t) (i : nat) (p : Particle.t) :
  (i < length (SPH._particles s))%nat ->
  SPH.particle (SPH.setParticle s i p) i = p.
Proof. intros Hi; unfold SPH.particle; simpl; now apply nth_update_eq. Qed.

Lemma particle_setParticle_neq (s : SPH.t) (i n : nat) (p : Particle.t) :
  i <> n -> SPH.particle (SPH.setParticle s i p) n = SPH.particle s n.
Proof. intros Hi; unfold SPH.particle; simpl; now apply nth_update_neq. Qed.

Lemma particle_setGrid (s : SPH.t) (g : Grid.t) (n : nat) :
  SPH.particle (SPH.setGrid s g) n = SPH.particle s n.
Proof. reflexivity. Qed.

(** A loop over the particles whose iteration [i] writes the slot [i]
    only. *)
Section SlotLoop.

Variable f : SPH.t -> nat -> SPH.t.
Hypothesis f_other :
  forall s i n, i <> n -> SPH.particle (f s i) n = SPH.particle s n.

(** The slots that the loop has not reached hold what they held. *)
Lemma loop_untouched (s : SPH.t) (k n : nat) :
  (k <= n)%nat -> SPH.particle (fold_left f (seq 0 k) s) n = SPH.particle s n.
Proof.
  induction k as [|k IH]; intros Hk; [reflexivity|].
  rewrite fold_left_seq_S, f_other by lia. apply IH; lia.
Qed.

(** The slots that the loop has passed hold what their iteration wrote. *)
Lemma loop_done (s : SPH.t) (k n : nat) :
  (n < k)%nat ->
  SPH.particle (fold_left f (seq 0 k) s) n
  = SPH.particle (f (fold_left f (seq 0 n) s) n) n.
Proof.
  induction k as [|k IH]; intros Hk; [lia|].
  rewrite fold_left_seq_S.
  destruct (Nat.eq_dec n k) as [->|Hn]; [reflexivity|].
  rewrite f_other by lia. apply IH; lia.
Qed.

End SlotLoop.

(** * Configurations *)

Lemma sameConfiguration_refl (s : SPH.t) : sameConfiguration s s.
Proof. now destruct s. Qed.

Lemma sameConfiguration_trans (s1 s2 s3 : SPH.t) :
  sameConfiguration s1 s2 -> sameConfiguration s2 s3 -> sameConfiguration s1 s3.
Proof.
  unfold sameConfiguration. intros H1 H2. rewrite <- H1 at 3. rewrite <- H2.
  now destruct s3.
Qed.

Lemma sameConfiguration_fields (s s' : SPH.t) :
  sameConfiguration s s' ->
  SPH._container s' = SPH._container s
  /\ SPH._maxDeltaTime s' = SPH._maxDeltaTime s
  /\ SPH._gravity s' = SPH._gravity s
  /\ SPH.localInverted s' = SPH.localInverted s
  /\ SPH._restDensity s' = SPH._restDensity s
  /\ SPH._smoothingRadius2 s' = SPH._smoothingRadius2 s
  /\ SPH._coeffPoly6 s' = SPH._coeffPoly6 s.
Proof. unfold sameConfiguration. intros H. rewrite <- H. repeat split. Qed.

Lemma sameConfiguration_kernels (s s' : SPH.t) :
  sameConfiguration s s' ->
  (forall r2, SPH.densityKernel s' r2 = SPH.densityKernel s r2)
  /\ (forall r2, SPH.densitykernelGradient s' r2 = SPH.densitykernelGradient s r2)
  /\ (forall r, SPH.pressureKernel s' r = SPH.pressureKernel s r)
  /\ (forall r, SPH.viscosityKernel s' r = SPH.viscosityKernel s r).
Proof.
  unfold sameConfiguration. intros H. rewrite <- H. repeat split.
Qed.

Lemma sameGeometry_refl (s : SPH.t) : sameGeometry s s.
Proof. split; [destruct s; reflexivity|]. split; auto. Qed.

Lemma sameGeometry_trans (s1 s2 s3 : SPH.t) :
  sameGeometry s1 s2 -> sameGeometry s2 s3 -> sameGeometry s1 s3.
Proof.
  intros (H1 & L1 & P1) (H2 & L2 & P2). split; [|split].
  - rewrite <- H1, <- H2. destruct s3; reflexivity.
  - congruence.
  - intros n. destruct (P1 n) as (?&?&?&?&?), (P2 n) as (?&?&?&?&?).
    repeat split; congruence.
Qed.

Lemma sameGeometry_sameConfiguration (s s' : SPH.t) :
  sameGeometry s s' -> sameConfiguration s s' /\ SPH._grid s' = SPH._grid s.
Proof.
  intros (H & _). split.
  - unfold sameConfiguration. rewrite H. now destruct s.
  - rewrite <- H. reflexivity.
Qed.

Lemma sameGeometry_config (s s' : SPH.t) :
  sameGeometry s s' ->
  SPH._grid s' = SPH._grid s
  /\ SPH._smoothingRadius2 s' = SPH._smoothingRadius2 s
  /\ SPH._smoothingRadius s' = SPH._smoothingRadius s
  /\ SPH._coeffPoly6 s' = SPH._coeffPoly6 s
  /\ SPH._restDensity s' = SPH._restDensity s.
Proof. intros (H & _). rewrite <- H. simpl. auto. Qed.

Lemma sameGeometry_candidates (s s' : SPH.t) (c : nat) :
  sameGeometry s s' -> Spec.candidates s' c = Spec.candidates s c.
Proof.
  intros H. destruct (sameGeometry_config _ _ H) as (Hg & _).
  unfold Spec.candidates. now rewrite Hg.
Qed.

Lemma sameGeometry_neighborsOf (s s' : SPH.t) (i : nat) :
  sameGeometry s s' -> Spec.neighborsOf s' i = Spec.neighborsOf s i.
Proof.
  intros H. destruct (sameGeometry_config _ _ H) as (Hg & Hh & _).
  destruct H as (_ & _ & HP).
  unfold Spec.neighborsOf, Spec.neighbors, Spec.candidates.
  destruct (HP i) as (-> & _ & -> & _). rewrite Hg.
  apply filter_ext. intros n. unfold Spec.near, Spec.distance2.
  destruct (HP n) as (-> & _). rewrite Hh. reflexivity.
Qed.

Lemma sameGeometry_r2 (s s' : SPH.t) (i n : nat) :
  sameGeometry s s' -> Spec.r2 s' i n = Spec.r2 s i n.
Proof.
  intros (_ & _ & HP). unfold Spec.r2, Spec.distance2.
  destruct (HP i) as (-> & _), (HP n) as (-> & _). reflexivity.
Qed.

Lemma sameGeometry_densityKernel (s s' : SPH.t) (r2 : R) :
  sameGeometry s s' -> SPH.densityKernel s' r2 = SPH.densityKernel s r2.
Proof.
  intros H. destruct (sameGeometry_config _ _ H) as (_ & Hh & _ & Hc & _).
  unfold SPH.densityKernel. now rewrite Hh, Hc.
Qed.

Lemma sameGeometry_rawSum (s s' : SPH.t) (i : nat) :
  sameGeometry s s' -> Spec.rawSum s' i = Spec.rawSum s i.
Proof.
  intros H. unfold Spec.rawSum. rewrite (sameGeometry_neighborsOf _ _ _ H).
  f_equal. apply map_ext. intros n.
  rewrite (sameGeometry_r2 _ _ _ _ H), (sameGeometry_densityKernel _ _ _ H).
  destruct H as (_ & _ & HP). destruct (HP n) as (_ & -> & _). reflexivity.
Qed.

(** * The density solver *)

(** The sums of the two nested loops are the sums of the specification. *)
Lemma densitySums_spec (s : SPH.t) (i : nat) :
  SPH.densitySums s i = (Spec.rawSum s i, Spec.correctionSum s i).
Proof.
  unfold SPH.densitySums.
  rewrite (fold_left_flat_map (SPH.densityContribution s (SPH.particle s i))).
  apply injective_projections.
  - rewrite (fold_left_Rsum _ fst
               (Spec.near s (Particle.position (SPH.particle s i)))
               (fun n => SPH.densityKernel s (Spec.r2 s i n)
                         * Particle.mass (SPH.particle s n))).
    + simpl; unfold Spec.rawSum, Spec.neighborsOf, Spec.neighbors,
        Spec.candidates; ring.
    + intros [d c] n;
        unfold SPH.densityContribution, Spec.near, Spec.r2, Spec.distance2.
      destruct (Rlt_dec _ _); reflexivity.
  - rewrite (fold_left_Rsum _ snd
               (Spec.near s (Particle.position (SPH.particle s i)))
               (fun n => SPH.densityKernel s (Spec.r2 s i n)
                         * Particle.mass (SPH.particle s n)
                         / Particle.density (SPH.particle s n))).
    + simpl; unfold Spec.correctionSum, Spec.neighborsOf, Spec.neighbors,
        Spec.candidates; ring.
    + intros [d c] n;
        unfold SPH.densityContribution, Spec.near, Spec.r2, Spec.distance2.
      destruct (Rlt_dec _ _); reflexivity.
Qed.

(** What one iteration stores. *)
Lemma computeDensity_eq (s : SPH.t) (i : nat) :
  SPH.computeDensity s i
  = SPH.setParticle s i
      (Particle.setPressure
         (Particle.setVolume
            (Particle.setDensity (SPH.particle s i)
               (Spec.rawSum s i / Spec.correctionSum s i))
            (Particle.mass (SPH.particle s i)
             / (Spec.rawSum s i / Spec.correctionSum s i)))
         (SPH.pressure s (Spec.rawSum s i))).
Proof.
  unfold SPH.computeDensity. rewrite densitySums_spec. reflexivity.
Qed.

Lemma computeDensity_other (s : SPH.t) (i n : nat) :
  i <> n -> SPH.particle (SPH.computeDensity s i) n = SPH.particle s n.
Proof.
  intros H. rewrite computeDensity_eq. now apply particle_setParticle_neq.
Qed.

Lemma computeDensity_sameGeometry (s : SPH.t) (i : nat) :
  sameGeometry s (SPH.computeDensity s i).
Proof.
  split; [rewrite computeDensity_eq; destruct s; reflexivity|]. split.
  - rewrite computeDensity_eq. simpl. apply update_length.
  - intros n. destruct (Nat.eq_dec i n) as [->|Hn].
    + destruct (Nat.lt_ge_cases n (length (SPH._particles s))) as [Hl|Hl].
      * rewrite computeDensity_eq, particle_setParticle_eq by assumption.
        simpl. auto.
      * unfold SPH.particle. rewrite !nth_overflow; auto.
        rewrite computeDensity_eq. simpl. now rewrite update_length.
    + rewrite computeDensity_other by assumption. auto.
Qed.

Lemma stateBefore_sameGeometry (s : SPH.t) (k : nat) :
  sameGeometry s (Spec.stateBefore s k).
Proof.
  unfold Spec.stateBefore. induction k as [|k IH].
  - apply sameGeometry_refl.
  - rewrite fold_left_seq_S.
    eapply sameGeometry_trans; [exact IH|apply computeDensity_sameGeometry].
Qed.

Lemma stateBefore_length (s : SPH.t) (k : nat) :
  length (SPH._particles (Spec.stateBefore s k)) = length (SPH._particles s).
Proof. apply stateBefore_sameGeometry. Qed.

Lemma stateBefore_S (s : SPH.t) (k : nat) :
  Spec.stateBefore s (S k) = SPH.computeDensity (Spec.stateBefore s k) k.
Proof. unfold Spec.stateBefore. apply fold_left_seq_S. Qed.

Lemma computeDensities_stateBefore (s : SPH.t) :
  SPH.computeDensities s = Spec.stateBefore s (length (SPH._particles s)).
Proof. reflexivity. Qed.

Lemma computeDensities_sameGeometry (s : SPH.t) :
  sameGeometry s (SPH.computeDensities s).
Proof. apply stateBefore_sameGeometry. Qed.

(** The state that iteration [i] reads: the particles before [i] already
    carry the values of this pass, the others those of the previous step. *)
Lemma stateBefore_particle (s : SPH.t) (i n : nat) :
  (i <= length (SPH._particles s))%nat ->
  SPH.particle (Spec.stateBefore s i) n
  = if Nat.ltb n i then SPH.particle (SPH.computeDensities s) n
    else SPH.particle s n.
Proof.
  intros Hi. unfold Spec.stateBefore, SPH.computeDensities.
  destruct (Nat.ltb_spec n i) as [Hn|Hn].
  - rewrite (loop_done _ computeDensity_other s (length _) n) by lia.
    now apply (loop_done _ computeDensity_other).
  - now apply (loop_untouched _ computeDensity_other).
Qed.

(** The particle [i] after the pass is what iteration [i] stored. *)
Lemma computeDensities_particle (s : SPH.t) (i : nat) :
  (i < length (SPH._particles s))%nat ->
  SPH.particle (SPH.computeDensities s) i
  = Particle.setPressure
      (Particle.setVolume
         (Particle.setDensity (SPH.particle s i)
            (Spec.rawSum s i / Spec.correctionSum (Spec.stateBefore s i) i))
         (Particle.mass (SPH.particle s i)
          / (Spec.rawSum s i / Spec.correctionSum (Spec.stateBefore s i) i)))
      (SPH.pressure s (Spec.rawSum s i)).
Proof.
  intros Hi. unfold SPH.computeDensities.
  rewrite (loop_done _ computeDensity_other) by assumption.
  fold (Spec.stateBefore s i). rewrite computeDensity_eq.
  rewrite particle_setParticle_eq by (rewrite stateBefore_length; assumption).
  rewrite (sameGeometry_rawSum _ _ _ (stateBefore_sameGeometry s i)).
  rewrite (stateBefore_particle s i i) by lia. rewrite Nat.ltb_irrefl.
  unfold SPH.pressure.
  destruct (sameGeometry_config _ _ (stateBefore_sameGeometry s i))
    as (_ & _ & _ & _ & ->).
  reflexivity.
Qed.

(** The correction sum of the particle [i], in terms of the states before
    and after the pass. *)
Lemma correctionSum_stateBefore (s : SPH.t) (i : nat) :
  (i <= length (SPH._particles s))%nat ->
  Spec.correctionSum (Spec.stateBefore s i) i
  = Rsum (map (fun n =>
                 SPH.densityKernel s (Spec.r2 s i n)
                 * Particle.mass (SPH.particle s n)
                 / Particle.density
                     (if Nat.ltb n i then SPH.particle (SPH.computeDensities s) n
                      else SPH.particle s n))
              (Spec.neighborsOf s i)).
Proof.
  intros Hi. pose proof (stateBefore_sameGeometry s i) as H.
  unfold Spec.correctionSum. rewrite (sameGeometry_neighborsOf _ _ _ H).
  f_equal. apply map_ext. intros n.
  rewrite (sameGeometry_r2 _ _ _ _ H), (sameGeometry_densityKernel _ _ _ H).
  rewrite (stateBefore_particle s i n Hi).
  destruct H as (_ & _ & HP). destruct (HP n) as (_ & <- & _).
  rewrite (stateBefore_particle s i n Hi). reflexivity.
Qed.

(** ** Positive sums *)

Lemma densityKernel_pos (s : SPH.t) (r2 : R) :
  0 < SPH._coeffPoly6 s -> r2 < SPH._smoothingRadius2 s ->
  0 < SPH.densityKernel s r2.
Proof.
  intros Hc Hr. unfold SPH.densityKernel.
  assert (0 < SPH._smoothingRadius2 s - r2) by lra.
  repeat apply Rmult_lt_0_compat; assumption.
Qed.

Lemma near_true (s : SPH.t) (p : vec) (n : nat) :
  Spec.near s p n = true <-> Spec.distance2 s p n < SPH._smoothingRadius2 s.
Proof.
  unfold Spec.near. destruct (Rlt_dec _ _); split; auto; discriminate.
Qed.

(** A particle is within the radius of itself: [r² = 0 < h²]. *)
Lemma near_self (s : SPH.t) (i : nat) :
  0 < SPH._smoothingRadius2 s ->
  Spec.near s (Particle.position (SPH.particle s i)) i = true.
Proof.
  intros Hh. apply near_true. unfold Spec.distance2.
  replace (QVector3D.lengthSquared _) with 0; [assumption|].
  vec_simpl. ring.
Qed.

Lemma neighborsOf_self (s : SPH.t) (i : nat) :
  wellFormed s -> (i < length (SPH._particles s))%nat ->
  In i (Spec.neighborsOf s i).
Proof.
  intros (Hh & _ & _ & _ & Hself) Hi.
  unfold Spec.neighborsOf, Spec.neighbors. apply filter_In. split.
  - now apply Hself.
  - now apply near_self.
Qed.

Lemma neighborsOf_valid (s : SPH.t) (i n : nat) :
  wellFormed s -> (i < length (SPH._particles s))%nat ->
  In n (Spec.neighborsOf s i) ->
  (n < length (SPH._particles s))%nat
  /\ Spec.r2 s i n < SPH._smoothingRadius2 s.
Proof.
  intros (_ & _ & _ & Hvalid & _) Hi Hn.
  unfold Spec.neighborsOf, Spec.neighbors in Hn. apply filter_In in Hn.
  destruct Hn as [Hc Hnear]. split; [eapply Hvalid; eassumption|].
  now apply near_true in Hnear.
Qed.

Lemma wellFormed_sums_pos (s : SPH.t) (i : nat) :
  wellFormed s -> (i < length (SPH._particles s))%nat ->
  0 < Spec.rawSum s i /\ 0 < Spec.correctionSum s i.
Proof.
  intros WF Hi.
  assert (Hne : Spec.neighborsOf s i <> []).
  { intros E. pose proof (neighborsOf_self s i WF Hi) as H.
    rewrite E in H. inversion H. }
  pose proof WF as (Hh & Hc & Hpos & Hrest).
  split; apply Rsum_pos; try assumption; intros n Hn;
    destruct (neighborsOf_valid s i n WF Hi Hn) as [Hlt Hr];
    destruct (Hpos n Hlt) as [Hm Hd];
    pose proof (densityKernel_pos s _ Hc Hr).
  - now apply Rmult_lt_0_compat.
  - apply Rdiv_lt_0_compat; [now apply Rmult_lt_0_compat|assumption].
Qed.

Lemma computeDensity_wellFormed (s : SPH.t) (i : nat) :
  wellFormed s -> wellFormed (SPH.computeDensity s i).
Proof.
  intros WF. pose proof (computeDensity_sameGeometry s i) as G.
  destruct (sameGeometry_config _ _ G) as (Hg & Hh & _ & Hc & _).
  pose proof G as (G0 & GL & GP).
  pose proof WF as (WFh & WFc & WFpos & WFvalid & WFself).
  unfold wellFormed. rewrite Hh, Hc, GL. repeat split; try assumption.
  - destruct (GP n) as (_ & -> & _). now apply WFpos.
  - destruct (Nat.eq_dec i n) as [->|Hn].
    + rewrite computeDensity_eq, particle_setParticle_eq by assumption. simpl.
      destruct (wellFormed_sums_pos s n WF H). now apply Rdiv_lt_0_compat.
    + rewrite computeDensity_other by assumption. now apply WFpos.
  - intros j n Hj Hin. rewrite (sameGeometry_candidates _ _ _ G) in Hin.
    destruct (GP j) as (_ & _ & Hcell & _). rewrite Hcell in Hin.
    eapply WFvalid; eassumption.
  - intros j Hj. rewrite (sameGeometry_candidates _ _ _ G).
    destruct (GP j) as (_ & _ & -> & _). now apply WFself.
Qed.

Lemma stateBefore_wellFormed (s : SPH.t) (k : nat) :
  wellFormed s -> wellFormed (Spec.stateBefore s k).
Proof.
  intros WF. induction k as [|k IH]; [exact WF|].
  rewrite stateBefore_S. now apply computeDensity_wellFormed.
Qed.

Lemma computeDensities_volume_pos (s : SPH.t) (n : nat) :
  wellFormed s -> (n < length (SPH._particles s))%nat ->
  0 < Particle.volume (SPH.particle (SPH.computeDensities s) n).
Proof.
  intros WF Hn. rewrite computeDensities_particle by assumption. simpl.
  pose proof (stateBefore_wellFormed s n WF) as WFn.
  assert (Hn' : (n < length (SPH._particles (Spec.stateBefore s n)))%nat)
    by (rewrite stateBefore_length; assumption).
  destruct (wellFormed_sums_pos _ n WFn Hn') as [Hraw Hcorr].
  rewrite (sameGeometry_rawSum _ _ _ (stateBefore_sameGeometry s n)) in Hraw.
  destruct WF as (_ & _ & Hpos & _). destruct (Hpos n Hn) as [Hm _].
  apply Rdiv_lt_0_compat; [assumption|]. now apply Rdiv_lt_0_compat.
Qed.

Lemma forceCorrection_pos (s : SPH.t) (i : nat) :
  wellFormed s -> (i < length (SPH._particles s))%nat ->
  0 < Spec.forceCorrection (SPH.computeDensities s) i.
Proof.
  intros WF Hi.
  pose proof (stateBefore_wellFormed s (length (SPH._particles s)) WF) as WF'.
  rewrite <- computeDensities_stateBefore in WF'.
  assert (HL : length (SPH._particles (SPH.computeDensities s))
               = length (SPH._particles s)) by apply stateBefore_length.
  assert (Hi' : (i < length (SPH._particles (SPH.computeDensities s)))%nat)
    by (rewrite HL; assumption).
  unfold Spec.forceCorrection. apply Rsum_pos.
  - intros E. pose proof (neighborsOf_self _ i WF' Hi') as H.
    rewrite E in H. inversion H.
  - intros n Hn. destruct (neighborsOf_valid _ i n WF' Hi' Hn) as [Hlt Hr].
    apply Rmult_lt_0_compat.
    + apply densityKernel_pos; [apply WF'|assumption].
    + apply computeDensities_volume_pos; [assumption|now rewrite <- HL].
Qed.

(** ** The example systems, evaluated *)

Lemma single_eq :
  Example.single
  = SPH.make Example.openContainer (315 / (64 * PI)) (45 / PI) (45 / PI)
             1 1 1 1 1 1 1 Example.gravity
             [Particle.make QVector3D.null QVector3D.null QVector3D.null
                            1 1 1 0 0]
             (Grid.addParticle Example.twoCells 0 0) (fun v => v).
Proof.
  unfold Example.single, SPH.construct, SPH.initializeParticles. simpl.
  unfold SPH.initializeParticle, SPH.particle, SPH.setGrid, SPH.setParticle,
    SPH.setParticles. simpl.
  unfold Particle.setCellIndex, Particle.setPosition, Particle.setVolume,
    Particle.setDensity, Particle.setMass, SPH.M_PI. simpl.
  destruct (Rlt_dec 0 (-0.0005)) as [H|_]; [lra|].
  pose proof PI_neq_0.
  f_equal; try (real_field; assumption).
  f_equal. f_equal; field.
Qed.

Lemma single_length : length (SPH._particles Example.single) = 1%nat.
Proof. rewrite single_eq; reflexivity. Qed.

Lemma single_neighborsOf : Spec.neighborsOf Example.single 0 = [0%nat].
Proof.
  rewrite single_eq.
  unfold Spec.neighborsOf, Spec.neighbors, Spec.candidates, Spec.near,
    Spec.distance2. simpl.
  destruct (Rlt_dec _ _) as [_|H]; [reflexivity|].
  exfalso; apply H. vec_simpl. lra.
Qed.

Lemma single_rawSum : Spec.rawSum Example.single 0 = 315 / (64 * PI).
Proof.
  unfold Spec.rawSum. rewrite single_neighborsOf.
  rewrite single_eq. unfold Spec.r2, Spec.distance2, SPH.densityKernel. simpl.
  pose proof PI_neq_0. vec_simpl. field; assumption.
Qed.

Lemma single_correctionSum :
  Spec.correctionSum Example.single 0 = 315 / (64 * PI).
Proof.
  unfold Spec.correctionSum. rewrite single_neighborsOf.
  rewrite single_eq. unfold Spec.r2, Spec.distance2, SPH.densityKernel. simpl.
  pose proof PI_neq_0. vec_simpl. field; assumption.
Qed.

Lemma single_wellFormed : wellFormed Example.single.
Proof.
  rewrite single_eq. pose proof PI_RGT_0.
  unfold wellFormed. simpl. repeat split.
  - lra.
  - apply Rdiv_lt_0_compat; lra.
  - destruct n as [|n]; [|simpl in *; lia]. unfold SPH.particle; simpl; lra.
  - destruct n as [|n]; [|simpl in *; lia]. unfold SPH.particle; simpl; lra.
  - intros i n Hi [<-|[]]. lia.
  - intros i Hi. left. lia.
Qed.

Lemma isolated_neighborsOf : Spec.neighborsOf Example.isolated 0 = [].
Proof.
  unfold Spec.neighborsOf, Spec.neighbors, Spec.candidates, Spec.near,
    Spec.distance2. simpl.
  destruct (Rlt_dec _ _) as [H|_]; [|reflexivity].
  exfalso. vec_simpl. lra.
Qed.

Lemma pair_neighborsOf (i : nat) :
  (i < 2)%nat -> Spec.neighborsOf Example.pair i = [0%nat; 1%nat].
Proof.
  intros Hi.
  unfold Spec.neighborsOf, Spec.neighbors, Spec.candidates, Spec.near,
    Spec.distance2.
  destruct i as [|[|i]]; [| |lia]; simpl;
    repeat (destruct (Rlt_dec _ _) as [_|H]; [|exfalso; apply H; vec_simpl; lra]);
    reflexivity.
Qed.

Lemma pair_coeff : SPH._coeffPoly6 Example.pair = 315 / (64 * PI).
Proof. simpl. unfold SPH.M_PI. pose proof PI_neq_0. real_field. assumption. Qed.

Lemma pair_rawSum (i : nat) :
  (i < 2)%nat -> Spec.rawSum Example.pair i = 91 / 64 * (315 / (64 * PI)).
Proof.
  intros Hi. unfold Spec.rawSum. rewrite pair_neighborsOf by assumption.
  unfold SPH.densityKernel, Spec.r2, Spec.distance2. rewrite pair_coeff.
  pose proof PI_neq_0.
  destruct i as [|[|i]]; [| |lia]; simpl; vec_simpl; real_field; assumption.
Qed.

Lemma pair_density0 :
  Particle.density (SPH.particle (SPH.computeDensities Example.pair) 0)
  = 182 / 155.
Proof.
  rewrite computeDensities_particle by (simpl; lia). simpl.
  rewrite pair_rawSum by lia.
  unfold Spec.stateBefore; simpl fold_left.
  unfold Spec.correctionSum. rewrite pair_neighborsOf by lia.
  unfold SPH.densityKernel, Spec.r2, Spec.distance2. rewrite pair_coeff.
  pose proof PI_neq_0. simpl. vec_simpl. real_field. assumption.
Qed.

(** ** The claims on the density solver *)

(** C1, as amended.  After the density pass, the stored density of every
    particle is [rawSum / correctionSum] (the correction sum taken over the
    densities stored when the loop reaches the particle), the stored volume
    is [mass / density] for that density, and the stored pressure is
    [rawSum / restDensity - 1]: the pressure is computed from the raw sum,
    not from the corrected density. *)
Theorem computeDensities_stores (s : SPH.t) (i : nat) :
  (i < length (SPH._particles s))%nat ->
  let p := SPH.particle (SPH.computeDensities s) i in
  Particle.density p
  = Spec.rawSum s i / Spec.correctionSum (Spec.stateBefore s i) i
  /\ Particle.volume p = Particle.mass p / Particle.density p
  /\ Particle.pressure p = Spec.rawSum s i / SPH._restDensity s - 1.
Proof.
  intros Hi p. subst p. rewrite computeDensities_particle by assumption.
  simpl. repeat split.
Qed.

Lemma computeDensities_stores_witness :
  let p := SPH.particle (SPH.computeDensities Example.single) 0 in
  Particle.density p
  = Spec.rawSum Example.single 0
    / Spec.correctionSum (Spec.stateBefore Example.single 0) 0
  /\ Particle.volume p = Particle.mass p / Particle.density p
  /\ Particle.pressure p
     = Spec.rawSum Example.single 0 / SPH._restDensity Example.single - 1.
Proof.
  apply (computeDensities_stores Example.single 0).
  rewrite single_length. lia.
Defined.

(** C1 as it is stated fails on [Example.single]: the corrected density of
    the lone particle is 1, the rest density, so the claim gives a pressure
    of 0, and the code stores [315 / (64 π) - 1]. *)
Lemma computeDensities_pressure_counterexample :
  let p := SPH.particle (SPH.computeDensities Example.single) 0 in
  Particle.density p = 1
  /\ Particle.pressure p = 315 / (64 * PI) - 1
  /\ Particle.pressure p
     <> Particle.density p / SPH._restDensity Example.single - 1.
Proof.
  intros p. subst p.
  rewrite computeDensities_particle by (rewrite single_length; lia).
  simpl. unfold SPH.pressure, Spec.stateBefore. simpl.
  rewrite single_rawSum, single_correctionSum.
  pose proof PI_RGT_0 as Hpos. pose proof PI_4 as H4.
  assert (Hc : 315 / 256 <= 315 / (64 * PI)).
  { apply Rmult_le_compat_l; [lra|]. apply Rinv_le_contravar; lra. }
  repeat split.
  - field. lra.
  - field. lra.
  - replace (315 / (64 * PI) / (315 / (64 * PI)) / 1 - 1) with 0 by (field; lra).
    lra.
Qed.

(** What the sequential loop reads.  When the loop of the density solver,
    run in the order of the indices, reaches the particle [i], the
    correction term of the neighbour [n] is evaluated with the density
    that is stored for [n] at that moment: the density of the previous
    step when [i <= n], the density that this pass has already written
    when [n < i].  The code keeps no copy of the densities of the
    previous step. *)
Lemma correction_reads_stored_densities (s : SPH.t) (i : nat) :
  (i < length (SPH._particles s))%nat ->
  Particle.density (SPH.particle (SPH.computeDensities s) i)
  = Spec.rawSum s i
    / Rsum (map (fun n =>
                   SPH.densityKernel s (Spec.r2 s i n)
                   * Particle.mass (SPH.particle s n)
                   / Particle.density
                       (if Nat.ltb n i
                        then SPH.particle (SPH.computeDensities s) n
                        else SPH.particle s n))
                (Spec.neighborsOf s i)).
Proof.
  intros Hi. rewrite computeDensities_particle by assumption.
  rewrite correctionSum_stateBefore by lia. reflexivity.
Qed.

(** * The force solver *)

(** The sums of the two nested loops of the force solver. *)
Lemma forceSums_spec (s : SPH.t) (i : nat) :
  SPH.forceSums s i
  = SPH.mkForces (QVector3D.null [-] Spec.pressureSum s i)
                 (Spec.viscositySum s i)
                 (Spec.tensionSum s i)
                 (Spec.forceCorrection s i).
Proof.
  unfold SPH.forceSums.
  rewrite (fold_left_flat_map (SPH.forceContribution s (SPH.particle s i))).
  set (l := flat_map _ _).
  set (acc0 := SPH.mkForces _ _ _ _).
  assert (Hstep : forall acc n,
             SPH.forceContribution s (SPH.particle s i) acc n
             = if Spec.near s (Particle.position (SPH.particle s i)) n
               then SPH.forceContribution s (SPH.particle s i) acc n
               else acc).
  { intros acc n. unfold SPH.forceContribution, Spec.near, Spec.distance2.
    destruct (Rlt_dec _ _); reflexivity. }
  assert (Hnear : forall acc n,
             Spec.near s (Particle.position (SPH.particle s i)) n = true ->
             SPH.forceContribution s (SPH.particle s i) acc n
             = SPH.mkForces
                 (SPH.pressureForce acc
                  [-] Spec.difference s i n
                      [*] (SPH.pressureKernel s (sqrt (Spec.r2 s i n))
                           * ((Particle.pressure (SPH.particle s n)
                               + Particle.pressure (SPH.particle s i)) * 0.5)
                           * Particle.volume (SPH.particle s n)))
                 (SPH.viscosityForce acc
                  [+] (Particle.velocity (SPH.particle s n)
                       [-] Particle.velocity (SPH.particle s i))
                      [*] (SPH.viscosityKernel s (sqrt (Spec.r2 s i n))
                           * Particle.volume (SPH.particle s n)))
                 (SPH.tensionForce acc
                  [+] Spec.difference s i n [*] SPH.densityKernel s (Spec.r2 s i n))
                 (SPH.correction acc
                  + SPH.densityKernel s (Spec.r2 s i n)
                    * Particle.volume (SPH.particle s n))).
  { intros acc n. unfold SPH.forceContribution, Spec.near, Spec.distance2.
    destruct (Rlt_dec _ _); [reflexivity|discriminate]. }
  set (r := fold_left _ l acc0).
  transitivity
    (SPH.mkForces (SPH.pressureForce r) (SPH.viscosityForce r)
                  (SPH.tensionForce r) (SPH.correction r)).
  { now destruct r. }
  subst r.
  f_equal.
  - rewrite (fold_left_vsub _ SPH.pressureForce
               (Spec.near s (Particle.position (SPH.particle s i)))
               (fun n => Spec.difference s i n
                   [*] (SPH.pressureKernel s (sqrt (Spec.r2 s i n))
                        * ((Particle.pressure (SPH.particle s n)
                            + Particle.pressure (SPH.particle s i)) * 0.5)
                        * Particle.volume (SPH.particle s n)))); [reflexivity|].
    intros acc n. destruct (Spec.near _ _ n) eqn:E.
    + now rewrite Hnear.
    + now rewrite Hstep, E.
  - rewrite (fold_left_vsum _ SPH.viscosityForce
               (Spec.near s (Particle.position (SPH.particle s i)))
               (fun n => (Particle.velocity (SPH.particle s n)
                          [-] Particle.velocity (SPH.particle s i))
                   [*] (SPH.viscosityKernel s (sqrt (Spec.r2 s i n))
                        * Particle.volume (SPH.particle s n)))); [apply vadd_null_l|].
    intros acc n. destruct (Spec.near _ _ n) eqn:E.
    + now rewrite Hnear.
    + now rewrite Hstep, E.
  - rewrite (fold_left_vsum _ SPH.tensionForce
               (Spec.near s (Particle.position (SPH.particle s i)))
               (fun n => Spec.difference s i n
                         [*] SPH.densityKernel s (Spec.r2 s i n)));
      [apply vadd_null_l|].
    intros acc n. destruct (Spec.near _ _ n) eqn:E.
    + now rewrite Hnear.
    + now rewrite Hstep, E.
  - rewrite (fold_left_Rsum _ SPH.correction
               (Spec.near s (Particle.position (SPH.particle s i)))
               (fun n => SPH.densityKernel s (Spec.r2 s i n)
                         * Particle.volume (SPH.particle s n))); [apply Rplus_0_l|].
    intros acc n. destruct (Spec.near _ _ n) eqn:E.
    + now rewrite Hnear.
    + now rewrite Hstep, E.
Qed.

Lemma particle_eraseAcceleration (s : SPH.t) (n : nat) :
  SPH.particle (eraseAcceleration s) n
  = Particle.setAcceleration (SPH.particle s n) QVector3D.null.
Proof.
  unfold SPH.particle, eraseAcceleration. simpl.
  change Particle.default
    with (Particle.setAcceleration Particle.default QVector3D.null) at 1.
  apply (map_nth (fun p => Particle.setAcceleration p QVector3D.null)).
Qed.

Lemma computeForce_erase (g : vec) (s : SPH.t) (i : nat) :
  eraseAcceleration (SPH.computeForce g s i) = eraseAcceleration s.
Proof.
  unfold SPH.computeForce, eraseAcceleration, SPH.setParticle, SPH.setParticles.
  simpl. f_equal. apply map_update with (d := Particle.default). reflexivity.
Qed.

Lemma computeForce_loop_erase (g : vec) (s : SPH.t) (k : nat) :
  eraseAcceleration (fold_left (SPH.computeForce g) (seq 0 k) s)
  = eraseAcceleration s.
Proof.
  induction k as [|k IH]; [reflexivity|].
  now rewrite fold_left_seq_S, computeForce_erase.
Qed.

Lemma forceSums_erase (s : SPH.t) (i : nat) :
  SPH.forceSums (eraseAcceleration s) i = SPH.forceSums s i.
Proof.
  unfold SPH.forceSums. rewrite particle_eraseAcceleration.
  cbn [Particle.cellIndex Particle.setAcceleration].
  change (SPH._grid (eraseAcceleration s)) with (SPH._grid s).
  set (hood := Grid.neighborhood _ _). clearbody hood.
  generalize (SPH.mkForces QVector3D.null QVector3D.null QVector3D.null 0).
  induction hood as [|c hood IH]; intros acc; [reflexivity|].
  simpl. rewrite IH. f_equal.
  generalize (Grid.cellParticles (SPH._grid s) c). intros l. revert acc.
  induction l as [|n l IHl]; intros acc; [reflexivity|].
  simpl. rewrite IHl. f_equal.
  unfold SPH.forceContribution. rewrite particle_eraseAcceleration. reflexivity.
Qed.

Lemma erase_eq_fields (s s' : SPH.t) :
  eraseAcceleration s' = eraseAcceleration s ->
  SPH._pressure s' = SPH._pressure s
  /\ SPH._viscosity s' = SPH._viscosity s
  /\ SPH._surfaceTension s' = SPH._surfaceTension s
  /\ length (SPH._particles s') = length (SPH._particles s).
Proof.
  intros H. repeat split.
  - exact (f_equal SPH._pressure H).
  - exact (f_equal SPH._viscosity H).
  - exact (f_equal SPH._surfaceTension H).
  - pose proof (f_equal (fun st => length (SPH._particles st)) H) as E.
    unfold eraseAcceleration in E. simpl in E. now rewrite !length_map in E.
Qed.

Lemma computeForce_other (g : vec) (s : SPH.t) (i n : nat) :
  i <> n -> SPH.particle (SPH.computeForce g s i) n = SPH.particle s n.
Proof. intros H. unfold SPH.computeForce. now apply particle_setParticle_neq. Qed.

(** The particle [i] after the force solver. *)
Lemma computeForces_particle (s : SPH.t) (i : nat) :
  (i < length (SPH._particles s))%nat ->
  SPH.particle (SPH.computeForces s) i
  = Particle.setAcceleration (SPH.particle s i)
      (((Spec.viscositySum s i
           [*] (SPH._viscosity s / Spec.forceCorrection s i))
        [-] ((QVector3D.null [-] Spec.pressureSum s i)
               [*] (SPH._pressure s / Spec.forceCorrection s i))
        [-] (Spec.tensionSum s i
               [*] (SPH._surfaceTension s / Spec.forceCorrection s i)))
         [/] Particle.density (SPH.particle s i)
       [+] SPH.localInverted s (SPH._gravity s)).
Proof.
  intros Hi. unfold SPH.computeForces.
  set (g := SPH.localInverted s (SPH._gravity s)).
  rewrite (loop_done _ (computeForce_other g)) by assumption.
  set (st := fold_left (SPH.computeForce g) (seq 0 i) s).
  assert (He : eraseAcceleration st = eraseAcceleration s)
    by apply computeForce_loop_erase.
  destruct (erase_eq_fields _ _ He) as (Hp & Hv & Ht & HL).
  assert (Hst : SPH.particle st i = SPH.particle s i)
    by (apply (loop_untouched _ (computeForce_other g)); lia).
  unfold SPH.computeForce.
  rewrite particle_setParticle_eq by (rewrite HL; assumption).
  rewrite <- (forceSums_erase st), He, forceSums_erase, forceSums_spec.
  rewrite Hst, Hp, Hv, Ht. reflexivity.
Qed.

(** C5.  After the force solver, the stored acceleration of every particle
    is [(viscosityForce - pressureForce - tensionForce) / ownDensity +
    gravity], with gravity in the local frame, where [pressureForce] is
    [pressureCoeff / correction] times minus the sum of
    [difference·(pressureKernel(r)·meanPressure·neighborVolume)],
    [viscosityForce] is [viscosityCoeff / correction] times the sum of
    [(neighborVelocity - ownVelocity)·(viscosityKernel(r)·neighborVolume)],
    [tensionForce] is [surfaceTensionCoeff / correction] times the sum of
    [difference·densityKernel(r²)], and [correction] is the sum of
    [densityKernel(r²)·neighborVolume], all over the neighbours with
    [r² < h²]. *)
Theorem computeForces_acceleration (s : SPH.t) (i : nat) :
  (i < length (SPH._particles s))%nat ->
  let correction := Spec.forceCorrection s i in
  let pressureForce :=
    (QVector3D.null [-] Spec.pressureSum s i) [*] (SPH._pressure s / correction) in
  let viscosityForce :=
    Spec.viscositySum s i [*] (SPH._viscosity s / correction) in
  let tensionForce :=
    Spec.tensionSum s i [*] (SPH._surfaceTension s / correction) in
  Particle.acceleration (SPH.particle (SPH.computeForces s) i)
  = (viscosityForce [-] pressureForce [-] tensionForce)
      [/] Particle.density (SPH.particle s i)
    [+] SPH.localInverted s (SPH._gravity s).
Proof.
  intros Hi. simpl. now rewrite computeForces_particle.
Qed.

Lemma computeForces_acceleration_witness :
  Particle.acceleration (SPH.particle (SPH.computeForces Example.pair) 1)
  = ((Spec.viscositySum Example.pair 1
        [*] (SPH._viscosity Example.pair / Spec.forceCorrection Example.pair 1))
     [-] ((QVector3D.null [-] Spec.pressureSum Example.pair 1)
            [*] (SPH._pressure Example.pair / Spec.forceCorrection Example.pair 1))
     [-] (Spec.tensionSum Example.pair 1
            [*] (SPH._surfaceTension Example.pair
                 / Spec.forceCorrection Example.pair 1)))
      [/] Particle.density (SPH.particle Example.pair 1)
    [+] SPH.localInverted Example.pair (SPH._gravity Example.pair).
Proof.
  apply (computeForces_acceleration Example.pair 1).
  simpl. lia.
Defined.

(** * The surface evaluator *)

Lemma surfaceSums_spec (s : SPH.t) (position : vec) :
  SPH.surfaceSums s position
  = SPH.mkSurface (Spec.fieldDensity s position)
                  (QVector3D.x (Spec.fieldGradient s position))
                  (QVector3D.y (Spec.fieldGradient s position))
                  (QVector3D.z (Spec.fieldGradient s position)).
Proof.
  unfold SPH.surfaceSums.
  rewrite (fold_left_flat_map (SPH.surfaceContribution s position)).
  set (l := flat_map _ _).
  set (acc0 := SPH.mkSurface 0 0 0 0).
  set (r := fold_left _ l acc0).
  transitivity
    (SPH.mkSurface (SPH.surfaceDensity r) (SPH.densityKernelGradientX r)
                   (SPH.densityKernelGradientY r) (SPH.densityKernelGradientZ r)).
  { now destruct r. }
  unfold Spec.fieldGradient, Spec.fieldDensity, Spec.neighbors, Spec.candidates.
  fold l. rewrite sum_x, sum_y, sum_z, !map_map. subst r.
  f_equal.
  - rewrite (fold_left_Rsum _ SPH.surfaceDensity (Spec.near s position)
               (fun n => SPH.densityKernel s (Spec.distance2 s position n)
                         * Particle.mass (SPH.particle s n))); [apply Rplus_0_l|].
    intros acc n. unfold SPH.surfaceContribution, Spec.near, Spec.distance2.
    destruct (Rlt_dec _ _); reflexivity.
  - rewrite (fold_left_Rsum _ SPH.densityKernelGradientX (Spec.near s position)
               (fun n => QVector3D.x
                  ((position [-] Particle.position (SPH.particle s n))
                   [*] (2 * SPH.densitykernelGradient s (Spec.distance2 s position n)
                        * Particle.mass (SPH.particle s n))))); [apply Rplus_0_l|].
    intros acc n. unfold SPH.surfaceContribution, Spec.near, Spec.distance2.
    destruct (Rlt_dec _ _); simpl; [f_equal; ring|reflexivity].
  - rewrite (fold_left_Rsum _ SPH.densityKernelGradientY (Spec.near s position)
               (fun n => QVector3D.y
                  ((position [-] Particle.position (SPH.particle s n))
                   [*] (2 * SPH.densitykernelGradient s (Spec.distance2 s position n)
                        * Particle.mass (SPH.particle s n))))); [apply Rplus_0_l|].
    intros acc n. unfold SPH.surfaceContribution, Spec.near, Spec.distance2.
    destruct (Rlt_dec _ _); simpl; [f_equal; ring|reflexivity].
  - rewrite (fold_left_Rsum _ SPH.densityKernelGradientZ (Spec.near s position)
               (fun n => QVector3D.z
                  ((position [-] Particle.position (SPH.particle s n))
                   [*] (2 * SPH.densitykernelGradient s (Spec.distance2 s position n)
                        * Particle.mass (SPH.particle s n))))); [apply Rplus_0_l|].
    intros acc n. unfold SPH.surfaceContribution, Spec.near, Spec.distance2.
    destruct (Rlt_dec _ _); simpl; [f_equal; ring|reflexivity].
Qed.

(** * The kernels *)

Lemma initializeParticle_sameConfiguration (m : R) (s : SPH.t) (i : nat) :
  sameConfiguration s (SPH.initializeParticle m s i).
Proof. now destruct s. Qed.

Lemma initializeParticles_sameConfiguration (s : SPH.t) (v : R) :
  sameConfiguration s (SPH.initializeParticles s v).
Proof.
  unfold SPH.initializeParticles.
  generalize (v * SPH._restDensity s / INR (length (SPH._particles s))).
  generalize (seq 0 (length (SPH._particles s))).
  intros l m. revert s. induction l as [|i l IH]; intros s; simpl.
  - apply sameConfiguration_refl.
  - eapply sameConfiguration_trans;
      [apply initializeParticle_sameConfiguration|apply IH].
Qed.

(** C6.  On a constructed system of smoothing radius [h], the kernels are
    the reference formulas: [densityKernel(r²) = 315/(64 π h⁹)·(h² - r²)³],
    its gradient term is [-3·(315/(64 π h⁹))·(h² - r²)²],
    [pressureKernel(r) = 45/(π h⁶)·(h - r)²/r] for [r > 0] and 0 for
    [r = 0], and [viscosityKernel(r) = 45/(π h⁶)·(h - r)]. *)
Theorem kernels_match_reference
    (container : Geometry.t) (h viscosity pressure surfaceTension : R)
    (grid : Grid.t) (nbParticles : nat) (restDensity totalVolume maxDTime : R)
    (gravity : vec) (localInv : vec -> vec) (r2 r : R) :
  0 < h -> 0 < r ->
  let s := SPH.construct container h viscosity pressure surfaceTension grid
             nbParticles restDensity totalVolume maxDTime gravity localInv in
  SPH.densityKernel s r2 = 315 / (64 * PI * h ^ 9) * (h ^ 2 - r2) ^ 3
  /\ SPH.densitykernelGradient s r2
     = -3 * (315 / (64 * PI * h ^ 9)) * (h ^ 2 - r2) ^ 2
  /\ SPH.pressureKernel s r = 45 / (PI * h ^ 6) * (h - r) ^ 2 / r
  /\ SPH.pressureKernel s 0 = 0
  /\ SPH.viscosityKernel s r = 45 / (PI * h ^ 6) * (h - r).
Proof.
  intros Hh Hr s. subst s. unfold SPH.construct.
  destruct (sameConfiguration_kernels _ _
              (initializeParticles_sameConfiguration
                 (SPH.initializeCoefficients
                    (SPH.make container 0 0 0 restDensity h (h * h) viscosity
                       pressure surfaceTension maxDTime gravity
                       (repeat Particle.default nbParticles) grid localInv))
                 totalVolume))
    as (Hd & Hg & Hp & Hv).
  rewrite Hd, Hg, !Hp, Hv.
  unfold SPH.densityKernel, SPH.densitykernelGradient, SPH.pressureKernel,
    SPH.viscosityKernel, SPH.initializeCoefficients, SPH.M_PI.
  cbn [SPH._coeffPoly6 SPH._coeffSpiky SPH._coeffVisc SPH._smoothingRadius
       SPH._smoothingRadius2].
  pose proof PI_neq_0 as HPI.
  assert (h <> 0) by lra. assert (r <> 0) by lra.
  repeat split.
  - real_field; auto.
  - real_field; auto.
  - destruct (Req_dec_T r 0); [contradiction|]. real_field; auto.
  - destruct (Req_dec_T 0 0); [reflexivity|congruence].
  - real_field; auto.
Qed.

Lemma kernels_match_reference_witness :
  SPH.densityKernel Example.single 0.25
  = 315 / (64 * PI * 1 ^ 9) * (1 ^ 2 - 0.25) ^ 3
  /\ SPH.densitykernelGradient Example.single 0.25
     = -3 * (315 / (64 * PI * 1 ^ 9)) * (1 ^ 2 - 0.25) ^ 2
  /\ SPH.pressureKernel Example.single 0.5 = 45 / (PI * 1 ^ 6) * (1 - 0.5) ^ 2 / 0.5
  /\ SPH.pressureKernel Example.single 0 = 0
  /\ SPH.viscosityKernel Example.single 0.5 = 45 / (PI * 1 ^ 6) * (1 - 0.5).
Proof.
  apply (kernels_match_reference Example.openContainer 1 1 1 1 Example.oneCell
           1 1 1 1 Example.gravity (fun v => v) 0.25 0.5); lra.
Defined.

(** * The integrator *)

(** One iteration of the loop that takes the [else] branch. *)
Lemma collisionLoop_exit (container : Geometry.t) (fuel : nat)
    (position newPosition movement movementLeft velocity : vec) :
  noNearHit container position movement movementLeft ->
  SPH.collisionLoop container (S fuel) position newPosition movement
                    movementLeft velocity
  = Some (position [+] movement, velocity).
Proof.
  unfold noNearHit. simpl.
  destruct (Geometry.intersect _ _) as [hit|]; [|reflexivity].
  intros H. destruct (Rlt_dec _ _); [contradiction|reflexivity].
Qed.

(** One iteration of the loop that takes the collision branch. *)
Lemma collisionLoop_hit (container : Geometry.t) (fuel : nat)
    (position newPosition movement movementLeft velocity : vec)
    (hit : Geometry.Intersection) :
  Geometry.intersect container
    (Geometry.mkRay position (QVector3D.normalized movement)) = Some hit ->
  QVector3D.length (QVector3D.normalized movement [*] Geometry.rayParameterT hit)
  < QVector3D.length movementLeft ->
  SPH.collisionLoop container (S fuel) position newPosition movement
                    movementLeft velocity
  = let normal := Geometry.normal hit in
    let movementLeft := newPosition [-] Geometry.position hit in
    let movement :=
      movementLeft [-] normal [*] QVector3D.dotProduct movementLeft normal in
    let position := Geometry.position hit [-] normal [*] SPH.bias in
    SPH.collisionLoop container fuel position (position [+] movement) movement
      movementLeft
      (velocity [-] normal [*] QVector3D.dotProduct velocity normal).
Proof.
  intros Hhit Hnear. simpl. rewrite Hhit.
  destruct (Rlt_dec _ _); [reflexivity|contradiction].
Qed.

Lemma zero_length_noNearHit (container : Geometry.t)
    (position movement movementLeft : vec) :
  QVector3D.length movementLeft = 0 ->
  noNearHit container position movement movementLeft.
Proof.
  intros H0. unfold noNearHit.
  destruct (Geometry.intersect _ _) as [hit|]; [|exact I].
  rewrite H0.
  pose proof (length_nonneg (QVector3D.normalized movement
                             [*] Geometry.rayParameterT hit)). lra.
Qed.

(** What a completed iteration of [moveParticles] leaves. *)
Lemma moveParticle_result (fuel : nat) (deltaTime : R) (s s' : SPH.t)
    (i : nat) :
  (i < length (SPH._particles s))%nat ->
  SPH.moveParticle fuel deltaTime s i = Some s' ->
  exists position velocity,
    let p :=
      Particle.setVelocity
        (Particle.setPosition (SPH.particle s i) position) velocity in
    let newCellIndex := Grid.cellIndex (SPH._grid s) position in
    Spec.particleLoop fuel deltaTime s i = Some (position, velocity)
    /\ s' = if Nat.eqb (Particle.cellIndex (SPH.particle s i)) newCellIndex
            then SPH.setParticle s i p
            else SPH.setGrid
                   (SPH.setParticle s i (Particle.setCellIndex p newCellIndex))
                   (Grid.addParticle
                      (Grid.removeParticle (SPH._grid s)
                         (Particle.cellIndex (SPH.particle s i)) i)
                      newCellIndex i).
Proof.
  intros Hi. unfold SPH.moveParticle.
  fold (Spec.newVelocity s i deltaTime). fold (Spec.newPosition s i deltaTime).
  fold (Spec.displacement s i deltaTime). fold (Spec.particleLoop fuel deltaTime s i).
  destruct (Spec.particleLoop fuel deltaTime s i) as [[position velocity]|];
    [|discriminate].
  intros H. exists position, velocity. cbv zeta. split; [reflexivity|].
  rewrite particle_setParticle_eq in H by assumption.
  cbn [Particle.cellIndex Particle.setVelocity Particle.setPosition] in H.
  change (SPH._grid (SPH.setParticle s i
            (Particle.setVelocity
               (Particle.setPosition (SPH.particle s i) position) velocity)))
    with (SPH._grid s) in H.
  destruct (Nat.eqb _ _); injection H as <-; [reflexivity|].
  unfold SPH.setParticle, SPH.setGrid, SPH.setParticles.
  cbn [SPH._particles SPH._grid SPH._container SPH._coeffPoly6 SPH._coeffSpiky
       SPH._coeffVisc SPH._restDensity SPH._smoothingRadius
       SPH._smoothingRadius2 SPH._viscosity SPH._pressure SPH._surfaceTension
       SPH._maxDeltaTime SPH._gravity SPH.localInverted].
  now rewrite update_update.
Qed.

(** What [moveParticle] commits once the loop of the particle has exited. *)
Lemma moveParticle_commit (fuel : nat) (deltaTime : R) (s : SPH.t) (i : nat)
    (position velocity : vec) :
  (i < length (SPH._particles s))%nat ->
  Spec.particleLoop fuel deltaTime s i = Some (position, velocity) ->
  exists s',
    SPH.moveParticle fuel deltaTime s i = Some s'
    /\ SPH.particle s' i
       = Particle.setCellIndex
           (Particle.setVelocity
              (Particle.setPosition (SPH.particle s i) position) velocity)
           (Grid.cellIndex (SPH._grid s) position).
Proof.
  intros Hi Hloop.
  destruct (SPH.moveParticle fuel deltaTime s i) as [s'|] eqn:E.
  - exists s'. split; [reflexivity|].
    destruct (moveParticle_result _ _ _ _ _ Hi E) as (p & v & Hloop' & Hs').
    rewrite Hloop in Hloop'. injection Hloop' as <- <-. rewrite Hs'.
    destruct (Nat.eqb_spec (Particle.cellIndex (SPH.particle s i))
                (Grid.cellIndex (SPH._grid s) position)) as [Hc|Hc].
    + rewrite particle_setParticle_eq by assumption. rewrite <- Hc.
      now destruct (SPH.particle s i).
    + rewrite particle_setGrid. now apply particle_setParticle_eq.
  - exfalso. revert E. unfold SPH.moveParticle.
    fold (Spec.newVelocity s i deltaTime). fold (Spec.newPosition s i deltaTime).
    fold (Spec.displacement s i deltaTime).
    fold (Spec.particleLoop fuel deltaTime s i). rewrite Hloop.
    destruct (Nat.eqb _ _); discriminate.
Qed.

Lemma moveParticles_single (fuel : nat) (deltaTime : R) (s : SPH.t) :
  length (SPH._particles s) = 1%nat ->
  SPH.moveParticles fuel deltaTime s = SPH.moveParticle fuel deltaTime s 0.
Proof. intros H. unfold SPH.moveParticles. now rewrite H. Qed.

(** ** Termination of the collision loop *)

(** The result of the loop does not depend on the iterations that are
    left. *)
Lemma collisionLoop_fuel (container : Geometry.t) (fuel extra : nat)
    (position newPosition movement movementLeft velocity : vec)
    (r : vec * vec) :
  SPH.collisionLoop container fuel position newPosition movement movementLeft
                    velocity = Some r ->
  SPH.collisionLoop container (fuel + extra) position newPosition movement
                    movementLeft velocity = Some r.
Proof.
  revert position newPosition movement movementLeft velocity.
  induction fuel as [|fuel IH]; intros p np m ml v; [discriminate|].
  simpl. destruct (Geometry.intersect _ _) as [hit|]; [|auto].
  destruct (Rlt_dec _ _); [apply IH|auto].
Qed.

(** C4, as amended.  The collision loop has no bound on its iterations.  It
    exits at the first iteration in which the container reports no hit
    nearer than the remaining displacement; a remaining displacement of
    length zero therefore exits at once, whatever the container reports.
    The result is the position advanced by [movement] and the velocity. *)
Theorem collisionLoop_exits (container : Geometry.t) (fuel : nat)
    (position newPosition movement movementLeft velocity : vec) :
  QVector3D.length movementLeft = 0
  \/ noNearHit container position movement movementLeft ->
  SPH.collisionLoop container (S fuel) position newPosition movement
                    movementLeft velocity
  = Some (position [+] movement, velocity).
Proof.
  intros [H0|Hno]; apply collisionLoop_exit; [|assumption].
  now apply zero_length_noNearHit.
Qed.

Lemma collisionLoop_exits_witness :
  SPH.collisionLoop Example.grazing 1 QVector3D.null QVector3D.null
                    QVector3D.null QVector3D.null QVector3D.null
  = Some (QVector3D.null [+] QVector3D.null, QVector3D.null).
Proof.
  apply (collisionLoop_exits Example.grazing 0). left.
  unfold QVector3D.length, QVector3D.lengthSquared. simpl.
  replace (0 * 0 + 0 * 0 + 0 * 0) with 0 by ring. apply sqrt_0.
Defined.

(** In [Example.grazing] a displacement along [x] is never consumed: every
    iteration hits at parameter 0, keeps the displacement, which is
    tangent to the surface reported, and lowers the particle by the
    bias. *)
Lemma grazing_never_exits (fuel : nat) (position : vec) :
  SPH.collisionLoop Example.grazing fuel position
    (position [+] QVector3D.make 1 0 0) (QVector3D.make 1 0 0)
    (QVector3D.make 1 0 0) (QVector3D.make 1 0 0)
  = None.
Proof.
  revert position. induction fuel as [|fuel IH]; intros position; [reflexivity|].
  cbn [SPH.collisionLoop].
  rewrite normalized_unit by (vec_simpl; ring).
  cbn [Geometry.intersect Example.grazing Geometry.rayParameterT
       Geometry.normal Geometry.position Geometry.origin].
  destruct (Rlt_dec _ _) as [_|H].
  - rewrite <- (IH (position [-] QVector3D.make 0 1 0 [*] SPH.bias)).
    f_equal; apply vec_eq; vec_simpl; ring.
  - exfalso. apply H. unfold QVector3D.length. vec_simpl.
    replace (1 * 0 * (1 * 0) + 0 * 0 * (0 * 0) + 0 * 0 * (0 * 0)) with 0 by ring.
    replace (1 * 1 + 0 * 0 + 0 * 0) with 1 by ring.
    rewrite sqrt_0, sqrt_1. lra.
Qed.

(** C4 as it is stated fails on [Example.slider]: no number of iterations
    lets the integrator return. *)
Lemma collision_loop_unbounded_counterexample :
  ~ exists fuel s', SPH.moveParticles fuel 1 Example.slider = Some s'.
Proof.
  intros (fuel & s' & H).
  unfold SPH.moveParticles, SPH.moveParticle in H.
  cbn [Example.slider SPH._particles length seq fold_left SPH.particle nth
       Particle.velocity Particle.acceleration Particle.position
       SPH._container] in H.
  replace (QVector3D.make 1 0 0 [+] QVector3D.null [*] 1)
    with (QVector3D.make 1 0 0) in H by (apply vec_eq; vec_simpl; ring).
  replace (QVector3D.null [+] QVector3D.make 1 0 0 [*] 1 [-] QVector3D.null)
    with (QVector3D.make 1 0 0) in H by (apply vec_eq; vec_simpl; ring).
  replace (QVector3D.make 1 0 0 [*] 1)
    with (QVector3D.make 1 0 0) in H by (apply vec_eq; vec_simpl; ring).
  rewrite grazing_never_exits in H. discriminate.
Qed.

(** ** Collision with a plane *)

(** The response to a hit whose remaining displacement and velocity are
    along the unit normal: nothing is left of either. *)
Lemma head_on_response (n : vec) (a b : R) :
  QVector3D.dotProduct n n = 1 ->
  n [*] a [-] n [*] QVector3D.dotProduct (n [*] a) n = QVector3D.null
  /\ QVector3D.dotProduct
       (n [*] b [-] n [*] QVector3D.dotProduct (n [*] b) n) n = 0.
Proof.
  intros Hn. destruct n as [nx ny nz]. vec_simpl. split.
  - apply vec_eq; simpl.
    + replace (nx * a - nx * (nx * a * nx + ny * a * ny + nz * a * nz))
        with (nx * a * (1 - (nx * nx + ny * ny + nz * nz))) by ring.
      rewrite Hn. ring.
    + replace (ny * a - ny * (nx * a * nx + ny * a * ny + nz * a * nz))
        with (ny * a * (1 - (nx * nx + ny * ny + nz * nz))) by ring.
      rewrite Hn. ring.
    + replace (nz * a - nz * (nx * a * nx + ny * a * ny + nz * a * nz))
        with (nz * a * (1 - (nx * nx + ny * ny + nz * nz))) by ring.
      rewrite Hn. ring.
  - match goal with |- ?l = 0 =>
      replace l with (b * (nx * nx + ny * ny + nz * nz)
                      * (1 - (nx * nx + ny * ny + nz * nz))) by ring
    end.
    rewrite Hn. ring.
Qed.

(** C7.  A particle whose updated velocity is along the unit outward normal
    [n] of a boundary that its displacement crosses (the container reports
    the hit on the ray, nearer than the displacement, and nothing for the
    particle once it has come to rest) ends the integration step with a
    velocity whose component along [n] is zero, at the point of impact
    moved by the bias 0.0005 along [-n]. *)
Theorem head_on_collision (s : SPH.t) (i fuel : nat) (deltaTime speed : R)
    (n : vec) (hit : Geometry.Intersection) :
  let p := Particle.position (SPH.particle s i) in
  let direction := QVector3D.normalized (Spec.displacement s i deltaTime) in
  (i < length (SPH._particles s))%nat ->
  Spec.newVelocity s i deltaTime = n [*] speed ->
  QVector3D.dotProduct n n = 1 ->
  Geometry.intersect (SPH._container s) (Geometry.mkRay p direction)
  = Some hit ->
  Geometry.normal hit = n ->
  Geometry.position hit = p [+] direction [*] Geometry.rayParameterT hit ->
  QVector3D.length (direction [*] Geometry.rayParameterT hit)
  < QVector3D.length (Spec.displacement s i deltaTime) ->
  noNearHit (SPH._container s) (Geometry.position hit [-] n [*] SPH.bias)
            QVector3D.null
            (Spec.newPosition s i deltaTime [-] Geometry.position hit) ->
  SPH.bias = 0.0005
  /\ exists s',
      SPH.moveParticle (S (S fuel)) deltaTime s i = Some s'
      /\ QVector3D.dotProduct (Particle.velocity (SPH.particle s' i)) n = 0
      /\ Particle.position (SPH.particle s' i)
         = Geometry.position hit [-] n [*] SPH.bias.
Proof.
  intros p direction Hi Hv Hn Hhit Hnormal Hpos Hnear Hno.
  split; [reflexivity|].
  assert (Hm : Spec.displacement s i deltaTime = n [*] (speed * deltaTime)).
  { unfold Spec.displacement, Spec.newPosition. rewrite Hv.
    apply vec_eq; vec_simpl; ring. }
  destruct (normalized_parallel n (speed * deltaTime)) as [c Hc].
  rewrite <- Hm in Hc. fold direction in Hc.
  assert (Hleft : Spec.newPosition s i deltaTime [-] Geometry.position hit
                  = n [*] (speed * deltaTime - c * Geometry.rayParameterT hit)).
  { rewrite Hpos, Hc. unfold Spec.newPosition. rewrite Hv. fold p.
    apply vec_eq; vec_simpl; ring. }
  destruct (head_on_response n
              (speed * deltaTime - c * Geometry.rayParameterT hit) speed Hn)
    as [Hmove Hvel].
  destruct (moveParticle_commit (S (S fuel)) deltaTime s i
              (Geometry.position hit [-] n [*] SPH.bias)
              (Spec.newVelocity s i deltaTime
               [-] n [*] QVector3D.dotProduct (Spec.newVelocity s i deltaTime) n)
              Hi)
    as (s' & Hs' & Hp').
  { unfold Spec.particleLoop. fold p.
    rewrite (collisionLoop_hit _ _ _ _ _ _ _ hit Hhit Hnear). cbv zeta.
    rewrite Hnormal, Hleft, Hmove.
    rewrite collisionLoop_exit.
    - now rewrite vadd_null_r.
    - rewrite <- Hleft. exact Hno. }
  exists s'. split; [exact Hs'|]. rewrite Hp'.
  cbn [Particle.velocity Particle.position Particle.setCellIndex
       Particle.setVelocity Particle.setPosition].
  split; [|reflexivity]. rewrite Hv. exact Hvel.
Qed.

(** A ray without direction does not hit the plane. *)
Lemma halfSpace_point_ray (n : vec) (d : R) (origin : vec) :
  Geometry.intersect (Example.halfSpace n d)
                     (Geometry.mkRay origin QVector3D.null)
  = None.
Proof.
  cbn [Example.halfSpace Geometry.intersect Geometry.direction].
  replace (QVector3D.dotProduct n QVector3D.null) with 0 by (vec_simpl; ring).
  destruct (Req_dec_T 0 0); [reflexivity|congruence].
Qed.

(** The normalized form of a vector is a multiple of the vector. *)
Lemma normalized_scale (u : vec) :
  exists c, QVector3D.normalized u = u [*] c.
Proof.
  unfold QVector3D.normalized.
  destruct (QVector3D.qFuzzyIsNull (_ - 1)).
  - exists 1. apply vec_eq; vec_simpl; ring.
  - destruct (negb _).
    + exists (/ sqrt (QVector3D.lengthSquared u)).
      apply vec_eq; unfold QVector3D.divide, QVector3D.scale; simpl;
        unfold Rdiv; ring.
    + exists 0. apply vec_eq; vec_simpl; ring.
Qed.

Lemma halfSpace_normal (n : vec) (d : R) (ray : Geometry.Ray)
    (hit : Geometry.Intersection) :
  Geometry.intersect (Example.halfSpace n d) ray = Some hit ->
  Geometry.normal hit = n.
Proof.
  cbn [Example.halfSpace Geometry.intersect].
  destruct (Req_dec_T _ _); [discriminate|].
  destruct (Rlt_dec _ _); [discriminate|].
  now intros [= <-].
Qed.

(** A ray along the plane does not hit it. *)
Lemma halfSpace_tangent (n : vec) (d : R) (origin direction : vec) :
  QVector3D.dotProduct n direction = 0 ->
  Geometry.intersect (Example.halfSpace n d) (Geometry.mkRay origin direction)
  = None.
Proof.
  intros H. cbn [Example.halfSpace Geometry.intersect Geometry.direction].
  rewrite H. destruct (Req_dec_T 0 0); [reflexivity|congruence].
Qed.

Lemma dotProduct_scale (u v : vec) (c : R) :
  QVector3D.dotProduct u (v [*] c) = c * QVector3D.dotProduct u v.
Proof. vec_simpl. ring. Qed.

(** What is left of a displacement after a hit is tangent to the surface. *)
Lemma response_tangent (n u : vec) :
  QVector3D.dotProduct n n = 1 ->
  QVector3D.dotProduct n (u [-] n [*] QVector3D.dotProduct u n) = 0.
Proof.
  intros Hn. destruct n as [nx ny nz], u as [ux uy uz]. vec_simpl.
  match goal with |- ?l = 0 =>
    replace l with ((nx * ux + ny * uy + nz * uz)
                    * (1 - (nx * nx + ny * ny + nz * nz))) by ring
  end.
  rewrite Hn. ring.
Qed.

(** In a half-space container the collision loop exits within two
    iterations: after a hit the displacement is along the plane. *)
Lemma halfSpace_two_iterations (n : vec) (d : R) (fuel : nat)
    (position newPosition movement movementLeft velocity : vec) :
  QVector3D.dotProduct n n = 1 ->
  exists r,
    SPH.collisionLoop (Example.halfSpace n d) (S (S fuel)) position newPosition
                      movement movementLeft velocity = Some r.
Proof.
  intros Hn.
  destruct (Geometry.intersect (Example.halfSpace n d)
              (Geometry.mkRay position (QVector3D.normalized movement)))
    as [hit|] eqn:Hhit.
  - destruct (Rlt_dec
                (QVector3D.length
                   (QVector3D.normalized movement [*] Geometry.rayParameterT hit))
                (QVector3D.length movementLeft)) as [Hnear|Hfar].
    + rewrite (collisionLoop_hit _ _ _ _ _ _ _ hit Hhit Hnear). cbv zeta.
      rewrite (halfSpace_normal _ _ _ _ Hhit).
      eexists. apply collisionLoop_exit. unfold noNearHit.
      destruct (normalized_scale
                  (newPosition [-] Geometry.position hit
                   [-] n [*] QVector3D.dotProduct
                               (newPosition [-] Geometry.position hit) n))
        as [c Hc].
      rewrite Hc, halfSpace_tangent; [exact I|].
      pose proof (response_tangent n (newPosition [-] Geometry.position hit) Hn)
        as Ht.
      rewrite dotProduct_scale, Ht. ring.
    + eexists. apply collisionLoop_exit. unfold noNearHit. now rewrite Hhit.
  - eexists. apply collisionLoop_exit. unfold noNearHit. now rewrite Hhit.
Qed.

Lemma faller_hit :
  Geometry.intersect (SPH._container Example.faller)
    (Geometry.mkRay QVector3D.null (QVector3D.make 0 (-1) 0))
  = Some (Geometry.mkIntersection
            (QVector3D.null [+] QVector3D.make 0 (-1) 0 [*] ((0.5 - 0) / 1))
            (QVector3D.make 0 (-1) 0) ((0.5 - 0) / 1)).
Proof.
  cbn [Example.faller SPH._container Example.halfSpace Geometry.intersect
       Geometry.direction Geometry.origin].
  replace (QVector3D.dotProduct (QVector3D.make 0 (-1) 0) (QVector3D.make 0 (-1) 0))
    with 1 by (vec_simpl; ring).
  replace (QVector3D.dotProduct (QVector3D.make 0 (-1) 0) QVector3D.null)
    with 0 by (vec_simpl; ring).
  destruct (Req_dec_T 1 0); [lra|].
  destruct (Rlt_dec _ _); [lra|]. reflexivity.
Qed.

Lemma faller_displacement :
  Spec.displacement Example.faller 0 1 = QVector3D.make 0 (-1) 0.
Proof.
  unfold Spec.displacement, Spec.newPosition, Spec.newVelocity.
  apply vec_eq; vec_simpl; ring.
Qed.

Lemma head_on_collision_witness :
  SPH.bias = 0.0005
  /\ exists s',
      SPH.moveParticle 2 1 Example.faller 0 = Some s'
      /\ QVector3D.dotProduct (Particle.velocity (SPH.particle s' 0))
                              (QVector3D.make 0 (-1) 0) = 0
      /\ Particle.position (SPH.particle s' 0)
         = QVector3D.make 0 (-0.5) 0 [-] QVector3D.make 0 (-1) 0 [*] SPH.bias.
Proof.
  assert (Hdir : QVector3D.normalized (QVector3D.make 0 (-1) 0)
                 = QVector3D.make 0 (-1) 0)
    by (apply normalized_unit; vec_simpl; ring).
  assert (Hpos : QVector3D.null [+] QVector3D.make 0 (-1) 0 [*] ((0.5 - 0) / 1)
                 = QVector3D.make 0 (-0.5) 0)
    by (apply vec_eq; vec_simpl; lra).
  rewrite <- Hpos.
  apply (head_on_collision Example.faller 0 0 1 1 (QVector3D.make 0 (-1) 0)
           (Geometry.mkIntersection
              (QVector3D.null [+] QVector3D.make 0 (-1) 0 [*] ((0.5 - 0) / 1))
              (QVector3D.make 0 (-1) 0) ((0.5 - 0) / 1)));
    rewrite ?faller_displacement, ?Hdir;
    cbn [Geometry.normal Geometry.position Geometry.rayParameterT].
  - simpl. lia.
  - unfold Spec.newVelocity. apply vec_eq; vec_simpl; ring.
  - vec_simpl; ring.
  - apply faller_hit.
  - reflexivity.
  - reflexivity.
  - unfold QVector3D.length. apply sqrt_lt_1_alt. vec_simpl. lra.
  - unfold noNearHit. rewrite normalized_null.
    change (SPH._container Example.faller)
      with (Example.halfSpace (QVector3D.make 0 (-1) 0) 0.5).
    now rewrite halfSpace_point_ray.
Defined.

(** ** One particle on its own *)

Lemma erase_sameConfiguration (s s' : SPH.t) :
  eraseAcceleration s' = eraseAcceleration s ->
  sameConfiguration s s' /\ SPH._grid s' = SPH._grid s.
Proof.
  intros H. unfold sameConfiguration.
  assert (E : SPH.setGrid
                (SPH.setParticles (eraseAcceleration s') (SPH._particles s))
                (SPH._grid s) = s)
    by (rewrite H; now destruct s).
  split.
  - rewrite <- E at 3. now destruct s'.
  - change (SPH._grid (eraseAcceleration s') = SPH._grid s). now rewrite H.
Qed.

Lemma computeForces_erase (s : SPH.t) :
  eraseAcceleration (SPH.computeForces s) = eraseAcceleration s.
Proof. apply computeForce_loop_erase. Qed.

(** With itself as its only neighbour, a particle is accelerated by gravity
    alone. *)
Lemma computeForces_alone (s : SPH.t) (i : nat) :
  (i < length (SPH._particles s))%nat ->
  Spec.neighborsOf s i = [i] ->
  Spec.pressureSum s i = QVector3D.null
  /\ Spec.viscositySum s i = QVector3D.null
  /\ Spec.tensionSum s i = QVector3D.null
  /\ Particle.acceleration (SPH.particle (SPH.computeForces s) i)
     = SPH.localInverted s (SPH._gravity s).
Proof.
  intros Hi Hn.
  assert (HP : Spec.pressureSum s i = QVector3D.null)
    by (unfold Spec.pressureSum, Spec.difference; rewrite Hn;
        apply vsum_single_null).
  assert (HV : Spec.viscositySum s i = QVector3D.null)
    by (unfold Spec.viscositySum; rewrite Hn; apply vsum_single_null).
  assert (HT : Spec.tensionSum s i = QVector3D.null)
    by (unfold Spec.tensionSum, Spec.difference; rewrite Hn;
        apply vsum_single_null).
  repeat split; try assumption.
  rewrite computeForces_particle by assumption. rewrite HP, HV, HT.
  cbn [Particle.acceleration Particle.setAcceleration].
  apply vec_eq; vec_simpl; unfold Rdiv; ring.
Qed.

(** One step of a system of one particle at rest under the gravity
    [(0, -9.8, 0)], with a time step of 0.01 and no hit along the
    displacement. *)
Lemma lone_particle_step (s : SPH.t) (fuel : nat) :
  length (SPH._particles s) = 1%nat ->
  wellFormed s ->
  Spec.neighborsOf s 0 = [0%nat] ->
  Particle.velocity (SPH.particle s 0) = QVector3D.null ->
  SPH.localInverted s (SPH._gravity s) = QVector3D.make 0 (-9.8) 0 ->
  0.01 <= SPH._maxDeltaTime s ->
  noNearHit (SPH._container s) (Particle.position (SPH.particle s 0))
            (QVector3D.make 0 (-0.00098) 0) (QVector3D.make 0 (-0.00098) 0) ->
  let densities := SPH.computeDensities s in
  let forces := SPH.computeForces densities in
  0 < Spec.correctionSum s 0
  /\ 0 < Spec.forceCorrection densities 0
  /\ Spec.pressureSum densities 0 = QVector3D.null
  /\ Spec.viscositySum densities 0 = QVector3D.null
  /\ Spec.tensionSum densities 0 = QVector3D.null
  /\ Particle.acceleration (SPH.particle forces 0) = QVector3D.make 0 (-9.8) 0
  /\ exists s',
      SPH.animate (S fuel) s 0.01 = Some s'
      /\ Particle.velocity (SPH.particle s' 0) = QVector3D.make 0 (-0.098) 0
      /\ Particle.position (SPH.particle s' 0)
         = Particle.position (SPH.particle s 0) [+] QVector3D.make 0 (-0.00098) 0
      /\ Particle.cellIndex (SPH.particle s' 0)
         = Grid.cellIndex (SPH._grid s)
             (Particle.position (SPH.particle s 0)
              [+] QVector3D.make 0 (-0.00098) 0).
Proof.
  intros HL WF Hn Hv Hg Hmax Hhit densities forces.
  pose proof (computeDensities_sameGeometry s) as G1. fold densities in G1.
  destruct (sameGeometry_sameConfiguration _ _ G1) as (C1 & Hgrid1).
  destruct (sameConfiguration_fields _ _ C1) as (Hc1 & Hm1 & Hg1 & Hl1 & _).
  pose proof (computeForces_erase densities) as E2. fold forces in E2.
  destruct (erase_sameConfiguration _ _ E2) as (C2 & Hgrid2).
  destruct (sameConfiguration_fields _ _ C2) as (Hc2 & Hm2 & _).
  destruct (erase_eq_fields _ _ E2) as (_ & _ & _ & HL2).
  pose proof G1 as (_ & HL1 & HP1).
  destruct (HP1 0%nat) as (Hpos1 & _ & _ & Hvel1 & _).
  assert (Hi1 : (0 < length (SPH._particles densities))%nat) by lia.
  assert (Hn1 : Spec.neighborsOf densities 0 = [0%nat])
    by (rewrite (sameGeometry_neighborsOf _ _ _ G1); exact Hn).
  destruct (computeForces_alone _ 0 Hi1 Hn1) as (HPs & HVs & HTs & Hacc).
  rewrite Hg1, Hl1, Hg in Hacc. fold forces in Hacc.
  assert (Hp2 : SPH.particle forces 0
                = Particle.setAcceleration (SPH.particle densities 0)
                    (QVector3D.make 0 (-9.8) 0)).
  { unfold forces. rewrite computeForces_particle by assumption.
    unfold forces in Hacc. rewrite computeForces_particle in Hacc by assumption.
    cbn [Particle.acceleration Particle.setAcceleration] in Hacc.
    now rewrite Hacc. }
  split; [apply (wellFormed_sums_pos s 0 WF); lia|].
  split; [apply forceCorrection_pos; [assumption|lia]|].
  repeat (split; [assumption|]).
  unfold SPH.animate.
  destruct (Rgt_dec 0.01 (SPH._maxDeltaTime s)) as [Hgt|_]; [lra|].
  fold densities. fold forces.
  rewrite moveParticles_single by lia.
  assert (Hi2 : (0 < length (SPH._particles forces))%nat) by lia.
  assert (Hvelocity : Spec.newVelocity forces 0 0.01
                      = QVector3D.make 0 (-0.098) 0).
  { unfold Spec.newVelocity. rewrite Hp2.
    cbn [Particle.velocity Particle.acceleration Particle.setAcceleration].
    rewrite Hvel1, Hv. apply vec_eq; vec_simpl; lra. }
  assert (Hposition : Particle.position (SPH.particle forces 0)
                      = Particle.position (SPH.particle s 0)).
  { rewrite Hp2. cbn [Particle.position Particle.setAcceleration]. exact Hpos1. }
  assert (Hdisplacement : Spec.displacement forces 0 0.01
                          = QVector3D.make 0 (-0.00098) 0).
  { unfold Spec.displacement, Spec.newPosition. rewrite Hvelocity.
    apply vec_eq; vec_simpl; lra. }
  destruct (moveParticle_commit (S fuel) 0.01 forces 0
              (Particle.position (SPH.particle s 0)
               [+] QVector3D.make 0 (-0.00098) 0)
              (QVector3D.make 0 (-0.098) 0) Hi2)
    as (s' & Hs' & Hp').
  { unfold Spec.particleLoop.
    rewrite Hvelocity, Hposition, Hdisplacement.
    apply collisionLoop_exit. rewrite Hc2, Hc1. exact Hhit. }
  exists s'. split; [exact Hs'|]. rewrite Hp', Hgrid2, Hgrid1.
  repeat split.
Qed.

(** C8.  A system of one particle at rest whose only neighbour is itself,
    under the gravity [(0, -9.8, 0)], with a time step of 0.01 that the
    clamp leaves as it is and no hit of the container along the
    displacement: the three sums of the force solver are null and its two
    divisions are by positive numbers, the acceleration is the gravity, and
    one step (densities, forces, integration) ends with the velocity
    [(0, -0.098, 0)] and the position moved by [(0, -0.00098, 0)], the
    position being advanced with the new velocity. *)
Theorem free_fall_step (s : SPH.t) (fuel : nat) :
  length (SPH._particles s) = 1%nat ->
  wellFormed s ->
  Spec.neighborsOf s 0 = [0%nat] ->
  Particle.velocity (SPH.particle s 0) = QVector3D.null ->
  SPH.localInverted s (SPH._gravity s) = QVector3D.make 0 (-9.8) 0 ->
  0.01 <= SPH._maxDeltaTime s ->
  noNearHit (SPH._container s) (Particle.position (SPH.particle s 0))
            (QVector3D.make 0 (-0.00098) 0) (QVector3D.make 0 (-0.00098) 0) ->
  let densities := SPH.computeDensities s in
  let forces := SPH.computeForces densities in
  (0 < Spec.correctionSum s 0 /\ 0 < Spec.forceCorrection densities 0)
  /\ (Spec.pressureSum densities 0 = QVector3D.null
      /\ Spec.viscositySum densities 0 = QVector3D.null
      /\ Spec.tensionSum densities 0 = QVector3D.null)
  /\ Particle.acceleration (SPH.particle forces 0) = QVector3D.make 0 (-9.8) 0
  /\ exists s',
      SPH.animate (S fuel) s 0.01 = Some s'
      /\ Particle.velocity (SPH.particle s' 0)
         = Particle.velocity (SPH.particle s 0)
           [+] Particle.acceleration (SPH.particle forces 0) [*] 0.01
      /\ Particle.velocity (SPH.particle s' 0) = QVector3D.make 0 (-0.098) 0
      /\ Particle.position (SPH.particle s' 0)
         = Particle.position (SPH.particle s 0)
           [+] Particle.velocity (SPH.particle s' 0) [*] 0.01
      /\ Particle.position (SPH.particle s' 0)
         = Particle.position (SPH.particle s 0) [+] QVector3D.make 0 (-0.00098) 0.
Proof.
  intros HL WF Hn Hv Hg Hmax Hhit densities forces.
  destruct (lone_particle_step s fuel HL WF Hn Hv Hg Hmax Hhit)
    as (Hc1 & Hc2 & HP & HV & HT & Hacc & s' & Hs' & Hvel & Hpos & _).
  fold densities in Hc2, HP, HV, HT, Hacc. fold forces in Hacc.
  repeat split; try assumption.
  exists s'. rewrite Hvel, Hpos, Hv, Hacc.
  repeat split; try assumption; apply vec_eq; vec_simpl; lra.
Qed.

Lemma free_fall_step_witness :
  let densities := SPH.computeDensities Example.single in
  let forces := SPH.computeForces densities in
  (0 < Spec.correctionSum Example.single 0
   /\ 0 < Spec.forceCorrection densities 0)
  /\ (Spec.pressureSum densities 0 = QVector3D.null
      /\ Spec.viscositySum densities 0 = QVector3D.null
      /\ Spec.tensionSum densities 0 = QVector3D.null)
  /\ Particle.acceleration (SPH.particle forces 0) = QVector3D.make 0 (-9.8) 0
  /\ exists s',
      SPH.animate 1 Example.single 0.01 = Some s'
      /\ Particle.velocity (SPH.particle s' 0)
         = Particle.velocity (SPH.particle Example.single 0)
           [+] Particle.acceleration (SPH.particle forces 0) [*] 0.01
      /\ Particle.velocity (SPH.particle s' 0) = QVector3D.make 0 (-0.098) 0
      /\ Particle.position (SPH.particle s' 0)
         = Particle.position (SPH.particle Example.single 0)
           [+] Particle.velocity (SPH.particle s' 0) [*] 0.01
      /\ Particle.position (SPH.particle s' 0)
         = Particle.position (SPH.particle Example.single 0)
           [+] QVector3D.make 0 (-0.00098) 0.
Proof.
  apply (free_fall_step Example.single 0).
  - apply single_length.
  - apply single_wellFormed.
  - apply single_neighborsOf.
  - rewrite single_eq. reflexivity.
  - reflexivity.
  - simpl. lra.
  - exact I.
Defined.

(** * Grid consistency *)

(** ** Seeding *)

Lemma initializeParticle_length (m : R) (s : SPH.t) (i : nat) :
  length (SPH._particles (SPH.initializeParticle m s i))
  = length (SPH._particles s).
Proof. unfold SPH.initializeParticle. simpl. apply update_length. Qed.

Lemma initializeParticles_seeded (m : R) (s : SPH.t) (k : nat) :
  (forall cell, Grid.cellParticles (SPH._grid s) cell = []) ->
  (k <= length (SPH._particles s))%nat ->
  let s' := fold_left (SPH.initializeParticle m) (seq 0 k) s in
  length (SPH._particles s') = length (SPH._particles s)
  /\ (forall i, (i < k)%nat ->
        Particle.cellIndex (SPH.particle s' i)
        = Grid.cellIndex (SPH._grid s') (Particle.position (SPH.particle s' i))
        /\ forall cell,
            count_occ Nat.eq_dec (Grid.cellParticles (SPH._grid s') cell) i
            = if Nat.eqb cell (Particle.cellIndex (SPH.particle s' i))
              then 1%nat else 0%nat)
  /\ (forall i cell, (k <= i)%nat ->
        count_occ Nat.eq_dec (Grid.cellParticles (SPH._grid s') cell) i = 0%nat).
Proof.
  intros Hempty. induction k as [|k IH]; intros Hk s'.
  - subst s'. simpl. split; [reflexivity|]. split; [intros i Hi; lia|].
    intros i cell _. now rewrite Hempty.
  - subst s'. rewrite fold_left_seq_S.
    destruct IH as (HL & Hdone & Htodo); [lia|].
    set (st := fold_left (SPH.initializeParticle m) (seq 0 k) s) in *.
    assert (Hkst : (k < length (SPH._particles st))%nat) by lia.
    split; [rewrite initializeParticle_length; exact HL|].
    unfold SPH.initializeParticle.
    cbn [SPH._grid SPH.setGrid SPH.setParticle SPH.setParticles
         Grid.cellParticles Grid.addParticle Grid.cellIndex].
    rewrite particle_setParticle_eq by assumption.
    cbn [Particle.cellIndex Particle.position Particle.setCellIndex
         Particle.setPosition].
    set (c := Grid.cellIndex (SPH._grid st)
                (Geometry.randomInteriorPoint (SPH._container st) k)).
    split.
    + intros i Hi. rewrite particle_setGrid.
      destruct (Nat.eq_dec i k) as [->|Hik].
      * rewrite particle_setParticle_eq by assumption.
        cbn [Particle.cellIndex Particle.position Particle.setCellIndex
             Particle.setPosition]. split; [reflexivity|].
        intros cell. fold c. destruct (Nat.eqb_spec cell c) as [->|Hc].
        -- rewrite count_occ_add, Htodo, Nat.eqb_refl by lia. reflexivity.
        -- apply Htodo. lia.
      * rewrite particle_setParticle_neq by auto.
        destruct (Hdone i) as [Hcell Hcount]; [lia|]. split; [exact Hcell|].
        intros cell. destruct (Nat.eqb_spec cell c) as [->|Hc].
        -- rewrite count_occ_add. destruct (Nat.eqb_spec k i); [lia|].
           rewrite Nat.add_0_r. apply Hcount.
        -- apply Hcount.
    + intros i cell Hi. destruct (Nat.eqb_spec cell c) as [->|Hc].
      * rewrite count_occ_add, Htodo by lia.
        destruct (Nat.eqb_spec k i); [lia|reflexivity].
      * apply Htodo. lia.
Qed.

Lemma construct_gridConsistent
    (container : Geometry.t) (h viscosity pressure surfaceTension : R)
    (grid : Grid.t) (nbParticles : nat) (restDensity totalVolume maxDTime : R)
    (gravity : vec) (localInv : vec -> vec) :
  (forall cell, Grid.cellParticles grid cell = []) ->
  gridConsistent
    (SPH.construct container h viscosity pressure surfaceTension grid
       nbParticles restDensity totalVolume maxDTime gravity localInv).
Proof.
  intros Hempty. unfold SPH.construct, SPH.initializeParticles.
  set (s0 := SPH.initializeCoefficients _).
  set (m := totalVolume * _ / _).
  destruct (initializeParticles_seeded m s0 (length (SPH._particles s0)) Hempty
              (le_n _)) as (HL & Hdone & _).
  intros i Hi. apply Hdone. now rewrite <- HL.
Qed.

(** ** Re-bucketing *)

Lemma moveParticle_gridConsistent (fuel : nat) (deltaTime : R) (s s' : SPH.t)
    (i : nat) :
  (i < length (SPH._particles s))%nat ->
  SPH.moveParticle fuel deltaTime s i = Some s' ->
  length (SPH._particles s') = length (SPH._particles s)
  /\ (gridConsistent s -> gridConsistent s').
Proof.
  intros Hi Hmove.
  destruct (moveParticle_result _ _ _ _ _ Hi Hmove)
    as (position & velocity & _ & E).
  cbv zeta in E.
  set (p := Particle.setVelocity _ velocity) in E.
  set (new := Grid.cellIndex (SPH._grid s) position) in E.
  set (old := Particle.cellIndex (SPH.particle s i)) in E.
  destruct (Nat.eqb_spec old new) as [Hsame|Hdiff]; subst s'.
  - split; [apply update_length|]. intros HC j Hj.
    assert (Hj' : (j < length (SPH._particles s))%nat)
      by (revert Hj; simpl; now rewrite update_length).
    change (SPH._grid (SPH.setParticle s i p)) with (SPH._grid s).
    destruct (Nat.eq_dec i j) as [<-|Hji].
    + rewrite particle_setParticle_eq by assumption.
      destruct (HC i Hi) as [_ Hcount]. split; [exact Hsame|exact Hcount].
    + rewrite particle_setParticle_neq by assumption. apply (HC j Hj').
  - split; [simpl; apply update_length|]. intros HC j Hj.
    assert (Hj' : (j < length (SPH._particles s))%nat)
      by (revert Hj; simpl; now rewrite update_length).
    rewrite particle_setGrid.
    cbn [SPH._grid SPH.setGrid Grid.cellIndex Grid.cellParticles
         Grid.addParticle Grid.removeParticle].
    destruct (Nat.eq_dec i j) as [<-|Hji].
    + rewrite particle_setParticle_eq by assumption.
      cbn [Particle.cellIndex Particle.position Particle.setCellIndex].
      split; [reflexivity|]. intros cell.
      destruct (HC i Hi) as [_ Hcount]. specialize (Hcount cell). fold old in Hcount.
      destruct (Nat.eqb_spec cell new) as [Hc|Hnew].
      * rewrite Hc in *. rewrite count_occ_add, Nat.eqb_refl.
        destruct (Nat.eqb_spec new old); [congruence|].
        rewrite Hcount. reflexivity.
      * destruct (Nat.eqb_spec cell old) as [Hc|Hold].
        -- rewrite Hc in *. rewrite count_occ_removeOne, Nat.eqb_refl, Hcount.
           reflexivity.
        -- exact Hcount.
    + rewrite particle_setParticle_neq by assumption.
      destruct (HC j Hj') as [Hcell Hcount]. split; [exact Hcell|].
      intros cell. specialize (Hcount cell).
      destruct (Nat.eqb_spec cell new).
      * rewrite count_occ_add. destruct (Nat.eqb_spec i j); [congruence|].
        rewrite Nat.add_0_r.
        destruct (Nat.eqb_spec cell old).
        -- rewrite count_occ_removeOne.
           destruct (Nat.eqb_spec i j); [congruence|]. rewrite Nat.sub_0_r.
           exact Hcount.
        -- exact Hcount.
      * destruct (Nat.eqb_spec cell old).
        -- rewrite count_occ_removeOne.
           destruct (Nat.eqb_spec i j); [congruence|]. rewrite Nat.sub_0_r.
           exact Hcount.
        -- exact Hcount.
Qed.

Lemma moveParticles_gridConsistent (fuel : nat) (deltaTime : R) (s s' : SPH.t) :
  SPH.moveParticles fuel deltaTime s = Some s' ->
  gridConsistent s -> gridConsistent s'.
Proof.
  unfold SPH.moveParticles.
  set (step := fun (os : option SPH.t) (i : nat) => _).
  assert (Hnone : forall l, fold_left step l None = None)
    by (induction l; simpl; auto).
  assert (H : forall l st,
             (forall i, In i l -> (i < length (SPH._particles st))%nat) ->
             fold_left step l (Some st) = Some s' ->
             gridConsistent st -> gridConsistent s').
  { induction l as [|i l IH]; intros st Hl Hfold HC; simpl in Hfold.
    - now injection Hfold as <-.
    - destruct (SPH.moveParticle fuel deltaTime st i) as [st'|] eqn:E.
      + destruct (moveParticle_gridConsistent _ _ _ _ _ (Hl i (or_introl eq_refl)) E)
          as [HL Hstep].
        apply (IH st'); auto.
        intros j Hj. rewrite HL. apply Hl. now right.
      + now rewrite Hnone in Hfold. }
  apply H. intros i Hi. apply in_seq in Hi. lia.
Qed.

Lemma gridConsistent_ext (s s' : SPH.t) :
  SPH._grid s' = SPH._grid s ->
  length (SPH._particles s') = length (SPH._particles s) ->
  (forall n,
      Particle.position (SPH.particle s' n)
      = Particle.position (SPH.particle s n)
      /\ Particle.cellIndex (SPH.particle s' n)
         = Particle.cellIndex (SPH.particle s n)) ->
  gridConsistent s -> gridConsistent s'.
Proof.
  intros Hg HL HP HC i Hi. rewrite Hg. destruct (HP i) as [-> ->].
  apply HC. now rewrite <- HL.
Qed.

Lemma computeDensities_gridConsistent (s : SPH.t) :
  gridConsistent s -> gridConsistent (SPH.computeDensities s).
Proof.
  pose proof (computeDensities_sameGeometry s) as G.
  destruct (sameGeometry_sameConfiguration _ _ G) as [_ Hg].
  destruct G as (_ & HL & HP).
  apply gridConsistent_ext; auto.
  intros n. destruct (HP n) as (? & _ & ? & _). auto.
Qed.

Lemma computeForces_gridConsistent (s : SPH.t) :
  gridConsistent s -> gridConsistent (SPH.computeForces s).
Proof.
  pose proof (computeForces_erase s) as E.
  destruct (erase_sameConfiguration _ _ E) as [_ Hg].
  destruct (erase_eq_fields _ _ E) as (_ & _ & _ & HL).
  apply gridConsistent_ext; auto.
  intros n.
  assert (En : SPH.particle (eraseAcceleration (SPH.computeForces s)) n
               = SPH.particle (eraseAcceleration s) n) by now rewrite E.
  rewrite !particle_eraseAcceleration in En.
  split.
  - change (Particle.position
              (Particle.setAcceleration (SPH.particle (SPH.computeForces s) n)
                                        QVector3D.null)
            = Particle.position
                (Particle.setAcceleration (SPH.particle s n) QVector3D.null)).
    now rewrite En.
  - change (Particle.cellIndex
              (Particle.setAcceleration (SPH.particle (SPH.computeForces s) n)
                                        QVector3D.null)
            = Particle.cellIndex
                (Particle.setAcceleration (SPH.particle s n) QVector3D.null)).
    now rewrite En.
Qed.

Lemma animate_gridConsistent (fuel : nat) (s s' : SPH.t) (timeDelta : R) :
  SPH.animate fuel s timeDelta = Some s' ->
  gridConsistent s -> gridConsistent s'.
Proof.
  unfold SPH.animate. intros H HC.
  eapply moveParticles_gridConsistent; [exact H|].
  now apply computeForces_gridConsistent, computeDensities_gridConsistent.
Qed.

(** C10.  Grid consistency holds on the constructed system, whose grid
    starts with empty buckets, and on every state that completed
    simulation steps make of it: the stored cell index of every particle
    is the cell of its position, its index occurs in the bucket of that
    cell, once, and in no other bucket. *)
Theorem grid_consistency
    (container : Geometry.t) (h viscosity pressure surfaceTension : R)
    (grid : Grid.t) (nbParticles : nat) (restDensity totalVolume maxDTime : R)
    (gravity : vec) (localInv : vec -> vec) (s : SPH.t) :
  (forall cell, Grid.cellParticles grid cell = []) ->
  reachable
    (SPH.construct container h viscosity pressure surfaceTension grid
       nbParticles restDensity totalVolume maxDTime gravity localInv) s ->
  gridConsistent s.
Proof.
  intros Hempty Hreach. induction Hreach as [|s s' fuel timeDelta _ IH Hstep].
  - now apply construct_gridConsistent.
  - eapply animate_gridConsistent; eassumption.
Qed.

Lemma single_noNearHit :
  noNearHit (SPH._container Example.single)
    (Particle.position (SPH.particle Example.single 0))
    (QVector3D.make 0 (-0.00098) 0) (QVector3D.make 0 (-0.00098) 0).
Proof. exact I. Qed.

(** The particle of [Example.single] falls from the cell 0 into the cell 1
    and is bucketed there. *)
Lemma grid_consistency_witness :
  exists s',
    SPH.animate 1 Example.single 0.01 = Some s'
    /\ Particle.cellIndex (SPH.particle Example.single 0) = 0%nat
    /\ Particle.cellIndex (SPH.particle s' 0) = 1%nat
    /\ gridConsistent s'.
Proof.
  destruct (lone_particle_step Example.single 0 single_length single_wellFormed
              single_neighborsOf)
    as (_ & _ & _ & _ & _ & _ & s' & Hs' & _ & _ & Hcell).
  - rewrite single_eq. reflexivity.
  - reflexivity.
  - simpl. lra.
  - apply single_noNearHit.
  - exists s'. split; [exact Hs'|]. split; [rewrite single_eq; reflexivity|].
    split.
    + rewrite Hcell. rewrite single_eq.
      cbn [SPH._grid Grid.addParticle Grid.cellIndex Example.twoCells
           SPH.particle SPH._particles nth Particle.position].
      destruct (Rlt_dec _ _) as [_|H]; [reflexivity|].
      exfalso. apply H. vec_simpl. lra.
    + apply (grid_consistency Example.openContainer 1 1 1 1 Example.twoCells 1
               1 1 1 Example.gravity (fun v => v) s').
      * reflexivity.
      * apply (reachable_animate _ Example.single s' 1 0.01);
          [apply reachable_constructed|exact Hs'].
Defined.

(** * The neighbourhood query *)

Lemma Rsum_Permutation (l l' : list R) :
  Permutation l l' -> Rsum l = Rsum l'.
Proof.
  induction 1; simpl; try lra.
Qed.

Lemma vsum_Permutation (l l' : list vec) :
  Permutation l l' -> QVector3D.sum l = QVector3D.sum l'.
Proof.
  induction 1; simpl.
  - reflexivity.
  - now rewrite IHPermutation.
  - vec_ring.
  - congruence.
Qed.

Lemma count_occ_flat_map (g : nat -> list nat) (l : list nat) (n : nat) :
  count_occ Nat.eq_dec (flat_map g l) n
  = list_sum (map (fun c => count_occ Nat.eq_dec (g c) n) l).
Proof.
  induction l as [|c l IH]; simpl; [reflexivity|].
  now rewrite count_occ_app, IH.
Qed.

Lemma list_sum_indicator (l : list nat) (c : nat) :
  list_sum (map (fun c' => if Nat.eqb c' c then 1%nat else 0%nat) l)
  = count_occ Nat.eq_dec l c.
Proof.
  induction l as [|a l IH]; simpl; [reflexivity|]. rewrite IH.
  destruct (Nat.eqb_spec a c), (Nat.eq_dec a c); congruence || lia.
Qed.

(** On a consistent grid a particle is a candidate of a cell as many times
    as its own cell is listed in the neighbourhood. *)
Lemma candidates_count (s : SPH.t) (cell n : nat) :
  gridConsistent s -> (n < length (SPH._particles s))%nat ->
  count_occ Nat.eq_dec (Spec.candidates s cell) n
  = count_occ Nat.eq_dec (Grid.neighborhood (SPH._grid s) cell)
      (Particle.cellIndex (SPH.particle s n)).
Proof.
  intros HC Hn. unfold Spec.candidates. rewrite count_occ_flat_map.
  rewrite <- list_sum_indicator. f_equal. apply map_ext. intros c.
  apply (HC n Hn).
Qed.

Lemma candidates_valid (s : SPH.t) (cell n : nat) :
  bucketsValid s -> In n (Spec.candidates s cell) ->
  (n < length (SPH._particles s))%nat.
Proof.
  intros HV Hin. unfold Spec.candidates in Hin. apply in_flat_map in Hin.
  destruct Hin as (c & _ & Hc). eapply HV; eassumption.
Qed.

(** On a consistent and adequate grid, the neighbourhood query finds the
    particles within the smoothing radius of the point, each once. *)
Lemma neighbors_withinRadius (s : SPH.t) (position : vec) :
  gridConsistent s -> bucketsValid s -> adequate s ->
  Permutation
    (Spec.neighbors s position (Grid.cellIndex (SPH._grid s) position))
    (Spec.withinRadius s position).
Proof.
  intros HC HV [Hnodup Hcover].
  set (cell := Grid.cellIndex (SPH._grid s) position).
  assert (Hcand : NoDup (Spec.candidates s cell)).
  { apply (NoDup_count_occ Nat.eq_dec). intros n.
    destruct (Nat.lt_ge_cases n (length (SPH._particles s))) as [Hn|Hn].
    - rewrite candidates_count by assumption.
      now apply (NoDup_count_occ Nat.eq_dec).
    - assert (Hnot : ~ In n (Spec.candidates s cell)).
      { intros Hin. apply candidates_valid in Hin; [lia|assumption]. }
      apply (count_occ_not_In Nat.eq_dec) in Hnot. lia. }
  apply NoDup_Permutation.
  - now apply NoDup_filter.
  - apply NoDup_filter, seq_NoDup.
  - intros n. unfold Spec.neighbors, Spec.withinRadius.
    rewrite !filter_In, in_seq. split.
    + intros [Hin Hnear]. split; [|assumption].
      apply candidates_valid in Hin; [lia|assumption].
    + intros [Hn Hnear]. split; [|assumption].
      assert (Hlt : (n < length (SPH._particles s))%nat) by lia.
      apply (count_occ_In Nat.eq_dec). rewrite candidates_count by assumption.
      apply (count_occ_In Nat.eq_dec).
      destruct (HC n Hlt) as [-> _]. now apply Hcover.
Qed.

(** The density of the surface evaluator is the sum over all the particles
    within the radius of the query point. *)
Lemma fieldDensity_withinRadius (s : SPH.t) (position : vec) :
  gridConsistent s -> bucketsValid s -> adequate s ->
  Spec.fieldDensity s position
  = Rsum (map (fun n => SPH.densityKernel s (Spec.distance2 s position n)
                        * Particle.mass (SPH.particle s n))
              (Spec.withinRadius s position)).
Proof.
  intros HC HV HA. unfold Spec.fieldDensity.
  apply Rsum_Permutation, Permutation_map.
  now apply neighbors_withinRadius.
Qed.

(** The neighbours of a particle are all the particles within the radius
    of its position. *)
Lemma neighborsOf_withinRadius (s : SPH.t) (i : nat) :
  gridConsistent s -> bucketsValid s -> adequate s ->
  (i < length (SPH._particles s))%nat ->
  Permutation (Spec.neighborsOf s i)
              (Spec.withinRadius s (Particle.position (SPH.particle s i))).
Proof.
  intros HC HV HA Hi. unfold Spec.neighborsOf.
  destruct (HC i Hi) as [-> _]. now apply neighbors_withinRadius.
Qed.

(** ** The buckets hold particles *)

Lemma In_removeOne (i n : nat) (l : list nat) :
  In n (Grid.removeOne i l) -> In n l.
Proof.
  induction l as [|a l IH]; simpl; [auto|].
  destruct (Nat.eqb a i); simpl; intuition.
Qed.

Lemma construct_bucketsValid
    (container : Geometry.t) (h viscosity pressure surfaceTension : R)
    (grid : Grid.t) (nbParticles : nat) (restDensity totalVolume maxDTime : R)
    (gravity : vec) (localInv : vec -> vec) :
  (forall cell, Grid.cellParticles grid cell = []) ->
  bucketsValid
    (SPH.construct container h viscosity pressure surfaceTension grid
       nbParticles restDensity totalVolume maxDTime gravity localInv).
Proof.
  intros Hempty. unfold SPH.construct, SPH.initializeParticles.
  set (s0 := SPH.initializeCoefficients _).
  set (m := totalVolume * _ / _).
  destruct (initializeParticles_seeded m s0 (length (SPH._particles s0)) Hempty
              (le_n _)) as (HL & _ & Htodo).
  intros cell n Hin. rewrite HL.
  destruct (Nat.lt_ge_cases n (length (SPH._particles s0))) as [Hn|Hn];
    [assumption|].
  apply (count_occ_In Nat.eq_dec) in Hin. rewrite (Htodo n cell Hn) in Hin. lia.
Qed.

Lemma moveParticle_bucketsValid (fuel : nat) (deltaTime : R) (s s' : SPH.t)
    (i : nat) :
  (i < length (SPH._particles s))%nat ->
  SPH.moveParticle fuel deltaTime s i = Some s' ->
  bucketsValid s -> bucketsValid s'.
Proof.
  intros Hi Hmove HV.
  destruct (moveParticle_gridConsistent _ _ _ _ _ Hi Hmove) as [HL _].
  destruct (moveParticle_result _ _ _ _ _ Hi Hmove)
    as (position & velocity & _ & E).
  cbv zeta in E. intros cell n. rewrite HL.
  destruct (Nat.eqb _ _); subst s'.
  - apply HV.
  - cbn [SPH._grid SPH.setGrid Grid.cellParticles Grid.addParticle
         Grid.removeParticle].
    intros Hin.
    assert (Hold : forall c,
               In n (if Nat.eqb c (Particle.cellIndex (SPH.particle s i))
                     then Grid.removeOne i (Grid.cellParticles (SPH._grid s) c)
                     else Grid.cellParticles (SPH._grid s) c) ->
               (n < length (SPH._particles s))%nat).
    { intros c.
      destruct (Nat.eqb c (Particle.cellIndex (SPH.particle s i))); intros Hc;
        [apply In_removeOne in Hc|]; eapply HV; eassumption. }
    revert Hin.
    destruct (Nat.eqb cell (Grid.cellIndex (SPH._grid s) position)); intros Hin.
    + apply in_app_or in Hin. destruct Hin as [Hin|[<-|[]]]; [|assumption].
      eapply Hold; eassumption.
    + eapply Hold; eassumption.
Qed.

Lemma moveParticles_bucketsValid (fuel : nat) (deltaTime : R) (s s' : SPH.t) :
  SPH.moveParticles fuel deltaTime s = Some s' ->
  bucketsValid s -> bucketsValid s'.
Proof.
  unfold SPH.moveParticles.
  set (step := fun (os : option SPH.t) (i : nat) => _).
  assert (Hnone : forall l, fold_left step l None = None)
    by (induction l; simpl; auto).
  assert (H : forall l st,
             (forall i, In i l -> (i < length (SPH._particles st))%nat) ->
             fold_left step l (Some st) = Some s' ->
             bucketsValid st -> bucketsValid s').
  { induction l as [|i l IH]; intros st Hl Hfold HV; simpl in Hfold.
    - now injection Hfold as <-.
    - destruct (SPH.moveParticle fuel deltaTime st i) as [st'|] eqn:E.
      + destruct (moveParticle_gridConsistent _ _ _ _ _
                    (Hl i (or_introl eq_refl)) E) as [HL _].
        apply (IH st'); auto.
        * intros j Hj. rewrite HL. apply Hl. now right.
        * eapply moveParticle_bucketsValid; eauto. apply Hl. now left.
      + now rewrite Hnone in Hfold. }
  apply H. intros i Hi. apply in_seq in Hi. lia.
Qed.

Lemma animate_bucketsValid (fuel : nat) (s s' : SPH.t) (timeDelta : R) :
  SPH.animate fuel s timeDelta = Some s' ->
  bucketsValid s -> bucketsValid s'.
Proof.
  unfold SPH.animate. intros H HV.
  eapply moveParticles_bucketsValid; [exact H|].
  pose proof (computeDensities_sameGeometry s) as G.
  destruct (sameGeometry_sameConfiguration _ _ G) as [_ Hg1].
  destruct G as (_ & HL1 & _).
  pose proof (computeForces_erase (SPH.computeDensities s)) as E.
  destruct (erase_sameConfiguration _ _ E) as [_ Hg2].
  destruct (erase_eq_fields _ _ E) as (_ & _ & _ & HL2).
  intros cell n. rewrite Hg2, Hg1, HL2, HL1. apply HV.
Qed.

(** The buckets of a simulation hold indices of particles. *)
Lemma reachable_bucketsValid
    (container : Geometry.t) (h viscosity pressure surfaceTension : R)
    (grid : Grid.t) (nbParticles : nat) (restDensity totalVolume maxDTime : R)
    (gravity : vec) (localInv : vec -> vec) (s : SPH.t) :
  (forall cell, Grid.cellParticles grid cell = []) ->
  reachable
    (SPH.construct container h viscosity pressure surfaceTension grid
       nbParticles restDensity totalVolume maxDTime gravity localInv) s ->
  bucketsValid s.
Proof.
  intros Hempty Hreach. induction Hreach as [|s s' fuel timeDelta _ IH Hstep].
  - now apply construct_bucketsValid.
  - eapply animate_bucketsValid; eassumption.
Qed.

(** * The kernels *)

Lemma construct_coefficients
    (container : Geometry.t) (h viscosity pressure surfaceTension : R)
    (grid : Grid.t) (nbParticles : nat) (restDensity totalVolume maxDTime : R)
    (gravity : vec) (localInv : vec -> vec) :
  let s := SPH.construct container h viscosity pressure surfaceTension grid
             nbParticles restDensity totalVolume maxDTime gravity localInv in
  SPH._coeffPoly6 s = 315.0 / (64.0 * SPH.M_PI * (h * h * (h * h) * (h * h) * (h * h) * h))
  /\ SPH._coeffSpiky s = 3.0 * 15.0 / (SPH.M_PI * (h * h * (h * h) * (h * h)))
  /\ SPH._coeffVisc s = 45.0 / (SPH.M_PI * (h * h * (h * h) * (h * h)))
  /\ SPH._smoothingRadius s = h
  /\ SPH._smoothingRadius2 s = h * h
  /\ SPH._restDensity s = restDensity.
Proof.
  intros s.
  set (s0 := SPH.initializeCoefficients
               (SPH.make container 0 0 0 restDensity h (h * h) viscosity
                  pressure surfaceTension maxDTime gravity
                  (repeat Particle.default nbParticles) grid localInv)).
  assert (Hc : sameConfiguration s0 s)
    by apply initializeParticles_sameConfiguration.
  unfold sameConfiguration in Hc.
  assert (E : forall (A : Type) (f : SPH.t -> A),
             (forall t ps g, f (SPH.setGrid (SPH.setParticles t ps) g) = f t) ->
             f s = f s0).
  { intros A f Hf.
    rewrite <- (Hf s (SPH._particles s0) (SPH._grid s0)). now rewrite Hc. }
  repeat split; (rewrite E by reflexivity); reflexivity.
Qed.

(** X1.  In a constructed system with a positive smoothing radius [h], the
    three kernels are positive inside the radius ([r² < h²], [0 < r < h])
    and the slope of the density kernel is negative there; at the radius
    itself all of them vanish, so the cut-off [r2 < _smoothingRadius2] of
    the solvers drops no jump.  The pressure and viscosity coefficients
    are the same number. *)
Theorem kernels_vanish_at_radius
    (container : Geometry.t) (h viscosity pressure surfaceTension : R)
    (grid : Grid.t) (nbParticles : nat) (restDensity totalVolume maxDTime : R)
    (gravity : vec) (localInv : vec -> vec) (r2 r : R) :
  0 < h -> r2 < h * h -> 0 < r < h ->
  let s := SPH.construct container h viscosity pressure surfaceTension grid
             nbParticles restDensity totalVolume maxDTime gravity localInv in
  (0 < SPH.densityKernel s r2
   /\ SPH.densitykernelGradient s r2 < 0
   /\ 0 < SPH.pressureKernel s r
   /\ 0 < SPH.viscosityKernel s r)
  /\ (SPH.densityKernel s (h * h) = 0
      /\ SPH.densitykernelGradient s (h * h) = 0
      /\ SPH.pressureKernel s h = 0
      /\ SPH.viscosityKernel s h = 0)
  /\ SPH._coeffSpiky s = SPH._coeffVisc s.
Proof.
  intros Hh Hr2 [Hr Hrh] s.
  destruct (construct_coefficients container h viscosity pressure
              surfaceTension grid nbParticles restDensity totalVolume
              maxDTime gravity localInv)
    as (E6 & Es & Ev & Er & Er2 & _).
  fold s in E6, Es, Ev, Er, Er2.
  pose proof PI_RGT_0 as Hpi.
  assert (H6 : 0 < h * h * (h * h) * (h * h)) by (repeat apply Rmult_lt_0_compat; assumption).
  assert (H9 : 0 < h * h * (h * h) * (h * h) * (h * h) * h)
    by (repeat apply Rmult_lt_0_compat; assumption).
  assert (P6 : 0 < SPH._coeffPoly6 s).
  { rewrite E6. unfold SPH.M_PI. apply Rdiv_lt_0_compat; [lra|].
    apply Rmult_lt_0_compat; [lra|assumption]. }
  assert (Pv : 0 < SPH._coeffVisc s).
  { rewrite Ev. unfold SPH.M_PI. apply Rdiv_lt_0_compat; [lra|].
    apply Rmult_lt_0_compat; assumption. }
  assert (Esv : SPH._coeffSpiky s = SPH._coeffVisc s).
  { rewrite Es, Ev. f_equal. lra. }
  split; [|split; [|exact Esv]].
  - split; [apply densityKernel_pos; [exact P6|rewrite Er2; exact Hr2]|].
    split.
    { unfold SPH.densitykernelGradient. rewrite Er2.
      assert (0 < (h * h - r2) * (h * h - r2)) by (apply Rmult_lt_0_compat; lra).
      nra. }
    split.
    { unfold SPH.pressureKernel. destruct (Req_dec_T r 0) as [E|_]; [lra|].
      rewrite Er, Esv. apply Rdiv_lt_0_compat; [|exact Hr].
      assert (0 < (h - r) * (h - r)) by (apply Rmult_lt_0_compat; lra).
      rewrite Rmult_assoc. apply Rmult_lt_0_compat; assumption. }
    unfold SPH.viscosityKernel. rewrite Er. apply Rmult_lt_0_compat; lra.
  - unfold SPH.densityKernel, SPH.densitykernelGradient, SPH.pressureKernel,
      SPH.viscosityKernel.
    rewrite Er, Er2. repeat split; try ring.
    destruct (Req_dec_T h 0); [reflexivity|]. unfold Rdiv. ring.
Qed.

Lemma kernels_vanish_at_radius_witness :
  (0 < SPH.densityKernel Example.single 0.25
   /\ SPH.densitykernelGradient Example.single 0.25 < 0
   /\ 0 < SPH.pressureKernel Example.single 0.5
   /\ 0 < SPH.viscosityKernel Example.single 0.5)
  /\ (SPH.densityKernel Example.single (1 * 1) = 0
      /\ SPH.densitykernelGradient Example.single (1 * 1) = 0
      /\ SPH.pressureKernel Example.single 1 = 0
      /\ SPH.viscosityKernel Example.single 1 = 0)
  /\ SPH._coeffSpiky Example.single = SPH._coeffVisc Example.single.
Proof.
  apply (kernels_vanish_at_radius Example.openContainer 1 1 1 1
           Example.twoCells 1 1 1 1 Example.gravity (fun v => v) 0.25 0.5);
    lra.
Defined.

(** X2.  [densitykernelGradient] is the derivative of [densityKernel] with
    respect to its argument [r²], whatever the coefficients. *)
Theorem densitykernelGradient_is_derivative (s : SPH.t) (r2 : R) :
  derivable_pt_lim (SPH.densityKernel s) r2 (SPH.densitykernelGradient s r2).
Proof.
  unfold SPH.densityKernel, SPH.densitykernelGradient.
  set (c := SPH._coeffPoly6 s). set (h2 := SPH._smoothingRadius2 s).
  assert (D : derivable_pt_lim (fun x => h2 - x) r2 (0 - 1)).
  { apply (derivable_pt_lim_minus (fun _ => h2) (fun x => x)).
    - apply derivable_pt_lim_const.
    - apply derivable_pt_lim_id. }
  assert (Dc : derivable_pt_lim (fun x => c * (h2 - x)) r2 (c * (0 - 1))).
  { apply (derivable_pt_lim_scal (fun x => h2 - x) c r2 (0 - 1) D). }
  pose proof (derivable_pt_lim_mult _ _ _ _ _ Dc D) as D2.
  pose proof (derivable_pt_lim_mult _ _ _ _ _ D2 D) as D3.
  unfold mult_fct, mult_real_fct in *.
  replace (-3 * c * (h2 - r2) * (h2 - r2))
    with ((c * (0 - 1) * (h2 - r2) + c * (h2 - r2) * (0 - 1)) * (h2 - r2)
          + c * (h2 - r2) * (h2 - r2) * (0 - 1)) by ring.
  exact D3.
Qed.

(** * The density solver, further *)

(** X3.  The density solver writes the density, the volume and the
    pressure of the particles and nothing else: the configuration and the
    grid are those before the pass, no particle is added or dropped, and
    every particle keeps its position, mass, cell index, velocity and
    acceleration. *)
Theorem computeDensities_frame (s : SPH.t) :
  SPH.setParticles (SPH.computeDensities s) (SPH._particles s) = s
  /\ length (SPH._particles (SPH.computeDensities s))
     = length (SPH._particles s)
  /\ forall n,
      Particle.position (SPH.particle (SPH.computeDensities s) n)
      = Particle.position (SPH.particle s n)
      /\ Particle.mass (SPH.particle (SPH.computeDensities s) n)
         = Particle.mass (SPH.particle s n)
      /\ Particle.cellIndex (SPH.particle (SPH.computeDensities s) n)
         = Particle.cellIndex (SPH.particle s n)
      /\ Particle.velocity (SPH.particle (SPH.computeDensities s) n)
         = Particle.velocity (SPH.particle s n)
      /\ Particle.acceleration (SPH.particle (SPH.computeDensities s) n)
         = Particle.acceleration (SPH.particle s n).
Proof. exact (computeDensities_sameGeometry s). Qed.

Lemma Rsum_map_div {A : Type} (g : A -> R) (rho : R) (l : list A) :
  Rsum (map (fun a => g a / rho) l) = Rsum (map g l) / rho.
Proof.
  induction l as [|a l IH]; simpl; [unfold Rdiv; ring|].
  rewrite IH. unfold Rdiv. ring.
Qed.

Lemma correctionSum_uniform (s : SPH.t) (rho : R) (i : nat) :
  wellFormed s -> (i < length (SPH._particles s))%nat ->
  uniformDensity s rho ->
  Spec.correctionSum s i = Spec.rawSum s i / rho.
Proof.
  intros WF Hi U. unfold Spec.correctionSum, Spec.rawSum.
  rewrite <- Rsum_map_div. f_equal. apply map_ext_in. intros n Hn.
  destruct (neighborsOf_valid s i n WF Hi Hn) as [Hv _].
  now rewrite (U n Hv).
Qed.

Lemma computeDensity_uniform (s : SPH.t) (rho : R) (i : nat) :
  wellFormed s -> uniformDensity s rho ->
  uniformDensity (SPH.computeDensity s i) rho.
Proof.
  intros WF U n Hn.
  destruct (computeDensity_sameGeometry s i) as (_ & GL & _).
  rewrite GL in Hn.
  destruct (Nat.eq_dec i n) as [->|Hne].
  - rewrite computeDensity_eq, particle_setParticle_eq by assumption. simpl.
    rewrite (correctionSum_uniform s rho n WF Hn U).
    destruct (wellFormed_sums_pos s n WF Hn) as [Hraw _].
    destruct WF as (_ & _ & Hpos & _). destruct (Hpos n Hn) as [_ Hd].
    rewrite (U n Hn) in Hd. field. split; lra.
  - rewrite computeDensity_other by assumption. now apply U.
Qed.

Lemma stateBefore_uniform (s : SPH.t) (rho : R) (k : nat) :
  wellFormed s -> uniformDensity s rho ->
  uniformDensity (Spec.stateBefore s k) rho.
Proof.
  intros WF U. induction k as [|k IH]; [exact U|].
  rewrite stateBefore_S. apply computeDensity_uniform; [|exact IH].
  now apply stateBefore_wellFormed.
Qed.

Lemma computeDensities_uniform (s : SPH.t) (rho : R) :
  wellFormed s -> uniformDensity s rho ->
  uniformDensity (SPH.computeDensities s) rho.
Proof.
  intros WF U. rewrite computeDensities_stateBefore.
  now apply stateBefore_uniform.
Qed.

(** X4.  A common stored density is a fixed point of the density solver:
    on a well-formed state in which every particle stores the density
    [rho], every particle stores [rho] again after the pass, and the
    volume [mass / rho]; the correction sum of the particle [i] is its
    raw sum divided by [rho]. *)
Theorem uniform_density_fixed_point (s : SPH.t) (rho : R) (i : nat) :
  wellFormed s -> uniformDensity s rho ->
  (i < length (SPH._particles s))%nat ->
  uniformDensity (SPH.computeDensities s) rho
  /\ Spec.correctionSum (Spec.stateBefore s i) i = Spec.rawSum s i / rho
  /\ Particle.volume (SPH.particle (SPH.computeDensities s) i)
     = Particle.mass (SPH.particle s i) / rho.
Proof.
  intros WF U Hi.
  pose proof (computeDensities_uniform s rho WF U) as U'.
  assert (Hi' : (i < length (SPH._particles (Spec.stateBefore s i)))%nat)
    by (rewrite stateBefore_length; assumption).
  assert (Hc : Spec.correctionSum (Spec.stateBefore s i) i
               = Spec.rawSum s i / rho).
  { rewrite (correctionSum_uniform _ rho i (stateBefore_wellFormed s i WF) Hi'
               (stateBefore_uniform s rho i WF U)).
    now rewrite (sameGeometry_rawSum _ _ _ (stateBefore_sameGeometry s i)). }
  split; [exact U'|]. split; [exact Hc|].
  assert (Hl : (i < length (SPH._particles (SPH.computeDensities s)))%nat).
  { destruct (computeDensities_sameGeometry s) as (_ & -> & _). exact Hi. }
  pose proof (U' i Hl) as Hd.
  rewrite computeDensities_particle in Hd |- * by assumption.
  simpl in Hd |- *. now rewrite Hd.
Qed.

Lemma single_uniformDensity : uniformDensity Example.single 1.
Proof.
  intros n Hn. rewrite single_length in Hn.
  assert (n = 0%nat) as -> by lia. rewrite single_eq. reflexivity.
Qed.

Lemma uniform_density_fixed_point_witness :
  uniformDensity (SPH.computeDensities Example.single) 1
  /\ Spec.correctionSum (Spec.stateBefore Example.single 0) 0
     = Spec.rawSum Example.single 0 / 1
  /\ Particle.volume (SPH.particle (SPH.computeDensities Example.single) 0)
     = Particle.mass (SPH.particle Example.single 0) / 1.
Proof.
  apply (uniform_density_fixed_point Example.single 1 0).
  - exact single_wellFormed.
  - exact single_uniformDensity.
  - rewrite single_length. lia.
Defined.

(** X5.  On a well-formed state with a positive rest density, the pressure
    that the density solver stores is above [-1] for every particle, and
    it is [0] exactly when the raw kernel sum of the particle is the rest
    density. *)
Theorem stored_pressure_bound (s : SPH.t) (i : nat) :
  wellFormed s -> 0 < SPH._restDensity s ->
  (i < length (SPH._particles s))%nat ->
  -1 < Particle.pressure (SPH.particle (SPH.computeDensities s) i)
  /\ (Particle.pressure (SPH.particle (SPH.computeDensities s) i) = 0
      <-> Spec.rawSum s i = SPH._restDensity s).
Proof.
  intros WF H0 Hi. rewrite computeDensities_particle by assumption. simpl.
  unfold SPH.pressure.
  destruct (wellFormed_sums_pos s i WF Hi) as [Hraw _].
  assert (Hq : 0 < Spec.rawSum s i / SPH._restDensity s)
    by now apply Rdiv_lt_0_compat.
  split; [lra|]. split; intros H.
  - assert (E : Spec.rawSum s i / SPH._restDensity s = 1) by lra.
    apply (f_equal (fun x => x * SPH._restDensity s)) in E.
    unfold Rdiv in E. rewrite Rmult_assoc, Rinv_l, Rmult_1_r, Rmult_1_l in E
      by lra.
    exact E.
  - rewrite H. unfold Rdiv. rewrite Rinv_r by lra. ring.
Qed.

Lemma stored_pressure_bound_witness :
  -1 < Particle.pressure (SPH.particle (SPH.computeDensities Example.single) 0)
  /\ (Particle.pressure (SPH.particle (SPH.computeDensities Example.single) 0)
      = 0
      <-> Spec.rawSum Example.single 0 = SPH._restDensity Example.single).
Proof.
  apply (stored_pressure_bound Example.single 0).
  - exact single_wellFormed.
  - rewrite single_eq. simpl. lra.
  - rewrite single_length. lia.
Defined.

(** X6.  The two nested loops of the density solver visit every particle
    within the smoothing radius, each once: when the grid is consistent,
    its buckets hold particles and the neighbourhood of a cell covers the
    radius, the raw sum and the correction sum of the particle [i] are the
    sums over all the particles of the array with [r² < h²]. *)
Theorem densitySums_all_particles (s : SPH.t) (i : nat) :
  gridConsistent s -> bucketsValid s -> adequate s ->
  (i < length (SPH._particles s))%nat ->
  SPH.densitySums s i
  = (Rsum (map (fun n => SPH.densityKernel s (Spec.r2 s i n)
                         * Particle.mass (SPH.particle s n))
               (Spec.withinRadius s (Particle.position (SPH.particle s i)))),
     Rsum (map (fun n => SPH.densityKernel s (Spec.r2 s i n)
                         * Particle.mass (SPH.particle s n)
                         / Particle.density (SPH.particle s n))
               (Spec.withinRadius s (Particle.position (SPH.particle s i))))).
Proof.
  intros GC BV AD Hi. rewrite densitySums_spec.
  pose proof (neighborsOf_withinRadius s i GC BV AD Hi) as P.
  unfold Spec.rawSum, Spec.correctionSum. f_equal.
  - apply Rsum_Permutation. now apply Permutation_map.
  - apply Rsum_Permutation. now apply Permutation_map.
Qed.

Lemma single_gridConsistent : gridConsistent Example.single.
Proof. now apply construct_gridConsistent. Qed.

Lemma single_bucketsValid : bucketsValid Example.single.
Proof. now apply construct_bucketsValid. Qed.

Lemma single_adequate : adequate Example.single.
Proof.
  rewrite single_eq. split.
  - intros cell. simpl. repeat constructor; simpl; intuition lia.
  - intros position n _ _. simpl.
    repeat match goal with
           | |- context [Rlt_dec ?a ?b] => destruct (Rlt_dec a b)
           end; simpl; auto.
Qed.

Lemma densitySums_all_particles_witness :
  SPH.densitySums Example.single 0
  = (Rsum (map (fun n => SPH.densityKernel Example.single
                           (Spec.r2 Example.single 0 n)
                         * Particle.mass (SPH.particle Example.single n))
               (Spec.withinRadius Example.single
                  (Particle.position (SPH.particle Example.single 0)))),
     Rsum (map (fun n => SPH.densityKernel Example.single
                           (Spec.r2 Example.single 0 n)
                         * Particle.mass (SPH.particle Example.single n)
                         / Particle.density (SPH.particle Example.single n))
               (Spec.withinRadius Example.single
                  (Particle.position (SPH.particle Example.single 0))))).
Proof.
  apply (densitySums_all_particles Example.single 0).
  - exact single_gridConsistent.
  - exact single_bucketsValid.
  - exact single_adequate.
  - rewrite single_length. lia.
Defined.

(** * The force solver, further *)

Lemma erase_particle_fields (s s' : SPH.t) (n : nat) :
  eraseAcceleration s' = eraseAcceleration s ->
  Particle.setAcceleration (SPH.particle s' n) QVector3D.null
  = Particle.setAcceleration (SPH.particle s n) QVector3D.null.
Proof.
  intros H. rewrite <- !particle_eraseAcceleration. now rewrite H.
Qed.

Lemma erase_setParticles (s s' : SPH.t) :
  eraseAcceleration s' = eraseAcceleration s ->
  SPH.setParticles s' (SPH._particles s) = s.
Proof.
  intros H. destruct s, s'. unfold eraseAcceleration, SPH.setParticles in *.
  simpl in *. injection H as -> -> -> -> -> -> -> -> -> -> -> -> _ -> ->.
  reflexivity.
Qed.

(** X7.  The force solver writes the accelerations and nothing else: the
    configuration and the grid are those before the pass, no particle is
    added or dropped, and every particle keeps its position, velocity,
    mass, density, volume, pressure and cell index. *)
Theorem computeForces_frame (s : SPH.t) :
  SPH.setParticles (SPH.computeForces s) (SPH._particles s) = s
  /\ length (SPH._particles (SPH.computeForces s)) = length (SPH._particles s)
  /\ forall n,
      Particle.position (SPH.particle (SPH.computeForces s) n)
      = Particle.position (SPH.particle s n)
      /\ Particle.velocity (SPH.particle (SPH.computeForces s) n)
         = Particle.velocity (SPH.particle s n)
      /\ Particle.mass (SPH.particle (SPH.computeForces s) n)
         = Particle.mass (SPH.particle s n)
      /\ Particle.density (SPH.particle (SPH.computeForces s) n)
         = Particle.density (SPH.particle s n)
      /\ Particle.volume (SPH.particle (SPH.computeForces s) n)
         = Particle.volume (SPH.particle s n)
      /\ Particle.pressure (SPH.particle (SPH.computeForces s) n)
         = Particle.pressure (SPH.particle s n)
      /\ Particle.cellIndex (SPH.particle (SPH.computeForces s) n)
         = Particle.cellIndex (SPH.particle s n).
Proof.
  pose proof (computeForces_erase s) as He.
  split; [now apply erase_setParticles|].
  split; [apply (erase_eq_fields _ _ He)|].
  intros n. pose proof (erase_particle_fields _ _ n He) as Hn.
  repeat split.
  - exact (f_equal Particle.position Hn).
  - exact (f_equal Particle.velocity Hn).
  - exact (f_equal Particle.mass Hn).
  - exact (f_equal Particle.density Hn).
  - exact (f_equal Particle.volume Hn).
  - exact (f_equal Particle.pressure Hn).
  - exact (f_equal Particle.cellIndex Hn).
Qed.

(** The acceleration that an iteration of the force solver stores, from
    the sums of its inner loops. *)
Lemma computeForces_particle_sums (s : SPH.t) (i : nat) :
  (i < length (SPH._particles s))%nat ->
  SPH.particle (SPH.computeForces s) i
  = Particle.setAcceleration (SPH.particle s i)
      (((SPH.viscosityForce (SPH.forceSums s i)
           [*] (SPH._viscosity s / SPH.correction (SPH.forceSums s i)))
        [-] (SPH.pressureForce (SPH.forceSums s i)
               [*] (SPH._pressure s / SPH.correction (SPH.forceSums s i)))
        [-] (SPH.tensionForce (SPH.forceSums s i)
               [*] (SPH._surfaceTension s
                    / SPH.correction (SPH.forceSums s i))))
         [/] Particle.density (SPH.particle s i)
       [+] SPH.localInverted s (SPH._gravity s)).
Proof.
  intros Hi. rewrite computeForces_particle by assumption.
  now rewrite forceSums_spec.
Qed.

Lemma setParticles_ext (s s' : SPH.t) :
  eraseAcceleration s' = eraseAcceleration s ->
  (forall n, (n < length (SPH._particles s))%nat ->
     SPH.particle s' n = SPH.particle s n) ->
  s' = s.
Proof.
  intros He Hp.
  rewrite <- (erase_setParticles s s' He).
  assert (E : SPH._particles s' = SPH._particles s).
  { destruct (erase_eq_fields _ _ He) as (_ & _ & _ & HL).
    apply (nth_ext _ _ Particle.default Particle.default); [exact HL|].
    intros n Hn. apply Hp. now rewrite <- HL. }
  rewrite <- E. now destruct s'.
Qed.

(** The force solver does not read the accelerations: two states that
    differ in them at most get the same accelerations. *)
Lemma computeForces_reads_no_acceleration (s s' : SPH.t) :
  eraseAcceleration s' = eraseAcceleration s ->
  SPH.computeForces s' = SPH.computeForces s.
Proof.
  intros He. apply setParticles_ext.
  - now rewrite !computeForces_erase.
  - intros n Hn.
    destruct (erase_eq_fields _ _ (computeForces_erase s)) as (_ & _ & _ & HL).
    rewrite HL in Hn.
    destruct (erase_eq_fields _ _ He) as (Hp & Hv & Ht & HL').
    rewrite !computeForces_particle_sums by (rewrite ?HL'; assumption).
    rewrite <- (forceSums_erase s'), He, forceSums_erase, Hp, Hv, Ht.
    pose proof (erase_particle_fields _ _ n He) as Hn'.
    rewrite (f_equal Particle.density Hn' : Particle.density (SPH.particle s' n)
                                            = Particle.density (SPH.particle s n)).
    replace (SPH.localInverted s' (SPH._gravity s'))
      with (SPH.localInverted s (SPH._gravity s)).
    2:{ pose proof (f_equal SPH.localInverted He) as E1.
        pose proof (f_equal SPH._gravity He) as E2.
        simpl in E1, E2. now rewrite E1, E2. }
    set (a := _ [+] _).
    apply (f_equal (fun p => Particle.setAcceleration p a)) in Hn'.
    exact Hn'.
Qed.

(** X8.  The force solver is idempotent: a second pass over its own result
    changes nothing, because the pass reads no acceleration. *)
Theorem computeForces_idempotent (s : SPH.t) :
  SPH.computeForces (SPH.computeForces s) = SPH.computeForces s.
Proof.
  apply computeForces_reads_no_acceleration, computeForces_erase.
Qed.

(** * The integrator, further *)

Lemma update_nth_same {A : Type} (l : list A) (i : nat) (d : A) :
  update l i (nth i l d) = l.
Proof.
  revert i. induction l as [|a l IH]; intros [|i]; simpl; try reflexivity.
  now rewrite IH.
Qed.

Lemma setParticle_same (s : SPH.t) (i : nat) :
  SPH.setParticle s i (SPH.particle s i) = s.
Proof.
  unfold SPH.setParticle, SPH.particle, SPH.setParticles.
  rewrite update_nth_same. now destruct s.
Qed.

(** What one iteration of the integrator leaves as it is. *)
Lemma moveParticle_frame (fuel : nat) (deltaTime : R) (s s' : SPH.t)
    (i : nat) :
  (i < length (SPH._particles s))%nat ->
  SPH.moveParticle fuel deltaTime s i = Some s' ->
  length (SPH._particles s') = length (SPH._particles s)
  /\ sameConfiguration s s'
  /\ Grid.cellIndex (SPH._grid s') = Grid.cellIndex (SPH._grid s)
  /\ Grid.neighborhood (SPH._grid s') = Grid.neighborhood (SPH._grid s)
  /\ (forall n, n <> i -> SPH.particle s' n = SPH.particle s n)
  /\ exists position velocity,
      Spec.particleLoop fuel deltaTime s i = Some (position, velocity)
      /\ SPH.particle s' i
         = Particle.setCellIndex
             (Particle.setVelocity
                (Particle.setPosition (SPH.particle s i) position) velocity)
             (Grid.cellIndex (SPH._grid s) position).
Proof.
  intros Hi Hs'.
  destruct (moveParticle_result fuel deltaTime s s' i Hi Hs')
    as (position & velocity & Hloop & Hform).
  destruct (moveParticle_commit fuel deltaTime s i position velocity Hi Hloop)
    as (s'' & Hs'' & Hp).
  assert (s'' = s') by congruence. subst s''.
  cbv zeta in Hform.
  split; [apply (moveParticle_gridConsistent fuel deltaTime s s' i Hi Hs')|].
  assert (Hrest :
            sameConfiguration s s'
            /\ Grid.cellIndex (SPH._grid s') = Grid.cellIndex (SPH._grid s)
            /\ Grid.neighborhood (SPH._grid s')
               = Grid.neighborhood (SPH._grid s)
            /\ forall n, n <> i -> SPH.particle s' n = SPH.particle s n).
  { rewrite Hform.
    destruct (Nat.eqb (Particle.cellIndex (SPH.particle s i))
                      (Grid.cellIndex (SPH._grid s) position)).
    - split; [now destruct s|]. split; [reflexivity|]. split; [reflexivity|].
      intros n Hn. now apply particle_setParticle_neq.
    - split; [now destruct s|]. split; [reflexivity|]. split; [reflexivity|].
      intros n Hn. rewrite particle_setGrid. now apply particle_setParticle_neq. }
  destruct Hrest as (H1 & H2 & H3 & H4).
  repeat (split; [assumption|]).
  exists position, velocity. split; assumption.
Qed.

Section MoveLoop.

Variables (fuel : nat) (deltaTime : R) (s : SPH.t).
Variable P : nat -> SPH.t -> Prop.
Hypothesis P_start : P 0 s.

(** Invariants of the loop over the particles, on the runs that return. *)
Lemma moveParticles_invariant (s' : SPH.t) :
  (forall k t t',
      (k < length (SPH._particles s))%nat ->
      length (SPH._particles t) = length (SPH._particles s) ->
      P k t -> SPH.moveParticle fuel deltaTime t k = Some t' -> P (S k) t') ->
  SPH.moveParticles fuel deltaTime s = Some s' ->
  P (length (SPH._particles s)) s'
  /\ length (SPH._particles s') = length (SPH._particles s).
Proof.
  intros Hstep. unfold SPH.moveParticles.
  set (step := fun (os : option SPH.t) (i : nat) => _).
  assert (H : forall k r,
             (k <= length (SPH._particles s))%nat ->
             fold_left step (seq 0 k) (Some s) = Some r ->
             P k r /\ length (SPH._particles r) = length (SPH._particles s)).
  { induction k as [|k IH]; intros r Hk Hr.
    - simpl in Hr. injection Hr as <-. now split.
    - rewrite fold_left_seq_S in Hr.
      destruct (fold_left step (seq 0 k) (Some s)) as [t|] eqn:Et;
        [|discriminate].
      destruct (IH t) as [Pt Lt]; [lia|reflexivity|].
      unfold step in Hr. split.
      + apply (Hstep k t r); auto; lia.
      + rewrite <- Lt.
        apply (moveParticle_gridConsistent fuel deltaTime t r k);
          [lia|exact Hr]. }
  intros Hr. now apply H.
Qed.

(** The loop returns when each of its iterations does. *)
Lemma moveParticles_returns :
  (forall k t,
      (k < length (SPH._particles s))%nat ->
      length (SPH._particles t) = length (SPH._particles s) ->
      P k t ->
      exists t', SPH.moveParticle fuel deltaTime t k = Some t' /\ P (S k) t') ->
  exists s',
    SPH.moveParticles fuel deltaTime s = Some s'
    /\ P (length (SPH._particles s)) s'
    /\ length (SPH._particles s') = length (SPH._particles s).
Proof.
  intros Hstep. unfold SPH.moveParticles.
  set (step := fun (os : option SPH.t) (i : nat) => _).
  assert (H : forall k,
             (k <= length (SPH._particles s))%nat ->
             exists r,
               fold_left step (seq 0 k) (Some s) = Some r
               /\ P k r
               /\ length (SPH._particles r) = length (SPH._particles s)).
  { induction k as [|k IH]; intros Hk.
    - exists s. now repeat split.
    - destruct IH as (t & Et & Pt & Lt); [lia|].
      destruct (Hstep k t) as (t' & Em & Pt'); [lia|exact Lt|exact Pt|].
      exists t'. rewrite fold_left_seq_S, Et. split; [exact Em|].
      split; [exact Pt'|]. rewrite <- Lt.
      apply (moveParticle_gridConsistent fuel deltaTime t t' k);
        [lia|exact Em]. }
  now apply H.
Qed.

End MoveLoop.

(** The integrator never touches the mass, the density, the volume, the
    pressure or the acceleration of a particle. *)
Lemma moveParticle_keeps (fuel : nat) (deltaTime : R) (s s' : SPH.t)
    (i : nat) :
  (i < length (SPH._particles s))%nat ->
  SPH.moveParticle fuel deltaTime s i = Some s' ->
  forall n,
    Particle.mass (SPH.particle s' n) = Particle.mass (SPH.particle s n)
    /\ Particle.density (SPH.particle s' n)
       = Particle.density (SPH.particle s n)
    /\ Particle.volume (SPH.particle s' n) = Particle.volume (SPH.particle s n)
    /\ Particle.pressure (SPH.particle s' n)
       = Particle.pressure (SPH.particle s n)
    /\ Particle.acceleration (SPH.particle s' n)
       = Particle.acceleration (SPH.particle s n).
Proof.
  intros Hi Hs' n.
  destruct (moveParticle_frame fuel deltaTime s s' i Hi Hs')
    as (_ & _ & _ & _ & Hother & position & velocity & _ & Hp).
  destruct (Nat.eq_dec n i) as [->|Hn].
  - rewrite Hp. now repeat split.
  - rewrite (Hother n Hn). now repeat split.
Qed.

Lemma moveParticles_keeps (fuel : nat) (deltaTime : R) (s s' : SPH.t) :
  SPH.moveParticles fuel deltaTime s = Some s' ->
  length (SPH._particles s') = length (SPH._particles s)
  /\ sameConfiguration s s'
  /\ Grid.cellIndex (SPH._grid s') = Grid.cellIndex (SPH._grid s)
  /\ Grid.neighborhood (SPH._grid s') = Grid.neighborhood (SPH._grid s)
  /\ forall n,
      Particle.mass (SPH.particle s' n) = Particle.mass (SPH.particle s n)
      /\ Particle.density (SPH.particle s' n)
         = Particle.density (SPH.particle s n)
      /\ Particle.volume (SPH.particle s' n)
         = Particle.volume (SPH.particle s n)
      /\ Particle.pressure (SPH.particle s' n)
         = Particle.pressure (SPH.particle s n)
      /\ Particle.acceleration (SPH.particle s' n)
         = Particle.acceleration (SPH.particle s n).
Proof.
  intros Hs'.
  destruct (moveParticles_invariant fuel deltaTime s
              (fun _ t =>
                 sameConfiguration s t
                 /\ Grid.cellIndex (SPH._grid t) = Grid.cellIndex (SPH._grid s)
                 /\ Grid.neighborhood (SPH._grid t)
                    = Grid.neighborhood (SPH._grid s)
                 /\ forall n,
                     Particle.mass (SPH.particle t n)
                     = Particle.mass (SPH.particle s n)
                     /\ Particle.density (SPH.particle t n)
                        = Particle.density (SPH.particle s n)
                     /\ Particle.volume (SPH.particle t n)
                        = Particle.volume (SPH.particle s n)
                     /\ Particle.pressure (SPH.particle t n)
                        = Particle.pressure (SPH.particle s n)
                     /\ Particle.acceleration (SPH.particle t n)
                        = Particle.acceleration (SPH.particle s n)))
    with (s' := s') as [Hinv HL].
  - split; [apply sameConfiguration_refl|]. now repeat split.
  - intros k t t' Hk Lt (Hc & Hci & Hnb & Hf) Hm.
    assert (Hkt : (k < length (SPH._particles t))%nat) by lia.
    destruct (moveParticle_frame fuel deltaTime t t' k Hkt Hm)
      as (_ & Hc' & Hci' & Hnb' & _).
    split; [eapply sameConfiguration_trans; eassumption|].
    split; [congruence|]. split; [congruence|].
    intros n.
    destruct (moveParticle_keeps fuel deltaTime t t' k Hkt Hm n)
      as (E1 & E2 & E3 & E4 & E5).
    destruct (Hf n) as (F1 & F2 & F3 & F4 & F5).
    repeat split; congruence.
  - exact Hs'.
  - split; [exact HL|exact Hinv].
Qed.

Lemma noSurface_noNearHit (container : Geometry.t)
    (position movement movementLeft : vec) :
  noSurface container -> noNearHit container position movement movementLeft.
Proof. intros H. unfold noNearHit. now rewrite H. Qed.

Lemma displacement_commit (s : SPH.t) (i : nat) (deltaTime : R) :
  Particle.position (SPH.particle s i) [+] Spec.displacement s i deltaTime
  = Spec.newPosition s i deltaTime.
Proof. unfold Spec.displacement. vec_ring. Qed.

(** X9.  Free flight.  When the container reports no hit, the integrator
    returns after one iteration of the collision loop per particle, and it
    is the semi-implicit Euler step for every particle: the velocity
    becomes [velocity + acceleration·Δt], the position
    [position + velocity'·Δt] with the new velocity, the cell index the
    cell of the new position; the other fields are kept. *)
Theorem moveParticles_free_flight (fuel : nat) (deltaTime : R) (s : SPH.t) :
  noSurface (SPH._container s) ->
  exists s',
    SPH.moveParticles (S fuel) deltaTime s = Some s'
    /\ length (SPH._particles s') = length (SPH._particles s)
    /\ forall i, (i < length (SPH._particles s))%nat ->
         SPH.particle s' i
         = Particle.setCellIndex
             (Particle.setVelocity
                (Particle.setPosition (SPH.particle s i)
                   (Particle.position (SPH.particle s i)
                    [+] (Particle.velocity (SPH.particle s i)
                         [+] Particle.acceleration (SPH.particle s i)
                             [*] deltaTime) [*] deltaTime))
                (Particle.velocity (SPH.particle s i)
                 [+] Particle.acceleration (SPH.particle s i) [*] deltaTime))
             (Grid.cellIndex (SPH._grid s)
                (Particle.position (SPH.particle s i)
                 [+] (Particle.velocity (SPH.particle s i)
                      [+] Particle.acceleration (SPH.particle s i)
                          [*] deltaTime) [*] deltaTime)).
Proof.
  intros Hopen.
  set (moved := fun i =>
         Particle.setCellIndex
           (Particle.setVelocity
              (Particle.setPosition (SPH.particle s i)
                 (Spec.newPosition s i deltaTime))
              (Spec.newVelocity s i deltaTime))
           (Grid.cellIndex (SPH._grid s) (Spec.newPosition s i deltaTime))).
  destruct (moveParticles_returns (S fuel) deltaTime s
              (fun k t =>
                 sameConfiguration s t
                 /\ Grid.cellIndex (SPH._grid t) = Grid.cellIndex (SPH._grid s)
                 /\ forall n,
                     SPH.particle t n
                     = if Nat.ltb n k then moved n else SPH.particle s n))
    as (s' & Hs' & (_ & _ & Hp) & HL).
  - split; [apply sameConfiguration_refl|]. split; [reflexivity|].
    intros n. reflexivity.
  - intros k t Hk Lt (Hc & Hci & Hp).
    assert (Hkt : (k < length (SPH._particles t))%nat) by lia.
    assert (Hpk : SPH.particle t k = SPH.particle s k).
    { rewrite Hp. now rewrite Nat.ltb_irrefl. }
    assert (Hloop : Spec.particleLoop (S fuel) deltaTime t k
                    = Some (Spec.newPosition s k deltaTime,
                            Spec.newVelocity s k deltaTime)).
    { unfold Spec.particleLoop. rewrite collisionLoop_exit.
      - rewrite displacement_commit.
        unfold Spec.newPosition, Spec.newVelocity. now rewrite Hpk.
      - apply noSurface_noNearHit.
        destruct (sameConfiguration_fields _ _ Hc) as (-> & _). exact Hopen. }
    destruct (moveParticle_commit (S fuel) deltaTime t k _ _ Hkt Hloop)
      as (t' & Ht' & Hpt').
    exists t'. split; [exact Ht'|].
    destruct (moveParticle_frame (S fuel) deltaTime t t' k Hkt Ht')
      as (_ & Hc' & Hci' & _ & Hother & _).
    split; [eapply sameConfiguration_trans; eassumption|].
    split; [congruence|].
    intros n. destruct (Nat.eq_dec n k) as [->|Hn].
    + rewrite Hpt', Hpk, Hci.
      replace (Nat.ltb k (S k)) with true
        by (symmetry; apply Nat.ltb_lt; lia).
      reflexivity.
    + rewrite (Hother n Hn), Hp.
      destruct (Nat.ltb_spec n k); destruct (Nat.ltb_spec n (S k));
        try reflexivity; lia.
  - exists s'. split; [exact Hs'|]. split; [exact HL|].
    intros i Hi. rewrite Hp.
    replace (Nat.ltb i (length (SPH._particles s))) with true
      by (symmetry; now apply Nat.ltb_lt).
    reflexivity.
Qed.

Lemma moveParticles_free_flight_witness :
  exists s',
    SPH.moveParticles 1 0.5 Example.pair = Some s'
    /\ length (SPH._particles s') = length (SPH._particles Example.pair)
    /\ forall i, (i < length (SPH._particles Example.pair))%nat ->
         SPH.particle s' i
         = Particle.setCellIndex
             (Particle.setVelocity
                (Particle.setPosition (SPH.particle Example.pair i)
                   (Particle.position (SPH.particle Example.pair i)
                    [+] (Particle.velocity (SPH.particle Example.pair i)
                         [+] Particle.acceleration (SPH.particle Example.pair i)
                             [*] 0.5) [*] 0.5))
                (Particle.velocity (SPH.particle Example.pair i)
                 [+] Particle.acceleration (SPH.particle Example.pair i)
                     [*] 0.5))
             (Grid.cellIndex (SPH._grid Example.pair)
                (Particle.position (SPH.particle Example.pair i)
                 [+] (Particle.velocity (SPH.particle Example.pair i)
                      [+] Particle.acceleration (SPH.particle Example.pair i)
                          [*] 0.5) [*] 0.5)).
Proof.
  apply (moveParticles_free_flight 0 0.5 Example.pair).
  intros ray. reflexivity.
Defined.

Lemma displacement_zero (s : SPH.t) (i : nat) :
  Spec.displacement s i 0 = QVector3D.null
  /\ Spec.newPosition s i 0 = Particle.position (SPH.particle s i)
  /\ Spec.newVelocity s i 0 = Particle.velocity (SPH.particle s i).
Proof.
  unfold Spec.displacement, Spec.newPosition, Spec.newVelocity.
  repeat split; vec_ring.
Qed.

Lemma length_null : QVector3D.length QVector3D.null = 0.
Proof.
  unfold QVector3D.length. vec_simpl.
  replace (0 * 0 + 0 * 0 + 0 * 0) with 0 by ring. apply sqrt_0.
Qed.

(** X10.  A time step of zero.  On a state whose particles store the cell
    of their position, the integrator called with [Δt = 0] returns the
    state it was given, whatever the container reports: no particle
    moves, none changes its velocity, none is re-bucketed. *)
Theorem moveParticles_zero_step (fuel : nat) (s : SPH.t) :
  gridConsistent s -> SPH.moveParticles (S fuel) 0 s = Some s.
Proof.
  intros GC.
  destruct (moveParticles_returns (S fuel) 0 s (fun _ t => t = s))
    as (s' & Hs' & -> & _); [reflexivity| |exact Hs'].
  intros k t Hk _ ->. exists s. split; [|reflexivity].
  destruct (displacement_zero s k) as (Hd & Hnp & Hnv).
  assert (Hloop : Spec.particleLoop (S fuel) 0 s k
                  = Some (Particle.position (SPH.particle s k),
                          Particle.velocity (SPH.particle s k))).
  { unfold Spec.particleLoop. rewrite collisionLoop_exit.
    - now rewrite displacement_commit, Hnp, Hnv.
    - apply zero_length_noNearHit. rewrite Hd. apply length_null. }
  destruct (moveParticle_commit (S fuel) 0 s k _ _ Hk Hloop)
    as (t' & Ht' & _).
  rewrite Ht'. f_equal.
  destruct (moveParticle_result (S fuel) 0 s t' k Hk Ht')
    as (position & velocity & Hloop' & Hform).
  rewrite Hloop in Hloop'. injection Hloop' as <- <-.
  cbv zeta in Hform. destruct (GC k Hk) as [Hcell _].
  rewrite <- Hcell, Nat.eqb_refl in Hform. rewrite Hform.
  replace (Particle.setVelocity _ _) with (SPH.particle s k)
    by now destruct (SPH.particle s k).
  apply setParticle_same.
Qed.

Lemma moveParticles_zero_step_witness :
  SPH.moveParticles 1 0 Example.single = Some Example.single.
Proof.
  apply (moveParticles_zero_step 0 Example.single).
  exact single_gridConsistent.
Defined.

Lemma response_speed (n v : vec) :
  QVector3D.dotProduct n n = 1 ->
  QVector3D.lengthSquared (v [-] n [*] QVector3D.dotProduct v n)
  <= QVector3D.lengthSquared v.
Proof.
  intros Hn.
  assert (E : QVector3D.lengthSquared (v [-] n [*] QVector3D.dotProduct v n)
              = QVector3D.lengthSquared v
                - QVector3D.dotProduct v n * QVector3D.dotProduct v n
                  * (2 - QVector3D.dotProduct n n)).
  { vec_simpl. ring. }
  rewrite E, Hn.
  pose proof (Rle_0_sqr (QVector3D.dotProduct v n)) as H. unfold Rsqr in H.
  lra.
Qed.

Lemma collisionLoop_speed (container : Geometry.t) (fuel : nat) :
  unitNormals container ->
  forall position newPosition movement movementLeft velocity r,
    SPH.collisionLoop container fuel position newPosition movement
                      movementLeft velocity = Some r ->
    QVector3D.lengthSquared (snd r) <= QVector3D.lengthSquared velocity.
Proof.
  intros Hunit. induction fuel as [|fuel IH];
    intros position newPosition movement movementLeft velocity r Hr;
    [discriminate|].
  destruct (Geometry.intersect container
              (Geometry.mkRay position (QVector3D.normalized movement)))
    as [hit|] eqn:E.
  - destruct (Rlt_dec
                (QVector3D.length
                   (QVector3D.normalized movement
                    [*] Geometry.rayParameterT hit))
                (QVector3D.length movementLeft)) as [Hnear|Hfar].
    + rewrite (collisionLoop_hit _ _ _ _ _ _ _ hit E Hnear) in Hr.
      cbv zeta in Hr. apply IH in Hr.
      eapply Rle_trans; [exact Hr|].
      apply response_speed. exact (Hunit _ _ E).
    + rewrite collisionLoop_exit in Hr
        by (unfold noNearHit; rewrite E; exact Hfar).
      injection Hr as <-. simpl. lra.
  - rewrite collisionLoop_exit in Hr by (unfold noNearHit; now rewrite E).
    injection Hr as <-. simpl. lra.
Qed.

(** X11.  The collision response never speeds a particle up.  When the
    normals that the container reports are unit vectors and the
    integrator returns, the speed of every particle is at most the speed
    it had after its velocity update [velocity + acceleration·Δt],
    however many times the particle has hit the surface. *)
Theorem moveParticles_never_speeds_up (fuel : nat) (deltaTime : R)
    (s s' : SPH.t) (i : nat) :
  unitNormals (SPH._container s) ->
  SPH.moveParticles fuel deltaTime s = Some s' ->
  (i < length (SPH._particles s))%nat ->
  QVector3D.lengthSquared (Particle.velocity (SPH.particle s' i))
  <= QVector3D.lengthSquared
       (Particle.velocity (SPH.particle s i)
        [+] Particle.acceleration (SPH.particle s i) [*] deltaTime).
Proof.
  intros Hunit Hs' Hi.
  destruct (moveParticles_invariant fuel deltaTime s
              (fun k t =>
                 sameConfiguration s t
                 /\ forall n,
                     if Nat.ltb n k
                     then QVector3D.lengthSquared
                            (Particle.velocity (SPH.particle t n))
                          <= QVector3D.lengthSquared
                               (Spec.newVelocity s n deltaTime)
                     else SPH.particle t n = SPH.particle s n))
    with (s' := s') as [[_ Hinv] _].
  - split; [apply sameConfiguration_refl|]. intros n. reflexivity.
  - intros k t t' Hk Lt (Hc & Hp) Hm.
    assert (Hkt : (k < length (SPH._particles t))%nat) by lia.
    destruct (moveParticle_frame fuel deltaTime t t' k Hkt Hm)
      as (_ & Hc' & _ & _ & Hother & position & velocity & Hloop & Hpk).
    split; [eapply sameConfiguration_trans; eassumption|].
    intros n. destruct (Nat.eq_dec n k) as [->|Hn].
    + replace (Nat.ltb k (S k)) with true
        by (symmetry; apply Nat.ltb_lt; lia).
      rewrite Hpk. cbn [Particle.velocity Particle.setCellIndex
                        Particle.setVelocity].
      pose proof (Hp k) as Hk'. rewrite Nat.ltb_irrefl in Hk'.
      unfold Spec.particleLoop in Hloop.
      apply collisionLoop_speed in Hloop.
      * unfold Spec.newVelocity in *. rewrite Hk' in Hloop. exact Hloop.
      * destruct (sameConfiguration_fields _ _ Hc) as (-> & _). exact Hunit.
    + rewrite (Hother n Hn). specialize (Hp n).
      destruct (Nat.ltb_spec n k); destruct (Nat.ltb_spec n (S k));
        try assumption; lia.
  - exact Hs'.
  - specialize (Hinv i).
    replace (Nat.ltb i (length (SPH._particles s))) with true in Hinv
      by (symmetry; now apply Nat.ltb_lt).
    exact Hinv.
Qed.

Lemma faller_unitNormals : unitNormals (SPH._container Example.faller).
Proof.
  intros ray hit H. apply halfSpace_normal in H. rewrite H.
  vec_simpl. ring.
Qed.

Lemma faller_returns :
  exists s', SPH.moveParticles 2 1 Example.faller = Some s'.
Proof.
  rewrite moveParticles_single by reflexivity.
  destruct (halfSpace_two_iterations (QVector3D.make 0 (-1) 0) 0.5 0
              (Particle.position (SPH.particle Example.faller 0))
              (Spec.newPosition Example.faller 0 1)
              (Spec.displacement Example.faller 0 1)
              (Spec.displacement Example.faller 0 1)
              (Spec.newVelocity Example.faller 0 1))
    as ([position velocity] & Hr); [vec_simpl; ring|].
  destruct (moveParticle_commit 2 1 Example.faller 0 position velocity)
    as (s' & Hs' & _); [simpl; lia|exact Hr|].
  now exists s'.
Qed.

Lemma moveParticles_never_speeds_up_witness :
  exists s',
    SPH.moveParticles 2 1 Example.faller = Some s'
    /\ QVector3D.lengthSquared (Particle.velocity (SPH.particle s' 0))
       <= QVector3D.lengthSquared
            (Particle.velocity (SPH.particle Example.faller 0)
             [+] Particle.acceleration (SPH.particle Example.faller 0) [*] 1).
Proof.
  destruct faller_returns as (s' & Hs'). exists s'. split; [exact Hs'|].
  apply (moveParticles_never_speeds_up 2 1 Example.faller s' 0).
  - exact faller_unitNormals.
  - exact Hs'.
  - simpl. lia.
Defined.

Lemma Rsum_mass_ext (l l' : list Particle.t) :
  length l' = length l ->
  (forall n, Particle.mass (nth n l' Particle.default)
             = Particle.mass (nth n l Particle.default)) ->
  map Particle.mass l' = map Particle.mass l.
Proof.
  intros HL H. apply (nth_ext _ _ 0 0); [now rewrite !length_map|].
  intros n Hn.
  change 0 with (Particle.mass Particle.default).
  rewrite !map_nth. apply H.
Qed.

(** What a completed step keeps. *)
Lemma animate_keeps (fuel : nat) (s s' : SPH.t) (timeDelta : R) :
  SPH.animate fuel s timeDelta = Some s' ->
  sameConfiguration s s'
  /\ length (SPH._particles s') = length (SPH._particles s)
  /\ Grid.cellIndex (SPH._grid s') = Grid.cellIndex (SPH._grid s)
  /\ Grid.neighborhood (SPH._grid s') = Grid.neighborhood (SPH._grid s)
  /\ forall n,
      Particle.mass (SPH.particle s' n) = Particle.mass (SPH.particle s n)
      /\ Particle.density (SPH.particle s' n)
         = Particle.density (SPH.particle (SPH.computeDensities s) n)
      /\ Particle.volume (SPH.particle s' n)
         = Particle.volume (SPH.particle (SPH.computeDensities s) n)
      /\ Particle.pressure (SPH.particle s' n)
         = Particle.pressure (SPH.particle (SPH.computeDensities s) n)
      /\ Particle.acceleration (SPH.particle s' n)
         = Particle.acceleration
             (SPH.particle (SPH.computeForces (SPH.computeDensities s)) n).
Proof.
  unfold SPH.animate. cbv zeta.
  set (deltaTime := if Rgt_dec _ _ then _ else _). clearbody deltaTime.
  set (d := SPH.computeDensities s). set (f := SPH.computeForces d).
  intros Hs'.
  destruct (moveParticles_keeps fuel deltaTime f s' Hs')
    as (HL & Hc & Hci & Hnb & Hk).
  pose proof (computeDensities_sameGeometry s) as G. fold d in G.
  destruct (sameGeometry_sameConfiguration _ _ G) as [Hcd Hgd].
  pose proof G as (_ & GL & GP).
  pose proof (computeForces_erase d) as He. fold f in He.
  destruct (erase_sameConfiguration _ _ He) as [Hcf Hgf].
  destruct (erase_eq_fields _ _ He) as (_ & _ & _ & FL).
  split.
  { eapply sameConfiguration_trans; [exact Hcd|].
    eapply sameConfiguration_trans; [exact Hcf|exact Hc]. }
  split; [congruence|]. split; [congruence|]. split; [congruence|].
  intros n. destruct (Hk n) as (-> & -> & -> & -> & ->).
  pose proof (erase_particle_fields _ _ n He) as Hn.
  destruct (GP n) as (_ & <- & _).
  repeat split.
  - exact (f_equal Particle.mass Hn).
  - exact (f_equal Particle.density Hn).
  - exact (f_equal Particle.volume Hn).
  - exact (f_equal Particle.pressure Hn).
Qed.

(** X12.  A step conserves the fluid.  When [animate] returns, the
    configuration and the number of particles are those before the step,
    every particle has the mass it had, and so the fluid its total mass;
    the density, the volume and the pressure of a particle are those that
    the density solver stored at the beginning of the step, and its
    acceleration is the one that the force solver stored. *)
Theorem animate_conserves (fuel : nat) (s s' : SPH.t) (timeDelta : R) :
  SPH.animate fuel s timeDelta = Some s' ->
  sameConfiguration s s'
  /\ length (SPH._particles s') = length (SPH._particles s)
  /\ map Particle.mass (SPH._particles s')
     = map Particle.mass (SPH._particles s)
  /\ Spec.totalMass s' = Spec.totalMass s
  /\ forall n,
      Particle.density (SPH.particle s' n)
      = Particle.density (SPH.particle (SPH.computeDensities s) n)
      /\ Particle.volume (SPH.particle s' n)
         = Particle.volume (SPH.particle (SPH.computeDensities s) n)
      /\ Particle.pressure (SPH.particle s' n)
         = Particle.pressure (SPH.particle (SPH.computeDensities s) n)
      /\ Particle.acceleration (SPH.particle s' n)
         = Particle.acceleration
             (SPH.particle (SPH.computeForces (SPH.computeDensities s)) n).
Proof.
  intros Hs'.
  destruct (animate_keeps fuel s s' timeDelta Hs') as (Hc & HL & _ & _ & Hk).
  assert (Hmap : map Particle.mass (SPH._particles s')
                 = map Particle.mass (SPH._particles s)).
  { apply Rsum_mass_ext; [exact HL|]. intros n. apply (Hk n). }
  split; [exact Hc|]. split; [exact HL|]. split; [exact Hmap|].
  split; [unfold Spec.totalMass; now rewrite Hmap|].
  intros n. apply (Hk n).
Qed.

Lemma single_animate :
  exists s', SPH.animate 1 Example.single 0.01 = Some s'.
Proof.
  destruct (lone_particle_step Example.single 0 single_length single_wellFormed
              single_neighborsOf)
    as (_ & _ & _ & _ & _ & _ & s' & Hs' & _).
  - rewrite single_eq. reflexivity.
  - reflexivity.
  - simpl. lra.
  - apply single_noNearHit.
  - now exists s'.
Qed.

Lemma animate_conserves_witness :
  exists s',
    SPH.animate 1 Example.single 0.01 = Some s'
    /\ length (SPH._particles s') = length (SPH._particles Example.single)
    /\ Spec.totalMass s' = Spec.totalMass Example.single.
Proof.
  destruct single_animate as (s' & Hs'). exists s'. split; [exact Hs'|].
  destruct (animate_conserves 1 Example.single s' 0.01 Hs')
    as (_ & HL & _ & HM & _).
  split; assumption.
Defined.

(** * The surface evaluator, further *)

Lemma Rsum_nonneg {A : Type} (f : A -> R) (l : list A) :
  (forall a, In a l -> 0 <= f a) -> 0 <= Rsum (map f l).
Proof.
  induction l as [|a l IH]; intros H; simpl; [lra|].
  pose proof (H a (or_introl eq_refl)).
  assert (0 <= Rsum (map f l)) by (apply IH; intros b Hb; apply H; now right).
  lra.
Qed.

(** X13.  The value of the implicit surface is never below [-0.7], the
    value it has where no particle is near: with a kernel coefficient and
    masses that are not negative and a positive rest density, every
    particle within the radius can only raise it. *)
Theorem surfaceInfo_value_lower_bound (s : SPH.t) (position : vec) :
  0 <= SPH._coeffPoly6 s -> 0 < SPH._restDensity s ->
  (forall n, 0 <= Particle.mass (SPH.particle s n)) ->
  -0.7 <= fst (SPH.surfaceInfo s position).
Proof.
  intros Hc Hrho Hm. unfold SPH.surfaceInfo. cbv zeta.
  rewrite surfaceSums_spec. cbn [fst SPH.surfaceDensity].
  assert (H : 0 <= Spec.fieldDensity s position).
  { unfold Spec.fieldDensity. apply Rsum_nonneg. intros n Hn.
    apply filter_In in Hn. destruct Hn as [_ Hn]. apply near_true in Hn.
    apply Rmult_le_pos; [|apply Hm].
    unfold SPH.densityKernel.
    assert (Hd : 0 < SPH._smoothingRadius2 s - Spec.distance2 s position n)
      by lra.
    repeat apply Rmult_le_pos; lra. }
  assert (0 <= Spec.fieldDensity s position / SPH._restDensity s).
  { apply Rmult_le_pos; [exact H|]. left. now apply Rinv_0_lt_compat. }
  lra.
Qed.

Lemma single_masses (n : nat) :
  0 <= Particle.mass (SPH.particle Example.single n).
Proof.
  rewrite single_eq. destruct n as [|[|n]]; simpl; lra.
Qed.

Lemma surfaceInfo_value_lower_bound_witness :
  -0.7 <= fst (SPH.surfaceInfo Example.single (QVector3D.make 0.5 0 0)).
Proof.
  apply (surfaceInfo_value_lower_bound Example.single (QVector3D.make 0.5 0 0)).
  - rewrite single_eq. simpl. pose proof PI_RGT_0.
    apply Rlt_le, Rdiv_lt_0_compat; lra.
  - rewrite single_eq. simpl. lra.
  - exact single_masses.
Defined.

Lemma fieldDensity_rawSum (s : SPH.t) (i : nat) :
  gridConsistent s -> (i < length (SPH._particles s))%nat ->
  Spec.fieldDensity s (Particle.position (SPH.particle s i)) = Spec.rawSum s i.
Proof.
  intros GC Hi. destruct (GC i Hi) as [Hcell _].
  unfold Spec.fieldDensity, Spec.rawSum, Spec.neighborsOf, Spec.r2.
  now rewrite Hcell.
Qed.

(** X14.  The surface evaluator agrees with the density solver.  On a
    consistent grid, the value of the implicit surface at the position of
    a particle, read after the density solver has run, is the pressure
    stored for that particle plus [0.3]: both come from the same raw
    kernel sum. *)
Theorem surfaceInfo_at_particle (s : SPH.t) (i : nat) :
  gridConsistent s -> (i < length (SPH._particles s))%nat ->
  fst (SPH.surfaceInfo (SPH.computeDensities s)
         (Particle.position (SPH.particle s i)))
  = Particle.pressure (SPH.particle (SPH.computeDensities s) i) + 0.3.
Proof.
  intros GC Hi.
  pose proof (computeDensities_sameGeometry s) as G.
  pose proof G as (_ & GL & GP).
  destruct (sameGeometry_config _ _ G) as (_ & _ & _ & _ & Hrho).
  unfold SPH.surfaceInfo. cbv zeta.
  rewrite surfaceSums_spec. cbn [fst SPH.surfaceDensity].
  destruct (GP i) as (Hpos & _). rewrite <- Hpos.
  rewrite fieldDensity_rawSum;
    [|now apply computeDensities_gridConsistent|rewrite GL; exact Hi].
  rewrite (sameGeometry_rawSum _ _ _ G), Hrho.
  rewrite computeDensities_particle by assumption. simpl.
  unfold SPH.pressure. lra.
Qed.

Lemma surfaceInfo_at_particle_witness :
  fst (SPH.surfaceInfo (SPH.computeDensities Example.single)
         (Particle.position (SPH.particle Example.single 0)))
  = Particle.pressure (SPH.particle (SPH.computeDensities Example.single) 0)
    + 0.3.
Proof.
  apply (surfaceInfo_at_particle Example.single 0).
  - exact single_gridConsistent.
  - rewrite single_length. lia.
Defined.

(** * Resetting the velocities *)

Lemma resetVelocity_other (s : SPH.t) (i n : nat) :
  i <> n ->
  SPH.particle
    (SPH.setParticle s i
       (Particle.setVelocity (SPH.particle s i) QVector3D.null)) n
  = SPH.particle s n.
Proof. apply particle_setParticle_neq. Qed.

Lemma resetVelocities_loop (s : SPH.t) (k : nat) :
  let s' :=
    fold_left
      (fun s i =>
         SPH.setParticle s i
           (Particle.setVelocity (SPH.particle s i) QVector3D.null))
      (seq 0 k) s in
  SPH.setParticles s' (SPH._particles s) = s
  /\ length (SPH._particles s') = length (SPH._particles s).
Proof.
  induction k as [|k IH]; intros s'; subst s'.
  - simpl. split; [now destruct s|reflexivity].
  - rewrite fold_left_seq_S. destruct IH as [IH1 IH2].
    set (st := fold_left _ (seq 0 k) s) in *.
    split; [exact IH1|].
    unfold SPH.setParticle. simpl. now rewrite update_length.
Qed.

(** X15.  [resetVelocities] sets the velocity of every particle to the
    null vector and changes nothing else: no other field of a particle,
    no bucket of the grid, no parameter.  Called twice it does what it
    does once. *)
Theorem resetVelocities_resets (s : SPH.t) :
  SPH.resetVelocities s
  = SPH.setParticles s
      (map (fun p => Particle.setVelocity p QVector3D.null) (SPH._particles s))
  /\ SPH.resetVelocities (SPH.resetVelocities s) = SPH.resetVelocities s.
Proof.
  assert (H : forall t,
             SPH.resetVelocities t
             = SPH.setParticles t
                 (map (fun p => Particle.setVelocity p QVector3D.null)
                      (SPH._particles t))).
  { intros t. unfold SPH.resetVelocities.
    destruct (resetVelocities_loop t (length (SPH._particles t))) as [Hc HL].
    set (f := fun (s : SPH.t) (i : nat) => _) in *.
    set (t' := fold_left f _ t) in *.
    rewrite <- Hc at 1.
    replace (SPH.setParticles (SPH.setParticles t' (SPH._particles t)) _)
      with (SPH.setParticles t'
              (map (fun p => Particle.setVelocity p QVector3D.null)
                   (SPH._particles t))) by reflexivity.
    replace (map _ (SPH._particles t)) with (SPH._particles t');
      [now destruct t'|].
    apply (nth_ext _ _ Particle.default
             (Particle.setVelocity Particle.default QVector3D.null));
      [now rewrite length_map|].
    intros n Hn. rewrite HL in Hn.
    rewrite (map_nth (fun p => Particle.setVelocity p QVector3D.null)).
    change (SPH.particle t' n
            = Particle.setVelocity (SPH.particle t n) QVector3D.null).
    unfold t'. rewrite (loop_done f resetVelocity_other) by assumption.
    unfold f at 1. rewrite particle_setParticle_eq.
    - now rewrite (loop_untouched f resetVelocity_other) by lia.
    - pose proof (proj2 (resetVelocities_loop t n)) as HLn.
      cbv zeta in HLn. fold f in HLn. rewrite HLn. exact Hn. }
  split; [apply H|].
  rewrite (H (SPH.resetVelocities s)), (H s). unfold SPH.setParticles. simpl.
  f_equal. rewrite map_map. apply map_ext. intros p. reflexivity.
Qed.

(** * The inflated bounding box *)

(** X16.  The bounding box that the grid is built on.  For a container box
    whose minimum corner is below its maximum corner on every axis,
    [inflatedContainerBoundingBox] has the centre of the container box,
    1.2 times its extent on every axis, and contains it. *)
Theorem inflatedContainerBoundingBox_contains (b : BoundingBox.t) :
  QVector3D.x (BoundingBox.minimum b) <= QVector3D.x (BoundingBox.maximum b) ->
  QVector3D.y (BoundingBox.minimum b) <= QVector3D.y (BoundingBox.maximum b) ->
  QVector3D.z (BoundingBox.minimum b) <= QVector3D.z (BoundingBox.maximum b) ->
  let b' := SPH.inflatedContainerBoundingBox b in
  (BoundingBox.minimum b' [+] BoundingBox.maximum b') [*] 0.5
  = (BoundingBox.minimum b [+] BoundingBox.maximum b) [*] 0.5
  /\ BoundingBox.maximum b' [-] BoundingBox.minimum b'
     = (BoundingBox.maximum b [-] BoundingBox.minimum b) [*] 1.2
  /\ (QVector3D.x (BoundingBox.minimum b') <= QVector3D.x (BoundingBox.minimum b)
      /\ QVector3D.x (BoundingBox.maximum b) <= QVector3D.x (BoundingBox.maximum b'))
  /\ (QVector3D.y (BoundingBox.minimum b') <= QVector3D.y (BoundingBox.minimum b)
      /\ QVector3D.y (BoundingBox.maximum b) <= QVector3D.y (BoundingBox.maximum b'))
  /\ (QVector3D.z (BoundingBox.minimum b') <= QVector3D.z (BoundingBox.minimum b)
      /\ QVector3D.z (BoundingBox.maximum b) <= QVector3D.z (BoundingBox.maximum b')).
Proof.
  intros Hx Hy Hz b'. subst b'. unfold SPH.inflatedContainerBoundingBox.
  destruct b as [[x0 y0 z0] [x1 y1 z1]]. simpl in *.
  split; [apply vec_eq; vec_simpl; lra|].
  split; [apply vec_eq; vec_simpl; lra|].
  vec_simpl. repeat split; lra.
Qed.

Lemma inflatedContainerBoundingBox_contains_witness :
  let b := BoundingBox.make (QVector3D.make 0 0 0) (QVector3D.make 1 2 3) in
  let b' := SPH.inflatedContainerBoundingBox b in
  (BoundingBox.minimum b' [+] BoundingBox.maximum b') [*] 0.5
  = (BoundingBox.minimum b [+] BoundingBox.maximum b) [*] 0.5
  /\ BoundingBox.maximum b' [-] BoundingBox.minimum b'
     = (BoundingBox.maximum b [-] BoundingBox.minimum b) [*] 1.2
  /\ (QVector3D.x (BoundingBox.minimum b') <= QVector3D.x (BoundingBox.minimum b)
      /\ QVector3D.x (BoundingBox.maximum b) <= QVector3D.x (BoundingBox.maximum b'))
  /\ (QVector3D.y (BoundingBox.minimum b') <= QVector3D.y (BoundingBox.minimum b)
      /\ QVector3D.y (BoundingBox.maximum b) <= QVector3D.y (BoundingBox.maximum b'))
  /\ (QVector3D.z (BoundingBox.minimum b') <= QVector3D.z (BoundingBox.minimum b)
      /\ QVector3D.z (BoundingBox.maximum b) <= QVector3D.z (BoundingBox.maximum b')).
Proof.
  intros b.
  apply (inflatedContainerBoundingBox_contains b); simpl; lra.
Defined.

(** * Seeding, further *)

Lemma initializeParticle_other (m : R) (s : SPH.t) (i n : nat) :
  i <> n ->
  SPH.particle (SPH.initializeParticle m s i) n = SPH.particle s n.
Proof.
  intros H. unfold SPH.initializeParticle. cbv zeta.
  rewrite particle_setGrid. now apply particle_setParticle_neq.
Qed.

Lemma initializeParticles_prefix (m : R) (s : SPH.t) (k : nat) :
  let s' := fold_left (SPH.initializeParticle m) (seq 0 k) s in
  sameConfiguration s s'
  /\ length (SPH._particles s') = length (SPH._particles s)
  /\ Grid.cellIndex (SPH._grid s') = Grid.cellIndex (SPH._grid s)
  /\ Grid.neighborhood (SPH._grid s') = Grid.neighborhood (SPH._grid s).
Proof.
  induction k as [|k IH]; intros s'; subst s'.
  - simpl. split; [apply sameConfiguration_refl|]. now repeat split.
  - rewrite fold_left_seq_S. destruct IH as (Hc & HL & Hci & Hnb).
    set (st := fold_left _ (seq 0 k) s) in *.
    split.
    { eapply sameConfiguration_trans; [exact Hc|].
      apply initializeParticle_sameConfiguration. }
    split; [now rewrite initializeParticle_length|].
    split; [exact Hci|exact Hnb].
Qed.

(** The particle [i] after the seeding loop. *)
Lemma initializeParticles_particle (m : R) (s : SPH.t) (k i : nat) :
  (k <= length (SPH._particles s))%nat -> (i < k)%nat ->
  SPH.particle (fold_left (SPH.initializeParticle m) (seq 0 k) s) i
  = Particle.setCellIndex
      (Particle.setPosition
         (Particle.setVolume
            (Particle.setDensity (Particle.setMass (SPH.particle s i) m)
               (SPH._restDensity s))
            (m / SPH._restDensity s))
         (Geometry.randomInteriorPoint (SPH._container s) i))
      (Grid.cellIndex (SPH._grid s)
         (Geometry.randomInteriorPoint (SPH._container s) i)).
Proof.
  intros Hk Hi.
  rewrite (loop_done _ (initializeParticle_other m)) by assumption.
  destruct (initializeParticles_prefix m s i) as (Hc & HL & Hci & _).
  set (st := fold_left _ (seq 0 i) s) in *.
  assert (Hp : SPH.particle st i = SPH.particle s i)
    by (apply (loop_untouched _ (initializeParticle_other m)); lia).
  destruct (sameConfiguration_fields _ _ Hc) as (Hcont & _ & _ & _ & Hrho & _).
  unfold SPH.initializeParticle. cbv zeta.
  rewrite particle_setGrid, particle_setParticle_eq by lia.
  cbn [Particle.position Particle.setPosition].
  now rewrite Hp, Hrho, Hcont, Hci.
Qed.

Lemma Rsum_repeat (a : R) (n : nat) : Rsum (repeat a n) = INR n * a.
Proof.
  induction n as [|n IH]; [simpl; ring|].
  rewrite S_INR. cbn [repeat Rsum]. rewrite IH. ring.
Qed.

Lemma particle_repeat_default (s : SPH.t) (n i : nat) :
  SPH._particles s = repeat Particle.default n ->
  SPH.particle s i = Particle.default.
Proof. intros H. unfold SPH.particle. rewrite H. apply nth_repeat. Qed.

(** The particle [i] of a constructed system. *)
Lemma construct_particle
    (container : Geometry.t) (h viscosity pressure surfaceTension : R)
    (grid : Grid.t) (nbParticles : nat) (restDensity totalVolume maxDTime : R)
    (gravity : vec) (localInv : vec -> vec) (i : nat) :
  (i < nbParticles)%nat ->
  let s := SPH.construct container h viscosity pressure surfaceTension grid
             nbParticles restDensity totalVolume maxDTime gravity localInv in
  let mass := totalVolume * restDensity / INR nbParticles in
  length (SPH._particles s) = nbParticles
  /\ SPH.particle s i
     = Particle.setCellIndex
         (Particle.setPosition
            (Particle.setVolume
               (Particle.setDensity (Particle.setMass Particle.default mass)
                  restDensity)
               (mass / restDensity))
            (Geometry.randomInteriorPoint container i))
         (Grid.cellIndex grid (Geometry.randomInteriorPoint container i)).
Proof.
  intros Hi s mass. subst s. unfold SPH.construct, SPH.initializeParticles.
  cbv zeta.
  set (s0 := SPH.initializeCoefficients _).
  assert (HL0 : length (SPH._particles s0) = nbParticles)
    by apply repeat_length.
  destruct (initializeParticles_prefix
              (totalVolume * SPH._restDensity s0
               / INR (length (SPH._particles s0)))
              s0 (length (SPH._particles s0))) as (_ & HL & _).
  split; [now rewrite HL|].
  rewrite initializeParticles_particle by lia.
  rewrite (particle_repeat_default s0 nbParticles i eq_refl), HL0.
  reflexivity.
Qed.

(** X17.  Seeding.  The constructor makes [nbParticles] particles that
    share the fluid equally: each has the mass
    [totalVolume·restDensity / nbParticles], the rest density as its
    density, [mass / restDensity] as its volume, the interior point that
    the container drew for it as its position and the cell of that point
    as its cell index; the masses add up to [totalVolume·restDensity]. *)
Theorem construct_seeds
    (container : Geometry.t) (h viscosity pressure surfaceTension : R)
    (grid : Grid.t) (nbParticles : nat) (restDensity totalVolume maxDTime : R)
    (gravity : vec) (localInv : vec -> vec) (i : nat) :
  (i < nbParticles)%nat ->
  let s := SPH.construct container h viscosity pressure surfaceTension grid
             nbParticles restDensity totalVolume maxDTime gravity localInv in
  let mass := totalVolume * restDensity / INR nbParticles in
  length (SPH._particles s) = nbParticles
  /\ Particle.mass (SPH.particle s i) = mass
  /\ Particle.density (SPH.particle s i) = restDensity
  /\ Particle.volume (SPH.particle s i) = mass / restDensity
  /\ Particle.position (SPH.particle s i)
     = Geometry.randomInteriorPoint container i
  /\ Particle.cellIndex (SPH.particle s i)
     = Grid.cellIndex grid (Geometry.randomInteriorPoint container i)
  /\ Spec.totalMass s = totalVolume * restDensity.
Proof.
  intros Hi s mass.
  destruct (construct_particle container h viscosity pressure surfaceTension
              grid nbParticles restDensity totalVolume maxDTime gravity
              localInv i Hi) as [HL Hp].
  fold s in HL, Hp. fold mass in Hp.
  split; [exact HL|]. rewrite Hp. repeat split.
  unfold Spec.totalMass.
  replace (map Particle.mass (SPH._particles s)) with (repeat mass nbParticles).
  - rewrite Rsum_repeat. unfold mass. field.
    apply not_0_INR. lia.
  - apply (nth_ext _ _ 0 0);
      [now rewrite repeat_length, length_map, HL|].
    intros n Hn. rewrite repeat_length in Hn.
    rewrite (nth_repeat_lt mass 0 Hn).
    change 0 with (Particle.mass Particle.default). rewrite map_nth.
    destruct (construct_particle container h viscosity pressure
                surfaceTension grid nbParticles restDensity totalVolume
                maxDTime gravity localInv n Hn) as [_ Hpn].
    fold s in Hpn. unfold SPH.particle in Hpn. rewrite Hpn. reflexivity.
Qed.

Lemma construct_seeds_witness :
  length (SPH._particles Example.single) = 1%nat
  /\ Particle.mass (SPH.particle Example.single 0) = 1 * 1 / INR 1
  /\ Particle.density (SPH.particle Example.single 0) = 1
  /\ Particle.volume (SPH.particle Example.single 0) = 1 * 1 / INR 1 / 1
  /\ Particle.position (SPH.particle Example.single 0)
     = Geometry.randomInteriorPoint Example.openContainer 0
  /\ Particle.cellIndex (SPH.particle Example.single 0)
     = Grid.cellIndex Example.twoCells
         (Geometry.randomInteriorPoint Example.openContainer 0)
  /\ Spec.totalMass Example.single = 1 * 1.
Proof.
  apply (construct_seeds Example.openContainer 1 1 1 1 Example.twoCells 1 1 1
           1 Example.gravity (fun v => v) 0).
  lia.
Defined.

(** * The stored densities of a simulation *)

Lemma atRest_wellFormed (s : SPH.t) : atRest s -> wellFormed s.
Proof.
  intros (GC & BV & Own & Hh & Hc & Hrho & Hm & U).
  split; [exact Hh|]. split; [exact Hc|]. split; [|split].
  - intros n Hn. split; [now apply Hm|]. now rewrite (U n Hn).
  - intros i n _ Hin. eapply candidates_valid; eassumption.
  - intros i Hi. destruct (GC i Hi) as [Hcell Hcount].
    unfold Spec.candidates. apply in_flat_map.
    exists (Particle.cellIndex (SPH.particle s i)). split.
    + rewrite Hcell. apply Own.
    + apply (count_occ_In Nat.eq_dec).
      rewrite Hcount, Nat.eqb_refl. lia.
Qed.

Lemma animate_atRest (fuel : nat) (s s' : SPH.t) (timeDelta : R) :
  SPH.animate fuel s timeDelta = Some s' -> atRest s -> atRest s'.
Proof.
  intros Hs' A. pose proof (atRest_wellFormed s A) as WF.
  destruct A as (GC & BV & Own & Hh & Hc & Hrho & Hm & U).
  destruct (animate_keeps fuel s s' timeDelta Hs')
    as (Hcfg & HL & Hci & Hnb & Hk).
  destruct (sameConfiguration_fields _ _ Hcfg)
    as (_ & _ & _ & _ & Erho & Eh & Ec).
  split; [now apply (animate_gridConsistent fuel s s' timeDelta)|].
  split; [now apply (animate_bucketsValid fuel s s' timeDelta)|].
  split; [intros position; rewrite Hnb, Hci; apply Own|].
  rewrite Eh, Ec, Erho, HL. repeat (split; [assumption|]).
  split.
  - intros n Hn. destruct (Hk n) as (-> & _). now apply Hm.
  - intros n Hn. rewrite HL in Hn. destruct (Hk n) as (_ & -> & _).
    apply (computeDensities_uniform s (SPH._restDensity s) WF U).
    destruct (computeDensities_sameGeometry s) as (_ & -> & _). exact Hn.
Qed.

Lemma construct_coeffPoly6_pos
    (container : Geometry.t) (h viscosity pressure surfaceTension : R)
    (grid : Grid.t) (nbParticles : nat) (restDensity totalVolume maxDTime : R)
    (gravity : vec) (localInv : vec -> vec) :
  0 < h ->
  0 < SPH._coeffPoly6
        (SPH.construct container h viscosity pressure surfaceTension grid
           nbParticles restDensity totalVolume maxDTime gravity localInv).
Proof.
  intros Hh.
  destruct (construct_coefficients container h viscosity pressure
              surfaceTension grid nbParticles restDensity totalVolume
              maxDTime gravity localInv) as (-> & _).
  pose proof PI_RGT_0 as Hpi. unfold SPH.M_PI.
  apply Rdiv_lt_0_compat; [lra|].
  apply Rmult_lt_0_compat; [lra|].
  repeat apply Rmult_lt_0_compat; assumption.
Qed.

Lemma construct_atRest
    (container : Geometry.t) (h viscosity pressure surfaceTension : R)
    (grid : Grid.t) (nbParticles : nat) (restDensity totalVolume maxDTime : R)
    (gravity : vec) (localInv : vec -> vec) :
  0 < h -> 0 < restDensity -> 0 < totalVolume ->
  (forall cell, Grid.cellParticles grid cell = []) ->
  ownCellListed grid ->
  atRest (SPH.construct container h viscosity pressure surfaceTension grid
            nbParticles restDensity totalVolume maxDTime gravity localInv).
Proof.
  intros Hh Hrho HV Hempty Own.
  pose proof (construct_coefficients container h viscosity pressure
                surfaceTension grid nbParticles restDensity totalVolume
                maxDTime gravity localInv) as (_ & _ & _ & _ & Eh & Erho).
  pose proof (construct_coeffPoly6_pos container h viscosity pressure
                surfaceTension grid nbParticles restDensity totalVolume
                maxDTime gravity localInv Hh) as Hc.
  pose proof (fun i => construct_particle container h viscosity pressure
                surfaceTension grid nbParticles restDensity totalVolume
                maxDTime gravity localInv i) as Hp.
  cbv zeta in Hp.
  split; [now apply construct_gridConsistent|].
  split; [now apply construct_bucketsValid|].
  set (s := SPH.construct _ _ _ _ _ _ _ _ _ _ _ _) in *.
  split.
  { unfold s, SPH.construct, SPH.initializeParticles. cbv zeta.
    set (s0 := SPH.initializeCoefficients _).
    destruct (initializeParticles_prefix
                (totalVolume * SPH._restDensity s0
                 / INR (length (SPH._particles s0)))
                s0 (length (SPH._particles s0))) as (_ & _ & Hci & Hnb).
    intros position. rewrite Hnb, Hci. apply Own. }
  rewrite Eh, Erho.
  split; [now apply Rmult_lt_0_compat|]. split; [exact Hc|].
  split; [exact Hrho|].
  split.
  - intros n Hn.
    assert (Hn' : (n < nbParticles)%nat)
      by (destruct nbParticles; [simpl in Hn; lia|];
          now rewrite (proj1 (Hp 0%nat (Nat.lt_0_succ _))) in Hn).
    destruct (Hp n Hn') as [_ ->]. simpl.
    apply Rdiv_lt_0_compat; [now apply Rmult_lt_0_compat|].
    apply lt_0_INR. lia.
  - intros n Hn.
    assert (Hn' : (n < nbParticles)%nat)
      by (destruct nbParticles; [simpl in Hn; lia|];
          now rewrite (proj1 (Hp 0%nat (Nat.lt_0_succ _))) in Hn).
    destruct (Hp n Hn') as [_ ->]. reflexivity.
Qed.

(** X18.  The stored density never leaves the rest density.  In a system
    built by the constructor with a positive smoothing radius, rest
    density and total volume, on a grid that starts with empty buckets
    and lists the cell of a point among its neighbours, every particle
    stores the rest density after every completed call of [animate]: the
    correction divides the raw sum by itself over the common density.
    Such states are well formed, so neither solver divides by zero. *)
Theorem reachable_density_is_rest_density
    (container : Geometry.t) (h viscosity pressure surfaceTension : R)
    (grid : Grid.t) (nbParticles : nat) (restDensity totalVolume maxDTime : R)
    (gravity : vec) (localInv : vec -> vec) (s : SPH.t) :
  0 < h -> 0 < restDensity -> 0 < totalVolume ->
  (forall cell, Grid.cellParticles grid cell = []) ->
  ownCellListed grid ->
  reachable
    (SPH.construct container h viscosity pressure surfaceTension grid
       nbParticles restDensity totalVolume maxDTime gravity localInv) s ->
  uniformDensity s restDensity /\ wellFormed s.
Proof.
  intros Hh Hrho HV Hempty Own Hreach.
  assert (A : atRest s /\ SPH._restDensity s = restDensity).
  { induction Hreach as [|s s' fuel timeDelta _ [IH1 IH2] Hs'].
    - split; [now apply construct_atRest|].
      apply (construct_coefficients container h viscosity pressure
               surfaceTension grid nbParticles restDensity totalVolume
               maxDTime gravity localInv).
    - split; [exact (animate_atRest fuel s s' timeDelta Hs' IH1)|].
      destruct (animate_keeps fuel s s' timeDelta Hs') as (Hcfg & _).
      destruct (sameConfiguration_fields _ _ Hcfg)
        as (_ & _ & _ & _ & -> & _).
      exact IH2. }
  destruct A as [A E]. split; [|now apply atRest_wellFormed].
  rewrite <- E. apply A.
Qed.

Lemma twoCells_ownCellListed : ownCellListed Example.twoCells.
Proof.
  intros position. simpl. destruct (Rlt_dec _ _); simpl; auto.
Qed.

Lemma reachable_density_is_rest_density_witness :
  exists s',
    SPH.animate 1 Example.single 0.01 = Some s'
    /\ uniformDensity s' 1 /\ wellFormed s'.
Proof.
  destruct single_animate as (s' & Hs'). exists s'. split; [exact Hs'|].
  apply (reachable_density_is_rest_density Example.openContainer 1 1 1 1
           Example.twoCells 1 1 1 1 Example.gravity (fun v => v) s');
    try lra.
  - reflexivity.
  - exact twoCells_ownCellListed.
  - apply (reachable_animate _ Example.single s' 1 0.01);
      [apply reachable_constructed|exact Hs'].
Defined.

(** * The direction of the surface normal *)

Lemma vsum_weights {A : Type} (v : A -> vec) (k w : A -> R) (rho : R)
    (l : list A) :
  (forall a, In a l -> w a = - k a / rho) ->
  QVector3D.neg (QVector3D.sum (map (fun a => v a [*] k a) l) [/] rho)
  = QVector3D.sum (map (fun a => v a [*] w a) l).
Proof.
  induction l as [|a l IH]; intros H.
  - simpl. apply vec_eq; vec_simpl; unfold Rdiv; ring.
  - cbn [map QVector3D.sum]. rewrite <- IH by (intros b Hb; apply H; now right).
    rewrite (H a (or_introl eq_refl)).
    apply vec_eq; vec_simpl; unfold Rdiv; ring.
Qed.

(** X19.  The surface normal points out of the fluid.  The normal that
    [surfaceInfo] returns is the normalization of a sum of the vectors
    from the neighbours to the query point, every one with the weight
    [6·coeffPoly6·(h² − r²)²·mass / restDensity], which is positive when
    the kernel coefficient, the rest density and the masses of the
    neighbours are: every neighbour pushes the normal away from itself. *)
Theorem surfaceInfo_normal_points_outward (s : SPH.t) (position : vec) :
  0 < SPH._coeffPoly6 s -> 0 < SPH._restDensity s ->
  (forall n,
      In n (Spec.neighbors s position (Grid.cellIndex (SPH._grid s) position)) ->
      0 < Particle.mass (SPH.particle s n)) ->
  snd (SPH.surfaceInfo s position)
  = QVector3D.normalize
      (QVector3D.sum
         (map (fun n =>
                 (position [-] Particle.position (SPH.particle s n))
                 [*] normalWeight s position n)
              (Spec.neighbors s position
                 (Grid.cellIndex (SPH._grid s) position))))
  /\ forall n,
      In n (Spec.neighbors s position (Grid.cellIndex (SPH._grid s) position)) ->
      0 < normalWeight s position n.
Proof.
  intros Hc Hrho Hm. split.
  - unfold SPH.surfaceInfo. cbv zeta. rewrite surfaceSums_spec.
    cbn [snd SPH.densityKernelGradientX SPH.densityKernelGradientY
         SPH.densityKernelGradientZ].
    change (QVector3D.make
              (QVector3D.x (Spec.fieldGradient s position) / SPH._restDensity s)
              (QVector3D.y (Spec.fieldGradient s position) / SPH._restDensity s)
              (QVector3D.z (Spec.fieldGradient s position) / SPH._restDensity s))
      with (Spec.fieldGradient s position [/] SPH._restDensity s).
    rewrite normalize_neg. f_equal. unfold Spec.fieldGradient.
    apply vsum_weights. intros n _.
    unfold normalWeight, SPH.densitykernelGradient, Rdiv. ring.
  - intros n Hn. pose proof (Hm n Hn) as Hmass.
    apply filter_In in Hn. destruct Hn as [_ Hn]. apply near_true in Hn.
    unfold normalWeight.
    assert (0 < SPH._smoothingRadius2 s - Spec.distance2 s position n) by lra.
    apply Rdiv_lt_0_compat; [|exact Hrho].
    repeat apply Rmult_lt_0_compat; try assumption; lra.
Qed.

Lemma single_neighbors_mass (position : vec) (n : nat) :
  In n (Spec.neighbors Example.single position
          (Grid.cellIndex (SPH._grid Example.single) position)) ->
  0 < Particle.mass (SPH.particle Example.single n).
Proof.
  intros Hn. apply filter_In in Hn. destruct Hn as [Hn _].
  apply (candidates_valid _ _ _ single_bucketsValid) in Hn.
  rewrite single_length in Hn. assert (n = 0%nat) as -> by lia.
  rewrite single_eq. simpl. lra.
Qed.

Lemma surfaceInfo_normal_points_outward_witness :
  snd (SPH.surfaceInfo Example.single (QVector3D.make 0.5 0 0))
  = QVector3D.normalize
      (QVector3D.sum
         (map (fun n =>
                 (QVector3D.make 0.5 0 0
                  [-] Particle.position (SPH.particle Example.single n))
                 [*] normalWeight Example.single (QVector3D.make 0.5 0 0) n)
              (Spec.neighbors Example.single (QVector3D.make 0.5 0 0)
                 (Grid.cellIndex (SPH._grid Example.single)
                    (QVector3D.make 0.5 0 0)))))
  /\ forall n,
      In n (Spec.neighbors Example.single (QVector3D.make 0.5 0 0)
              (Grid.cellIndex (SPH._grid Example.single)
                 (QVector3D.make 0.5 0 0))) ->
      0 < normalWeight Example.single (QVector3D.make 0.5 0 0) n.
Proof.
  apply (surfaceInfo_normal_points_outward Example.single
           (QVector3D.make 0.5 0 0)).
  - rewrite single_eq. simpl. pose proof PI_RGT_0.
    apply Rdiv_lt_0_compat; lra.
  - rewrite single_eq. simpl. lra.
  - apply single_neighbors_mass.
Defined.

(** * Galilean invariance of the force solver *)

Lemma fold_left_agree {A B : Type} (f g : A -> B -> A) (l : list B) :
  (forall a b, In b l -> f a b = g a b) ->
  forall a, fold_left f l a = fold_left g l a.
Proof.
  induction l as [|b l IH]; intros H a; [reflexivity|].
  simpl. rewrite (H a b (or_introl eq_refl)).
  apply IH. intros a' b' Hb'. apply H. now right.
Qed.

Lemma particle_boost (s : SPH.t) (u : vec) (n : nat) :
  (n < length (SPH._particles s))%nat ->
  SPH.particle (boost s u) n
  = Particle.setVelocity (SPH.particle s n)
      (Particle.velocity (SPH.particle s n) [+] u).
Proof.
  intros Hn. unfold SPH.particle, boost. simpl.
  rewrite (nth_indep _ Particle.default
             (Particle.setVelocity Particle.default
                (Particle.velocity Particle.default [+] u)))
    by now rewrite length_map.
  apply (map_nth (fun p => Particle.setVelocity p (Particle.velocity p [+] u))).
Qed.

Lemma forceSums_boost (s : SPH.t) (u : vec) (i : nat) :
  bucketsValid s -> (i < length (SPH._particles s))%nat ->
  SPH.forceSums (boost s u) i = SPH.forceSums s i.
Proof.
  intros BV Hi. unfold SPH.forceSums. cbv zeta.
  rewrite particle_boost by assumption.
  cbn [Particle.cellIndex Particle.setVelocity].
  change (SPH._grid (boost s u)) with (SPH._grid s).
  rewrite !fold_left_flat_map.
  apply fold_left_agree. intros acc n Hn.
  assert (Hv : (n < length (SPH._particles s))%nat)
    by (eapply candidates_valid; [exact BV|exact Hn]).
  unfold SPH.forceContribution. rewrite particle_boost by assumption.
  cbn [Particle.position Particle.velocity Particle.pressure Particle.volume
       Particle.setVelocity].
  change (SPH._smoothingRadius2 (boost s u)) with (SPH._smoothingRadius2 s).
  destruct (Rlt_dec _ _); [|reflexivity].
  f_equal. f_equal. f_equal. vec_ring.
Qed.

Lemma erase_boost (s : SPH.t) (u : vec) :
  eraseAcceleration (boost s u) = boost (eraseAcceleration s) u.
Proof.
  unfold eraseAcceleration, boost, SPH.setParticles. simpl.
  f_equal. rewrite !map_map. apply map_ext. intros p. reflexivity.
Qed.

(** X20.  Galilean invariance.  The force solver commutes with a change
    of inertial frame: when the buckets hold particles, adding one and
    the same velocity to every particle before the pass or after it gives
    the same state, so the accelerations depend on the differences of the
    velocities only. *)
Theorem computeForces_galilean (s : SPH.t) (u : vec) :
  bucketsValid s ->
  SPH.computeForces (boost s u) = boost (SPH.computeForces s) u.
Proof.
  intros BV. apply setParticles_ext.
  - rewrite erase_boost, !computeForces_erase. apply erase_boost.
  - intros n Hn.
    assert (HL : length (SPH._particles (SPH.computeForces s))
                 = length (SPH._particles s))
      by apply (erase_eq_fields _ _ (computeForces_erase s)).
    assert (Hn' : (n < length (SPH._particles s))%nat).
    { unfold boost in Hn. simpl in Hn. rewrite length_map in Hn.
      now rewrite HL in Hn. }
    rewrite particle_boost by (rewrite HL; exact Hn').
    rewrite !computeForces_particle_sums
      by (try (unfold boost; simpl; rewrite length_map); exact Hn').
    rewrite forceSums_boost, particle_boost by assumption.
    reflexivity.
Qed.

Lemma computeForces_galilean_witness :
  SPH.computeForces (boost Example.single (QVector3D.make 1 0 0))
  = boost (SPH.computeForces Example.single) (QVector3D.make 1 0 0).
Proof.
  apply (computeForces_galilean Example.single (QVector3D.make 1 0 0)).
  exact single_bucketsValid.
Defined.

(** * What the pressure and the surface depend on *)

(** X21.  The stored pressure is a function of the positions and the
    masses.  A second pass of the density solver stores the pressures of
    the first, although it may store other densities: the pressure comes
    from the raw kernel sum, which reads no field that the solver
    writes. *)
Theorem computeDensities_pressure_stable (s : SPH.t) (i : nat) :
  (i < length (SPH._particles s))%nat ->
  Particle.pressure
    (SPH.particle (SPH.computeDensities (SPH.computeDensities s)) i)
  = Particle.pressure (SPH.particle (SPH.computeDensities s) i).
Proof.
  intros Hi. pose proof (computeDensities_sameGeometry s) as G.
  pose proof G as (_ & GL & _).
  destruct (sameGeometry_config _ _ G) as (_ & _ & _ & _ & Hrho).
  rewrite (computeDensities_particle (SPH.computeDensities s))
    by (rewrite GL; exact Hi).
  rewrite (computeDensities_particle s) by exact Hi.
  cbn [Particle.pressure Particle.setPressure].
  rewrite (sameGeometry_rawSum _ _ _ G). unfold SPH.pressure.
  now rewrite Hrho.
Qed.

Lemma computeDensities_pressure_stable_witness :
  Particle.pressure
    (SPH.particle (SPH.computeDensities (SPH.computeDensities Example.pair)) 1)
  = Particle.pressure (SPH.particle (SPH.computeDensities Example.pair) 1).
Proof.
  apply (computeDensities_pressure_stable Example.pair 1). simpl. lia.
Defined.

Lemma surfaceInfo_ext (s t : SPH.t) (position : vec) :
  SPH._grid t = SPH._grid s ->
  SPH._smoothingRadius2 t = SPH._smoothingRadius2 s ->
  SPH._coeffPoly6 t = SPH._coeffPoly6 s ->
  SPH._restDensity t = SPH._restDensity s ->
  (forall n,
      Particle.position (SPH.particle t n) = Particle.position (SPH.particle s n)
      /\ Particle.mass (SPH.particle t n) = Particle.mass (SPH.particle s n)) ->
  SPH.surfaceInfo t position = SPH.surfaceInfo s position.
Proof.
  intros Hg Hh Hc Hrho Hp.
  assert (E : SPH.surfaceSums t position = SPH.surfaceSums s position).
  { unfold SPH.surfaceSums. cbv zeta. rewrite Hg.
    rewrite !fold_left_flat_map. apply fold_left_agree. intros acc n _.
    unfold SPH.surfaceContribution, SPH.densityKernel,
      SPH.densitykernelGradient.
    destruct (Hp n) as [-> ->]. now rewrite Hh, Hc. }
  unfold SPH.surfaceInfo. cbv zeta. now rewrite E, Hrho.
Qed.

(** X22.  The implicit surface is a function of the positions and the
    masses.  The two solvers leave the value and the normal at every point
    as they are: the surface can be evaluated before the density pass,
    between the passes or after the force pass. *)
Theorem surfaceInfo_unchanged_by_solvers (s : SPH.t) (position : vec) :
  SPH.surfaceInfo (SPH.computeDensities s) position
  = SPH.surfaceInfo s position
  /\ SPH.surfaceInfo (SPH.computeForces s) position
     = SPH.surfaceInfo s position
  /\ SPH.surfaceInfo (SPH.computeForces (SPH.computeDensities s)) position
     = SPH.surfaceInfo s position.
Proof.
  assert (D : forall t, SPH.surfaceInfo (SPH.computeDensities t) position
                        = SPH.surfaceInfo t position).
  { intros t. pose proof (computeDensities_sameGeometry t) as G.
    destruct (sameGeometry_config _ _ G) as (Hg & Hh & _ & Hc & Hrho).
    destruct G as (_ & _ & GP).
    apply surfaceInfo_ext; try assumption.
    intros n. destruct (GP n) as (-> & -> & _). now split. }
  assert (F : forall t, SPH.surfaceInfo (SPH.computeForces t) position
                        = SPH.surfaceInfo t position).
  { intros t. pose proof (computeForces_erase t) as He.
    destruct (erase_sameConfiguration _ _ He) as [Hc Hg].
    destruct (sameConfiguration_fields _ _ Hc)
      as (_ & _ & _ & _ & Hrho & Hh & Hc6).
    apply surfaceInfo_ext; try assumption.
    intros n. pose proof (erase_particle_fields _ _ n He) as Hn.
    split; [exact (f_equal Particle.position Hn)
           |exact (f_equal Particle.mass Hn)]. }
  split; [apply D|]. split; [apply F|]. now rewrite F, D.
Qed.

(** * The divisions by the correction sums *)

Lemma quotient_zero (a : R) : SPH.quotient a 0 = None.
Proof.
  unfold SPH.quotient. destruct (Req_dec_T 0 0) as [_|H]; [reflexivity|].
  now contradiction H.
Qed.

Lemma quotient_number (a b : R) : b <> 0 -> SPH.quotient a b = Some (a / b).
Proof.
  intros H. unfold SPH.quotient.
  destruct (Req_dec_T b 0); [contradiction|reflexivity].
Qed.

Lemma quotient_Some (a b q : R) :
  SPH.quotient a b = Some q -> b <> 0 /\ q = a / b.
Proof.
  unfold SPH.quotient. destruct (Req_dec_T b 0); [discriminate|].
  intros H. injection H as <-. now split.
Qed.

(** The checked iteration of the density solver divides by the correction
    sum whatever it is. *)
Lemma computeDensityChecked_zero (s : SPH.t) (i : nat) :
  Spec.correctionSum s i = 0 -> SPH.computeDensityChecked s i = None.
Proof.
  intros H. unfold SPH.computeDensityChecked.
  rewrite densitySums_spec, H, quotient_zero. reflexivity.
Qed.

Lemma computeDensityChecked_Some (s s' : SPH.t) (i : nat) :
  SPH.computeDensityChecked s i = Some s' ->
  s' = SPH.computeDensity s i
  /\ Spec.correctionSum s i <> 0
  /\ Spec.rawSum s i / Spec.correctionSum s i <> 0.
Proof.
  unfold SPH.computeDensityChecked, SPH.computeDensity.
  rewrite densitySums_spec.
  destruct (SPH.quotient (Spec.rawSum s i) (Spec.correctionSum s i))
    as [q|] eqn:Eq; [|discriminate].
  apply quotient_Some in Eq. destruct Eq as [Hc ->].
  cbn [Particle.mass Particle.density Particle.setDensity].
  destruct (SPH.quotient _ _) as [v|] eqn:Ev; [|discriminate].
  apply quotient_Some in Ev. destruct Ev as [Hd ->].
  intros H. injection H as <-. now repeat split.
Qed.

Lemma computeDensityChecked_number (s : SPH.t) (i : nat) :
  Spec.correctionSum s i <> 0 ->
  Spec.rawSum s i / Spec.correctionSum s i <> 0 ->
  SPH.computeDensityChecked s i = Some (SPH.computeDensity s i).
Proof.
  intros Hc Hd. unfold SPH.computeDensityChecked, SPH.computeDensity.
  rewrite densitySums_spec, (quotient_number _ _ Hc).
  cbn [Particle.mass Particle.density Particle.setDensity].
  now rewrite (quotient_number _ _ Hd).
Qed.

(** The checked iteration of the force solver divides by the correction
    sum whatever it is. *)
Lemma computeForceChecked_zero (g : vec) (s : SPH.t) (i : nat) :
  Spec.forceCorrection s i = 0 -> SPH.computeForceChecked g s i = None.
Proof.
  intros H. unfold SPH.computeForceChecked.
  rewrite forceSums_spec. cbn [SPH.correction]. rewrite H, !quotient_zero.
  reflexivity.
Qed.

Lemma computeForceChecked_Some (g : vec) (s s' : SPH.t) (i : nat) :
  SPH.computeForceChecked g s i = Some s' ->
  s' = SPH.computeForce g s i
  /\ Spec.forceCorrection s i <> 0
  /\ Particle.density (SPH.particle s i) <> 0.
Proof.
  unfold SPH.computeForceChecked, SPH.computeForce.
  rewrite forceSums_spec. cbn [SPH.correction SPH.pressureForce
                               SPH.viscosityForce SPH.tensionForce].
  destruct (SPH.quotient (SPH._pressure s) _) as [kp|] eqn:Ep; [|discriminate].
  destruct (SPH.quotient (SPH._viscosity s) _) as [kv|] eqn:Ev;
    [|discriminate].
  destruct (SPH.quotient (SPH._surfaceTension s) _) as [kt|] eqn:Et;
    [|discriminate].
  apply quotient_Some in Ep, Ev, Et.
  destruct Ep as [Hc ->]. destruct Ev as [_ ->]. destruct Et as [_ ->].
  destruct (Req_dec_T (Particle.density (SPH.particle s i)) 0) as [|Hd];
    [discriminate|].
  intros H. injection H as <-. now repeat split.
Qed.

Lemma computeForceChecked_number (g : vec) (s : SPH.t) (i : nat) :
  Spec.forceCorrection s i <> 0 ->
  Particle.density (SPH.particle s i) <> 0 ->
  SPH.computeForceChecked g s i = Some (SPH.computeForce g s i).
Proof.
  intros Hc Hd. unfold SPH.computeForceChecked, SPH.computeForce.
  rewrite forceSums_spec. cbn [SPH.correction SPH.pressureForce
                               SPH.viscosityForce SPH.tensionForce].
  rewrite !(quotient_number _ _ Hc).
  destruct (Req_dec_T (Particle.density (SPH.particle s i)) 0);
    [contradiction|reflexivity].
Qed.

(** On a well-formed state every checked division of the density solver
    is a division of numbers. *)
Lemma computeDensitiesChecked_wellFormed (s : SPH.t) :
  wellFormed s ->
  SPH.computeDensitiesChecked s = Some (SPH.computeDensities s).
Proof.
  intros WF. unfold SPH.computeDensitiesChecked.
  rewrite computeDensities_stateBefore.
  set (step := fun (os : option SPH.t) (i : nat) => _).
  assert (H : forall k, (k <= length (SPH._particles s))%nat ->
                fold_left step (seq 0 k) (Some s)
                = Some (Spec.stateBefore s k)).
  { induction k as [|k IH]; intros Hk; [reflexivity|].
    rewrite fold_left_seq_S, IH, stateBefore_S by lia. unfold step.
    pose proof (stateBefore_wellFormed s k WF) as WFk.
    destruct (wellFormed_sums_pos (Spec.stateBefore s k) k WFk) as [Hr Hc];
      [rewrite stateBefore_length; lia|].
    apply computeDensityChecked_number; [lra|].
    pose proof (Rdiv_lt_0_compat _ _ Hr Hc). lra. }
  now apply H.
Qed.

(** After the density solver has run on a well-formed state, every
    checked division of the force solver is a division of numbers. *)
Lemma computeForcesChecked_wellFormed (s : SPH.t) :
  wellFormed s ->
  SPH.computeForcesChecked (SPH.computeDensities s)
  = Some (SPH.computeForces (SPH.computeDensities s)).
Proof.
  intros WF. unfold SPH.computeForcesChecked, SPH.computeForces.
  set (d := SPH.computeDensities s).
  set (g := SPH.localInverted d (SPH._gravity d)).
  set (step := fun (os : option SPH.t) (i : nat) => _).
  assert (WFd : wellFormed d).
  { unfold d. rewrite computeDensities_stateBefore.
    now apply stateBefore_wellFormed. }
  assert (HL : length (SPH._particles d) = length (SPH._particles s)).
  { apply (computeDensities_sameGeometry s). }
  assert (H : forall k, (k <= length (SPH._particles d))%nat ->
                fold_left step (seq 0 k) (Some d)
                = Some (fold_left (SPH.computeForce g) (seq 0 k) d)).
  { induction k as [|k IH]; intros Hk; [reflexivity|].
    rewrite !fold_left_seq_S, IH by lia. unfold step.
    set (st := fold_left (SPH.computeForce g) (seq 0 k) d).
    assert (He : eraseAcceleration st = eraseAcceleration d)
      by apply computeForce_loop_erase.
    assert (Hst : SPH.particle st k = SPH.particle d k)
      by (apply (loop_untouched _ (computeForce_other g)); lia).
    apply computeForceChecked_number.
    - assert (E : Spec.forceCorrection st k = Spec.forceCorrection d k).
      { pose proof (f_equal SPH.correction (forceSums_spec st k)) as E1.
        pose proof (f_equal SPH.correction (forceSums_spec d k)) as E2.
        cbn [SPH.correction] in E1, E2. rewrite <- E1, <- E2.
        now rewrite <- (forceSums_erase st), He, forceSums_erase. }
      rewrite E. pose proof (forceCorrection_pos s k WF) as Hp.
      fold d in Hp. assert (0 < Spec.forceCorrection d k) by (apply Hp; lia).
      lra.
    - rewrite Hst. destruct WFd as (_ & _ & Hpos & _).
      destruct (Hpos k) as [_ Hd]; [lia|]. lra. }
  now apply H.
Qed.

(** C3, as amended.  Neither solver guards its division by the correction
    sum.  An iteration of the density solver whose correction sum is zero
    divides by zero: it has no number to store as the density, and does
    not fall back on the rest density; an iteration of the force solver
    whose correction sum is zero divides by zero in the same way.  Where
    the divisors are not zero the checked iterations are the iterations
    of the solvers.  On a well-formed state (positive smoothing radius,
    kernel coefficient, masses and stored densities, every particle
    bucketed in its own neighbourhood) the term of the particle itself
    makes both correction sums strictly positive, and every division of
    the two passes is a division of numbers. *)
Theorem corrections_unguarded (s : SPH.t) (i : nat) (gravity : vec) :
  (Spec.correctionSum s i = 0 -> SPH.computeDensityChecked s i = None)
  /\ (Spec.forceCorrection s i = 0 ->
      SPH.computeForceChecked gravity s i = None)
  /\ (forall s', SPH.computeDensityChecked s i = Some s' ->
        s' = SPH.computeDensity s i /\ Spec.correctionSum s i <> 0)
  /\ (forall s', SPH.computeForceChecked gravity s i = Some s' ->
        s' = SPH.computeForce gravity s i /\ Spec.forceCorrection s i <> 0)
  /\ (wellFormed s -> (i < length (SPH._particles s))%nat ->
      0 < Spec.correctionSum (Spec.stateBefore s i) i
      /\ 0 < Spec.forceCorrection (SPH.computeDensities s) i
      /\ SPH.computeDensitiesChecked s = Some (SPH.computeDensities s)
      /\ SPH.computeForcesChecked (SPH.computeDensities s)
         = Some (SPH.computeForces (SPH.computeDensities s))).
Proof.
  split; [apply computeDensityChecked_zero|].
  split; [apply computeForceChecked_zero|].
  split.
  { intros s' H. apply computeDensityChecked_Some in H.
    destruct H as (H1 & H2 & _). now split. }
  split.
  { intros s' H. apply computeForceChecked_Some in H.
    destruct H as (H1 & H2 & _). now split. }
  intros WF Hi.
  split.
  { apply wellFormed_sums_pos; [now apply stateBefore_wellFormed|].
    now rewrite stateBefore_length. }
  split; [now apply forceCorrection_pos|].
  split; [now apply computeDensitiesChecked_wellFormed|].
  now apply computeForcesChecked_wellFormed.
Qed.

Lemma isolated_correctionSum : Spec.correctionSum Example.isolated 0 = 0.
Proof.
  unfold Spec.correctionSum. rewrite isolated_neighborsOf. reflexivity.
Qed.

Lemma corrections_unguarded_witness :
  (0 < Spec.correctionSum (Spec.stateBefore Example.single 0) 0
   /\ 0 < Spec.forceCorrection (SPH.computeDensities Example.single) 0
   /\ SPH.computeDensitiesChecked Example.single
      = Some (SPH.computeDensities Example.single)
   /\ SPH.computeForcesChecked (SPH.computeDensities Example.single)
      = Some (SPH.computeForces (SPH.computeDensities Example.single)))
  /\ SPH.computeDensityChecked Example.isolated 0 = None.
Proof.
  split.
  - apply (corrections_unguarded Example.single 0 QVector3D.null).
    + exact single_wellFormed.
    + rewrite single_length. lia.
  - apply (corrections_unguarded Example.isolated 0 QVector3D.null).
    exact isolated_correctionSum.
Defined.

Lemma isolated_forceCorrection :
  Spec.forceCorrection (SPH.computeDensities Example.isolated) 0 = 0.
Proof.
  unfold Spec.forceCorrection.
  rewrite (sameGeometry_neighborsOf _ _ _
             (computeDensities_sameGeometry Example.isolated)).
  rewrite isolated_neighborsOf. reflexivity.
Qed.

(** C3 as it is stated fails on [Example.isolated], constructed with a
    smoothing radius of 0: no particle passes [r2 < 0], both sums of the
    density solver are 0, and the density solver divides [0] by [0]: the
    total division stores the quotient [0 / 0], not the rest density
    1000, and the checked iteration has no number to store.  The force
    solver then finds a correction sum of 0 and divides by it, where the
    claim has a zero force. *)
Lemma unguarded_division_counterexample :
  let p := SPH.particle (SPH.computeDensities Example.isolated) 0 in
  Spec.neighborsOf Example.isolated 0 = []
  /\ Spec.correctionSum (Spec.stateBefore Example.isolated 0) 0 = 0
  /\ Particle.density p = Spec.rawSum Example.isolated 0 / 0
  /\ Particle.density p <> SPH._restDensity Example.isolated
  /\ SPH.computeDensityChecked Example.isolated 0 = None
  /\ Spec.forceCorrection (SPH.computeDensities Example.isolated) 0 = 0
  /\ SPH.computeForceChecked
       (SPH.localInverted Example.isolated (SPH._gravity Example.isolated))
       (SPH.computeDensities Example.isolated) 0
     = None.
Proof.
  intros p. subst p.
  assert (Hc : Spec.correctionSum (Spec.stateBefore Example.isolated 0) 0 = 0).
  { unfold Spec.stateBefore, Spec.correctionSum. simpl fold_left.
    rewrite isolated_neighborsOf. reflexivity. }
  assert (Hr : Spec.rawSum Example.isolated 0 = 0).
  { unfold Spec.rawSum. rewrite isolated_neighborsOf. reflexivity. }
  rewrite computeDensities_particle by (simpl; lia).
  rewrite Hc.
  cbn [Particle.density Particle.setPressure Particle.setVolume
       Particle.setDensity].
  split; [apply isolated_neighborsOf|]. split; [reflexivity|].
  split; [reflexivity|].
  split; [rewrite Hr; simpl; unfold Rdiv; rewrite Rmult_0_l; lra|].
  split; [apply computeDensityChecked_zero; exact Hc|].
  split; [apply isolated_forceCorrection|].
  apply computeForceChecked_zero, isolated_forceCorrection.
Qed.

(** * The normal of the implicit surface *)

Lemma surfaceInfo_normalize (s : SPH.t) (position : vec) :
  SPH.surfaceInfo s position
  = (Spec.fieldDensity s position / SPH._restDensity s - (1 - 0.3),
     QVector3D.normalize
       (QVector3D.neg (Spec.fieldGradient s position [/] SPH._restDensity s))).
Proof.
  unfold SPH.surfaceInfo. rewrite surfaceSums_spec. simpl.
  f_equal. rewrite normalize_neg. f_equal.
Qed.

Lemma lengthSquared_nonneg (u : vec) : 0 <= QVector3D.lengthSquared u.
Proof.
  unfold QVector3D.lengthSquared.
  pose proof (Rle_0_sqr (QVector3D.x u)). pose proof (Rle_0_sqr (QVector3D.y u)).
  pose proof (Rle_0_sqr (QVector3D.z u)). unfold Rsqr in *. lra.
Qed.

(** What [QVector3D::normalize] does, told by the squared length. *)
Lemma normalize_cases (u : vec) :
  (0.000000000001 < QVector3D.lengthSquared u ->
   0.000000000001 < Rabs (QVector3D.lengthSquared u - 1) ->
   QVector3D.normalize u = u [/] sqrt (QVector3D.lengthSquared u))
  /\ (QVector3D.lengthSquared u <= 0.000000000001
      \/ Rabs (QVector3D.lengthSquared u - 1) <= 0.000000000001 ->
      QVector3D.normalize u = u).
Proof.
  pose proof (lengthSquared_nonneg u) as H0.
  unfold QVector3D.normalize, QVector3D.qFuzzyIsNull. cbv zeta. split.
  - intros H1 H2.
    destruct (Rle_dec (Rabs (QVector3D.lengthSquared u - 1)) 0.000000000001);
      [lra|].
    destruct (Rle_dec (Rabs (QVector3D.lengthSquared u)) 0.000000000001)
      as [H|_]; [|reflexivity].
    rewrite Rabs_right in H by lra. lra.
  - intros [H|H].
    + destruct (Rle_dec (Rabs (QVector3D.lengthSquared u - 1)) 0.000000000001);
        [reflexivity|].
      destruct (Rle_dec (Rabs (QVector3D.lengthSquared u)) 0.000000000001)
        as [_|H']; [reflexivity|].
      exfalso. apply H'. rewrite Rabs_right by lra. exact H.
    + destruct (Rle_dec (Rabs (QVector3D.lengthSquared u - 1)) 0.000000000001);
        [reflexivity|contradiction].
Qed.

Lemma lengthSquared_unit (u : vec) :
  0 < QVector3D.lengthSquared u ->
  QVector3D.lengthSquared (u [/] sqrt (QVector3D.lengthSquared u)) = 1.
Proof.
  intros H. pose proof (sqrt_lt_R0 _ H) as Hs.
  pose proof (sqrt_sqrt (QVector3D.lengthSquared u) (Rlt_le _ _ H)) as Hss.
  destruct u as [x y z]. unfold QVector3D.lengthSquared in *. simpl in *.
  set (l := sqrt (x * x + y * y + z * z)) in *.
  replace (x / l * (x / l) + y / l * (y / l) + z / l * (z / l))
    with ((x * x + y * y + z * z) / (l * l)) by (field; lra).
  rewrite Hss. field. lra.
Qed.

Lemma normalization_nonnull (u : vec) :
  0 < QVector3D.lengthSquared u ->
  Spec.normalization u = u [/] sqrt (QVector3D.lengthSquared u).
Proof.
  intros H. unfold Spec.normalization.
  destruct (Req_dec_T (QVector3D.lengthSquared u) 0); [lra|reflexivity].
Qed.

(** C9, as amended.  The value that [surfaceInfo] returns is
    [density / restDensity - (1 - 0.3)], [density] being the
    kernel-weighted mass sum over the neighbours of the query point.  The
    normal goes through [QVector3D::normalize]: with [outward] for
    [-gradient / restDensity], the gradient being the sum of
    [2·(position - neighborPosition)·densityKernelGradient(r²)·mass] over
    the same neighbours, the normal returned is [outward] scaled to the
    length 1 when the squared length of [outward] is above [1e-12] and
    farther than [1e-12] from 1, and [outward] itself, not rescaled,
    otherwise.  Without a neighbour within the radius the density is 0,
    the value is -0.7 and the normal is the null vector. *)
Theorem surfaceInfo_value_and_normal (s : SPH.t) (position : vec) :
  let outward :=
    QVector3D.neg (Spec.fieldGradient s position [/] SPH._restDensity s) in
  fst (SPH.surfaceInfo s position)
  = Spec.fieldDensity s position / SPH._restDensity s - (1 - 0.3)
  /\ (0.000000000001 < QVector3D.lengthSquared outward ->
      0.000000000001 < Rabs (QVector3D.lengthSquared outward - 1) ->
      snd (SPH.surfaceInfo s position) = Spec.normalization outward
      /\ snd (SPH.surfaceInfo s position)
         = outward [/] sqrt (QVector3D.lengthSquared outward)
      /\ QVector3D.lengthSquared (snd (SPH.surfaceInfo s position)) = 1)
  /\ (QVector3D.lengthSquared outward <= 0.000000000001
      \/ Rabs (QVector3D.lengthSquared outward - 1) <= 0.000000000001 ->
      snd (SPH.surfaceInfo s position) = outward)
  /\ (Spec.neighbors s position (Grid.cellIndex (SPH._grid s) position) = [] ->
      Spec.fieldDensity s position = 0
      /\ SPH.surfaceInfo s position = (-0.7, QVector3D.null)).
Proof.
  intros outward. rewrite surfaceInfo_normalize. cbn [fst snd]. fold outward.
  destruct (normalize_cases outward) as [Hscale Hkeep].
  split; [reflexivity|]. split; [|split].
  - intros H1 H2. rewrite (Hscale H1 H2).
    assert (H0 : 0 < QVector3D.lengthSquared outward) by lra.
    split; [symmetry; now apply normalization_nonnull|].
    split; [reflexivity|now apply lengthSquared_unit].
  - exact Hkeep.
  - intros Hnone. subst outward.
    unfold Spec.fieldDensity, Spec.fieldGradient. rewrite Hnone. simpl.
    split; [reflexivity|]. f_equal.
    + lra.
    + replace (QVector3D.neg (QVector3D.null [/] SPH._restDensity s))
        with QVector3D.null by (apply vec_eq; vec_simpl; unfold Rdiv; ring).
      apply normalize_null.
Qed.

(** The vector [-gradient / restDensity] of [Example.single] at the point
    [(a, 0, 0)] within the radius of its particle. *)
Lemma single_outward (a : R) :
  a * a < 1 ->
  Spec.neighbors Example.single (QVector3D.make a 0 0)
    (Grid.cellIndex (SPH._grid Example.single) (QVector3D.make a 0 0))
  = [0%nat]
  /\ QVector3D.neg
       (Spec.fieldGradient Example.single (QVector3D.make a 0 0)
        [/] SPH._restDensity Example.single)
     = QVector3D.make
         (6 * (315 / (64 * PI)) * (1 - a * a) * (1 - a * a) * a) 0 0.
Proof.
  intros Ha. pose proof PI_neq_0 as Hpi.
  assert (N : Spec.neighbors Example.single (QVector3D.make a 0 0)
                (Grid.cellIndex (SPH._grid Example.single)
                   (QVector3D.make a 0 0))
              = [0%nat]).
  { rewrite single_eq. unfold Spec.neighbors, Spec.candidates. simpl.
    destruct (Rlt_dec 0 (-0.0005)) as [H|_]; [lra|]. simpl.
    unfold Spec.near, Spec.distance2. simpl.
    destruct (Rlt_dec _ _) as [_|H]; [reflexivity|].
    exfalso. apply H. vec_simpl. lra. }
  split; [exact N|].
  unfold Spec.fieldGradient. rewrite N. rewrite single_eq.
  unfold Spec.distance2, SPH.densitykernelGradient. simpl.
  apply vec_eq; vec_simpl; field; assumption.
Qed.

Lemma coeff_bounds : 315 / 256 <= 315 / (64 * PI) < 2.
Proof.
  pose proof PI_4 as H4. pose proof PI2_3_2 as H3.
  assert (Hpi : 3 < PI) by lra.
  split.
  - apply Rmult_le_compat_l; [lra|]. apply Rinv_le_contravar; lra.
  - apply (Rmult_lt_reg_r (64 * PI)); [lra|].
    unfold Rdiv. rewrite Rmult_assoc, Rinv_l by lra. lra.
Qed.

Lemma surfaceInfo_value_and_normal_witness :
  snd (SPH.surfaceInfo Example.single (QVector3D.make 0.5 0 0))
  = Spec.normalization
      (QVector3D.neg
         (Spec.fieldGradient Example.single (QVector3D.make 0.5 0 0)
          [/] SPH._restDensity Example.single))
  /\ QVector3D.lengthSquared
       (snd (SPH.surfaceInfo Example.single (QVector3D.make 0.5 0 0))) = 1.
Proof.
  destruct (surfaceInfo_value_and_normal Example.single
              (QVector3D.make 0.5 0 0)) as (_ & H & _).
  destruct (single_outward 0.5) as [_ E]; [lra|].
  destruct coeff_bounds as [Hc _].
  assert (Hx : 2 <= 6 * (315 / (64 * PI)) * (1 - 0.5 * 0.5) * (1 - 0.5 * 0.5)
                    * 0.5) by lra.
  assert (Hl : 4 <= QVector3D.lengthSquared
                      (QVector3D.neg
                         (Spec.fieldGradient Example.single
                            (QVector3D.make 0.5 0 0)
                          [/] SPH._restDensity Example.single))).
  { rewrite E. unfold QVector3D.lengthSquared. simpl. nra. }
  destruct H as (H1 & _ & H2).
  - lra.
  - rewrite Rabs_right by lra. lra.
  - split; assumption.
Defined.

(** C9 as it is stated fails on [Example.single] at the point
    [(0.9999, 0, 0)], which lies within the radius of the particle: there
    [-gradient / restDensity] is not null but its squared length is below
    [1e-12], [QVector3D::normalize] leaves it alone, and the normal that
    [surfaceInfo] returns is that short vector, not its normalization. *)
Lemma surfaceInfo_normal_counterexample :
  let position := QVector3D.make 0.9999 0 0 in
  let outward :=
    QVector3D.neg (Spec.fieldGradient Example.single position
                   [/] SPH._restDensity Example.single) in
  Spec.neighbors Example.single position
    (Grid.cellIndex (SPH._grid Example.single) position) = [0%nat]
  /\ snd (SPH.surfaceInfo Example.single position) = outward
  /\ 0 < QVector3D.lengthSquared (snd (SPH.surfaceInfo Example.single position))
     <= 0.000000000001
  /\ QVector3D.lengthSquared (Spec.normalization outward) = 1
  /\ snd (SPH.surfaceInfo Example.single position) <> Spec.normalization outward.
Proof.
  intros position outward.
  destruct (single_outward 0.9999) as [N E]; [lra|].
  fold position in N, E. fold outward in E.
  destruct coeff_bounds as [Hc1 Hc2].
  set (c := 315 / (64 * PI)) in *.
  assert (Hx : 0 < 6 * c * (1 - 0.9999 * 0.9999) * (1 - 0.9999 * 0.9999)
                   * 0.9999 < 0.0000005) by (split; lra).
  set (x := 6 * c * (1 - 0.9999 * 0.9999) * (1 - 0.9999 * 0.9999) * 0.9999)
    in *.
  assert (Hl : 0 < QVector3D.lengthSquared outward <= 0.000000000001).
  { rewrite E. unfold QVector3D.lengthSquared. simpl. split; nra. }
  assert (Hn : snd (SPH.surfaceInfo Example.single position) = outward).
  { rewrite surfaceInfo_normalize. cbn [snd]. fold outward.
    apply (proj2 (normalize_cases outward)). left. apply Hl. }
  assert (Hu : QVector3D.lengthSquared (Spec.normalization outward) = 1).
  { rewrite normalization_nonnull by apply Hl.
    apply lengthSquared_unit, Hl. }
  split; [exact N|]. split; [exact Hn|]. rewrite Hn.
  split; [exact Hl|]. split; [exact Hu|].
  intros Heq. rewrite <- Heq in Hu. lra.
Qed.

(** * The density solver under a parallel schedule *)












(** ** The schedule in the order of the indices *)









